(** * The move-search core of xadrez-fala ([src/lib/ai.ts])

    A shallow embedding of the evaluator ([evaluateBoard]) and of the
    searcher ([minimax], [findTopMoves], [findBestMove]) together with the
    properties of the specification that concern them.

    The rules engine (the [chess.js] package) is not part of the
    repository: the search is embedded over an interface, [RulesEngine],
    that lists the operations [ai.ts] calls on a [Chess] object.  The
    functions are embedded twice: in [Search] on the state of the object
    taken as a value, and in [Heap] on references into a store of objects
    that [new Chess] extends and [move] updates in place; the second is
    shown to compute the first ([findBestMove_refines] and the like).  The
    module [ChessJs] is a model of chess.js, used for the starting position
    and to give every theorem with a hypothesis a concrete instance.

    The last parts follow the code around the search: [executeMove]
    ([src/hooks/useChessGame.ts]), which calls [findBestMove] for the
    opponent, with the piece instances it keeps and the description that
    [initializeGame] takes apart after [saveGameData] has put it together;
    the audio samples that [AudioStreamer.decodeAndBuffer] (in
    [src/lib/ai.ts]) decodes and that the recording worklet encodes; and
    [getSquareColor]. *)

From Stdlib Require Import ZArith List Bool Lia Permutation Sorted.
Import ListNotations.
Local Open Scope Z_scope.

(* ===================================================================== *)
(** * JavaScript numbers
    The search only ever handles integers, the two infinities used as
    sentinels, and (in the comparator of [findTopMoves]) the difference of
    two evaluations, which is [NaN] for two equal infinities.  Integer
    arithmetic on doubles is exact below 2^53; the evaluations stay far
    below that (see [evaluateBoardArray_bound]). *)

Inductive number : Type :=
| NaN
| NegInfinity
| Int (z : Z)
| Infinity.

Module Num.

(** [a < b]; any comparison with [NaN] is false. *)
Definition ltb (a b : number) : bool :=
  match a, b with
  | NaN, _ | _, NaN => false
  | NegInfinity, NegInfinity => false
  | NegInfinity, _ => true
  | Int x, Int y => x <? y
  | Int _, Infinity => true
  | _, _ => false
  end.

(** [a <= b]. *)
Definition leb (a b : number) : bool :=
  match a, b with
  | NaN, _ | _, NaN => false
  | NegInfinity, _ => true
  | Int x, Int y => x <=? y
  | Int _, Infinity => true
  | Infinity, Infinity => true
  | _, _ => false
  end.

(** [a > b]. *)
Definition gtb (a b : number) : bool := ltb b a.

(** [Math.max(a, b)]. *)
Definition max (a b : number) : number :=
  match a, b with
  | NaN, _ | _, NaN => NaN
  | NegInfinity, y => y
  | x, NegInfinity => x
  | Infinity, _ | _, Infinity => Infinity
  | Int x, Int y => Int (Z.max x y)
  end.

(** [Math.min(a, b)]. *)
Definition min (a b : number) : number :=
  match a, b with
  | NaN, _ | _, NaN => NaN
  | Infinity, y => y
  | x, Infinity => x
  | NegInfinity, _ | _, NegInfinity => NegInfinity
  | Int x, Int y => Int (Z.min x y)
  end.

(** [a - b]. *)
Definition sub (a b : number) : number :=
  match a, b with
  | NaN, _ | _, NaN => NaN
  | Infinity, Infinity => NaN
  | NegInfinity, NegInfinity => NaN
  | Infinity, _ => Infinity
  | NegInfinity, _ => NegInfinity
  | Int _, Infinity => NegInfinity
  | Int _, NegInfinity => Infinity
  | Int x, Int y => Int (x - y)
  end.

(** [-a]. *)
Definition neg (a : number) : number :=
  match a with
  | NaN => NaN
  | NegInfinity => Infinity
  | Int x => Int (- x)
  | Infinity => NegInfinity
  end.

Definition isNaN (a : number) : bool :=
  match a with NaN => true | _ => false end.

(** A number that is neither an infinity nor [NaN]. *)
Definition isFinite (a : number) : bool :=
  match a with Int _ => true | _ => false end.

End Num.

(* ===================================================================== *)
(** * Arrays: [sort] and [slice]

    [Array.prototype.sort(comparefn)] is stable, and all it asks of
    [comparefn(x, y)] is whether the result is negative.  It is embedded
    as a stable insertion sort: each element, from left to right, goes into
    the sorted prefix in front of the first element [y] for which
    [comparefn(x, y) < 0].  For a consistent comparator (the ones of
    [minimax] and of [findTopMoves]) this is the array every conforming
    engine returns.  The comparator of [findBestMove] never answers 0 and
    is not consistent, so the standard leaves the order to the engine; the
    embedding returns what V8's insertion sort returns for it, the captures
    first and each group in its former order (see
    [sort_rootCapturesFirst]). *)

Module Array.

Section Sort.
Context {A : Type} (comparefn : A -> A -> number).

Fixpoint insert (x : A) (sorted : list A) : list A :=
  match sorted with
  | [] => [x]
  | y :: rest =>
      if Num.ltb (comparefn x y) (Int 0) then x :: y :: rest
      else y :: insert x rest
  end.

Definition sort (arr : list A) : list A :=
  fold_left (fun sorted x => insert x sorted) arr [].
End Sort.

(** [arr[i] = x] for an index inside the array. *)
Fixpoint set {A : Type} (i : nat) (x : A) (arr : list A) : list A :=
  match arr, i with
  | [], _ => []
  | _ :: t, O => x :: t
  | h :: t, S j => h :: set j x t
  end.

(** [arr.slice(0, end)] for an integer [end]: a negative [end] counts
    from the back of the array. *)
Definition slice0 {A : Type} (arr : list A) (end_ : Z) : list A :=
  let len := Z.of_nat (length arr) in
  let final := if end_ <? 0 then Z.max (len + end_) 0 else Z.min end_ len in
  firstn (Z.to_nat final) arr.

End Array.

(* ===================================================================== *)
(** * Pieces, boards and the evaluation tables *)

(** [PieceSymbol] of chess.js: ['p' | 'n' | 'b' | 'r' | 'q' | 'k']. *)
Inductive PieceSymbol : Type :=
| Pawn    (* 'p' *)
| Knight  (* 'n' *)
| Bishop  (* 'b' *)
| Rook    (* 'r' *)
| Queen   (* 'q' *)
| King    (* 'k' *).

(** [Color] of chess.js: ['w' | 'b']. *)
Inductive Color : Type := White | Black.

Record Piece : Type := mkPiece { type : PieceSymbol; color : Color }.

(** What [game.board()] returns: eight rows (row 0 is rank 8) of eight
    squares, each a piece or [null]. *)
Definition Board : Type := list (list (option Piece)).

Definition Color_eqb (c d : Color) : bool :=
  match c, d with
  | White, White | Black, Black => true
  | _, _ => false
  end.

Definition swapColor (c : Color) : Color :=
  match c with White => Black | Black => White end.

Definition PIECE_VALUES (t : PieceSymbol) : Z :=
  match t with
  | Pawn => 100
  | Knight => 320
  | Bishop => 330
  | Rook => 500
  | Queen => 900
  | King => 20000
  end.

Definition PAWN_PST : list (list Z) :=
  [ [0;  0;  0;  0;  0;  0;  0;  0];
    [50; 50; 50; 50; 50; 50; 50; 50];
    [10; 10; 20; 30; 30; 20; 10; 10];
    [5;  5; 10; 25; 25; 10;  5;  5];
    [0;  0;  0; 20; 20;  0;  0;  0];
    [5; -5;-10;  0;  0;-10; -5;  5];
    [5; 10; 10;-20;-20; 10; 10;  5];
    [0;  0;  0;  0;  0;  0;  0;  0] ].

Definition KNIGHT_PST : list (list Z) :=
  [ [-50;-40;-30;-30;-30;-30;-40;-50];
    [-40;-20;  0;  0;  0;  0;-20;-40];
    [-30;  0; 10; 15; 15; 10;  0;-30];
    [-30;  5; 15; 20; 20; 15;  5;-30];
    [-30;  0; 15; 20; 20; 15;  0;-30];
    [-30;  5; 10; 15; 15; 10;  5;-30];
    [-40;-20;  0;  5;  5;  0;-20;-40];
    [-50;-40;-30;-30;-30;-30;-40;-50] ].

Definition BISHOP_PST : list (list Z) :=
  [ [-20;-10;-10;-10;-10;-10;-10;-20];
    [-10;  0;  0;  0;  0;  0;  0;-10];
    [-10;  0;  5; 10; 10;  5;  0;-10];
    [-10;  5;  5; 10; 10;  5;  5;-10];
    [-10;  0; 10; 10; 10; 10;  0;-10];
    [-10; 10; 10; 10; 10; 10; 10;-10];
    [-10;  5;  0;  0;  0;  0;  5;-10];
    [-20;-10;-10;-10;-10;-10;-10;-20] ].

Definition ROOK_PST : list (list Z) :=
  [ [0;  0;  0;  0;  0;  0;  0;  0];
    [5; 10; 10; 10; 10; 10; 10;  5];
    [-5;  0;  0;  0;  0;  0;  0; -5];
    [-5;  0;  0;  0;  0;  0;  0; -5];
    [-5;  0;  0;  0;  0;  0;  0; -5];
    [-5;  0;  0;  0;  0;  0;  0; -5];
    [-5;  0;  0;  0;  0;  0;  0; -5];
    [0;  0;  0;  5;  5;  0;  0;  0] ].

Definition QUEEN_PST : list (list Z) :=
  [ [-20;-10;-10; -5; -5;-10;-10;-20];
    [-10;  0;  0;  0;  0;  0;  0;-10];
    [-10;  0;  5;  5;  5;  5;  0;-10];
    [-5;   0;  5;  5;  5;  5;  0; -5];
    [0;    0;  5;  5;  5;  5;  0; -5];
    [-10;  5;  5;  5;  5;  5;  0;-10];
    [-10;  0;  5;  0;  0;  0;  0;-10];
    [-20;-10;-10; -5; -5;-10;-10;-20] ].

Definition KING_PST : list (list Z) :=
  [ [-30;-40;-40;-50;-50;-40;-40;-30];
    [-30;-40;-40;-50;-50;-40;-40;-30];
    [-30;-40;-40;-50;-50;-40;-40;-30];
    [-30;-40;-40;-50;-50;-40;-40;-30];
    [-20;-30;-30;-40;-40;-30;-30;-20];
    [-10;-20;-20;-20;-20;-20;-20;-10];
    [20; 20;  0;  0;  0;  0; 20; 20];
    [20; 30; 10;  0;  0; 10; 30; 20] ].

Definition PSTS (t : PieceSymbol) : list (list Z) :=
  match t with
  | Pawn => PAWN_PST
  | Knight => KNIGHT_PST
  | Bishop => BISHOP_PST
  | Rook => ROOK_PST
  | Queen => QUEEN_PST
  | King => KING_PST
  end.

(** [grid[row][col]] of a table of integers; every access of the
    evaluator is inside the 8x8 table. *)
Definition at2 (grid : list (list Z)) (row col : nat) : Z :=
  nth col (nth row grid []) 0.

(** [board[row][col]]: the piece on the square, [None] for [null]. *)
Definition squareAt (board : Board) (row col : nat) : option Piece :=
  nth col (nth row board []) None.

(** The body of the inner loop of [evaluateBoard]: the new [totalValue]
    after the square [(row, col)]. *)
Definition evaluateSquare (board : Board) (totalValue : Z) (row col : nat) : Z :=
  match squareAt board row col with
  | Some piece =>
      let materialValue := PIECE_VALUES (type piece) in
      let pst := PSTS (type piece) in
      let positionValue :=
        if Color_eqb (color piece) White then at2 pst row col
        else at2 pst (7 - row) col in
      let pieceScore := materialValue + positionValue in
      if Color_eqb (color piece) White then totalValue + pieceScore
      else totalValue - pieceScore
  | None => totalValue
  end.

(** The squares in the order the two nested loops visit them. *)
Definition squares : list (nat * nat) :=
  flat_map (fun row => map (fun col => (row, col)) (seq 0 8)) (seq 0 8).

(** The loops of [evaluateBoard] over the array [game.board()], started
    from the running total [totalValue]. *)
Definition evaluateFrom (board : Board) (totalValue : Z) (sqs : list (nat * nat)) : Z :=
  fold_left (fun total sq => evaluateSquare board total (fst sq) (snd sq)) sqs totalValue.

Definition evaluateBoardArray (board : Board) : Z :=
  evaluateFrom board 0 squares.

(* ===================================================================== *)
(** * The rules engine

    The operations of a chess.js [Chess] object that [ai.ts] uses.  [Chess]
    is the state held by one such object; [load fen] is the state of
    [new Chess(fen)] and [move game m] the state of the object after
    [game.move(m)] ([ai.ts] only makes moves that [moves()] listed for the
    position the object was loaded from, so the call does not throw).
    [captured m] is the field [m.captured] of a verbose move, [None] when
    it is [undefined]; [board game] is [game.board()], eight rows of eight
    squares. *)

Class RulesEngine : Type := {
  Chess : Type;
  Move : Type;
  Fen : Type;
  captured : Move -> option PieceSymbol;
  board : Chess -> Board;
  turn : Chess -> Color;
  isGameOver : Chess -> bool;
  moves : Chess -> list Move;
  fen : Chess -> Fen;
  load : Fen -> Chess;
  move : Chess -> Move -> Chess
}.

(** Truthiness of an optional field. *)
Definition truthy {A : Type} (x : option A) : bool :=
  match x with Some _ => true | None => false end.

(** The elements of [findTopMoves]'s result. *)
Record MoveEvaluation {M : Type} : Type :=
  mkMoveEvaluation { me_move : M; evaluation : number }.
Arguments MoveEvaluation M : clear implicits.
Arguments mkMoveEvaluation {M} _ _.

(** The result of [findBestMove]; [bestMove] is [None] for [null]. *)
Record BestMove {M : Type} : Type :=
  mkBestMove { bestMove : option M; bm_evaluation : number }.
Arguments BestMove M : clear implicits.
Arguments mkBestMove {M} _ _.

Section Search.
Context {E : RulesEngine}.

Definition evaluateBoard (game : Chess) : number :=
  Int (evaluateBoardArray (board game)).

(** [const gameCopy = new Chess(game.fen()); gameCopy.move(move);] *)
Definition gameCopyAfter (game : Chess) (m : Move) : Chess :=
  move (load (fen game)) m.

(** The comparator of the sort in [minimax]. *)
Definition capturesFirst (a b : Move) : number :=
  if truthy (captured a) && negb (truthy (captured b)) then Int (-1)
  else if negb (truthy (captured a)) && truthy (captured b) then Int 1
  else Int 0.

(** The comparator of the sort in [findBestMove]. *)
Definition rootCapturesFirst (a b : Move) : number :=
  if (if truthy (captured a) then 1 else 0) >? (if truthy (captured b) then 1 else 0)
  then Int (-1) else Int 1.

(** The loop of the maximizing branch of [minimax]; [recurse] is the
    recursive call [minimax(gameCopy, depth - 1, alpha, beta, false)]
    and [None] stands for a call that does not return. *)
Fixpoint maxLoop (recurse : Chess -> number -> number -> option number)
    (game : Chess) (moves : list Move) (maxEval alpha beta : number)
    : option number :=
  match moves with
  | [] => Some maxEval
  | m :: rest =>
      match recurse (gameCopyAfter game m) alpha beta with
      | None => None
      | Some evaluation =>
          let maxEval := Num.max maxEval evaluation in
          let alpha := Num.max alpha evaluation in
          if Num.leb beta alpha then Some maxEval
          else maxLoop recurse game rest maxEval alpha beta
      end
  end.

(** The loop of the minimizing branch. *)
Fixpoint minLoop (recurse : Chess -> number -> number -> option number)
    (game : Chess) (moves : list Move) (minEval alpha beta : number)
    : option number :=
  match moves with
  | [] => Some minEval
  | m :: rest =>
      match recurse (gameCopyAfter game m) alpha beta with
      | None => None
      | Some evaluation =>
          let minEval := Num.min minEval evaluation in
          let beta := Num.min beta evaluation in
          if Num.leb beta alpha then Some minEval
          else minLoop recurse game rest minEval alpha beta
      end
  end.

(** [minimax].  [depth] is an integer; the recursion of the source stops
    only at [depth === 0] or at a finished game, so the embedding counts
    the nested calls: [fuel] bounds their number and [None] is returned
    when it is exhausted. *)
Fixpoint minimax (fuel : nat) (game : Chess) (depth : Z) (alpha beta : number)
    (isMaximizingPlayer : bool) : option number :=
  match fuel with
  | O => None
  | S fuel' =>
      if (if depth =? 0 then true else isGameOver game)
      then Some (evaluateBoard game)
      else
        let moves := Array.sort capturesFirst (moves game) in
        if isMaximizingPlayer then
          maxLoop (fun gameCopy alpha beta =>
                     minimax fuel' gameCopy (depth - 1) alpha beta false)
                  game moves NegInfinity alpha beta
        else
          minLoop (fun gameCopy alpha beta =>
                     minimax fuel' gameCopy (depth - 1) alpha beta true)
                  game moves Infinity alpha beta
  end.

(** The first loop of [findTopMoves]: one entry per move, in the order
    of [game.moves()]. *)
Fixpoint evaluateMoves (fuel : nat) (game : Chess) (depth : Z)
    (isMaximizingPlayer : bool) (moves : list Move)
    : option (list (MoveEvaluation Move)) :=
  match moves with
  | [] => Some []
  | m :: rest =>
      match minimax fuel (gameCopyAfter game m) (depth - 1)
              NegInfinity Infinity (negb isMaximizingPlayer) with
      | None => None
      | Some evaluation =>
          match evaluateMoves fuel game depth isMaximizingPlayer rest with
          | None => None
          | Some entries => Some (mkMoveEvaluation m evaluation :: entries)
          end
      end
  end.

(** The comparator of the sort in [findTopMoves]. *)
Definition byEvaluation (isMaximizingPlayer : bool)
    (a b : MoveEvaluation Move) : number :=
  if isMaximizingPlayer then Num.sub (evaluation b) (evaluation a)
  else Num.sub (evaluation a) (evaluation b).

Definition findTopMoves (fuel : nat) (game : Chess) (depth count : Z)
    : option (list (MoveEvaluation Move)) :=
  let moves := moves game in
  if (length moves =? 0)%nat then Some []
  else
    let isMaximizingPlayer := Color_eqb (turn game) White in
    match evaluateMoves fuel game depth isMaximizingPlayer moves with
    | None => None
    | Some moveEvaluations =>
        Some (Array.slice0
                (Array.sort (byEvaluation isMaximizingPlayer) moveEvaluations)
                count)
    end.

(** The loop of [findBestMove] over the sorted root moves. *)
Fixpoint bestLoop (fuel : nat) (game : Chess) (depth : Z)
    (isMaximizingPlayer : bool) (moves : list Move)
    (bestMove : option Move) (bestValue : number) : option (BestMove Move) :=
  match moves with
  | [] => Some (mkBestMove bestMove bestValue)
  | m :: rest =>
      match minimax fuel (gameCopyAfter game m) (depth - 1)
              NegInfinity Infinity (negb isMaximizingPlayer) with
      | None => None
      | Some boardValue =>
          if isMaximizingPlayer then
            if Num.gtb boardValue bestValue
            then bestLoop fuel game depth isMaximizingPlayer rest (Some m) boardValue
            else bestLoop fuel game depth isMaximizingPlayer rest bestMove bestValue
          else
            if Num.ltb boardValue bestValue
            then bestLoop fuel game depth isMaximizingPlayer rest (Some m) boardValue
            else bestLoop fuel game depth isMaximizingPlayer rest bestMove bestValue
      end
  end.

Definition findBestMove (fuel : nat) (game : Chess) (depth : Z)
    : option (BestMove Move) :=
  let moves := moves game in
  if (length moves =? 0)%nat
  then Some (mkBestMove None (evaluateBoard game))
  else
    let moves := Array.sort rootCapturesFirst moves in
    let bestMove := nth_error moves 0 in
    let isMaximizingPlayer := Color_eqb (turn game) White in
    let bestValue := if isMaximizingPlayer then NegInfinity else Infinity in
    bestLoop fuel game depth isMaximizingPlayer moves bestMove bestValue.

(** ** The reference search of the specification

    Plain minimax over the same tree: every legal move of every node is
    searched, in the order the rules engine lists them, with no window
    and no cutoff. *)

Definition maximum (values : list number) : number :=
  fold_left Num.max values NegInfinity.

Definition minimum (values : list number) : number :=
  fold_left Num.min values Infinity.

Fixpoint fullMinimax (depth : nat) (game : Chess) (isMaximizingPlayer : bool)
    : number :=
  match depth with
  | O => evaluateBoard game
  | S depth' =>
      if isGameOver game then evaluateBoard game
      else
        let values :=
          map (fun m => fullMinimax depth' (gameCopyAfter game m)
                          (negb isMaximizingPlayer)) (moves game) in
        if isMaximizingPlayer then maximum values else minimum values
  end.

(** The value of the root of [findBestMove]'s tree: the root is expanded
    whenever it has a legal move, and its children are searched one ply
    less deep. *)
Definition fullRootValue (depth : nat) (game : Chess) : number :=
  match moves game with
  | [] => evaluateBoard game
  | _ :: _ =>
      let isMaximizingPlayer := Color_eqb (turn game) White in
      let values :=
        map (fun m => fullMinimax (depth - 1) (gameCopyAfter game m)
                        (negb isMaximizingPlayer)) (moves game) in
      if isMaximizingPlayer then maximum values else minimum values
  end.

End Search.

(* ===================================================================== *)
(** * A rules engine: the rules of chess as chess.js plays them *)

(** Modelled from the spec: the rules engine, chess.js, is an external
    package and is not in the repository.  The specification asks of it
    legal-move generation under the full rules of chess (check, castling,
    en passant, promotion), move application, the side to move, the board
    and the end-of-game test (checkmate, stalemate and the draws).  This
    module is an executable model of the part of a [Chess] object the
    search can observe: the position (the six fields of a FEN), the
    positions the object has been through (for the repetition rule), move
    generation in chess.js's order (squares from a8 to h1, then castling,
    then the legality filter), move making and the end-of-game tests.
    [perft] counts the move paths of a given length, to compare the
    generator with the published counts. *)
Module ChessJs.

(** A square as (row, column); row 0 is rank 8 and column 0 is file a. *)
Definition Square : Type := (Z * Z)%type.

Inductive Flag : Type :=
| NORMAL | CAPTURE | BIG_PAWN | EP_CAPTURE | KSIDE_CASTLE | QSIDE_CASTLE.

(** The fields of a move that the engine itself reads; a promotion is a
    move whose [promotion] is set. *)
Record Move : Type := mkMove {
  mv_color : Color;
  from : Square;
  to : Square;
  piece : PieceSymbol;
  mv_captured : option PieceSymbol;
  promotion : option PieceSymbol;
  flags : Flag
}.

(** The six fields of a FEN record. *)
Record Fen : Type := mkFen {
  placement : Board;
  active : Color;
  castleWK : bool; castleWQ : bool; castleBK : bool; castleBQ : bool;
  epSquare : option Square;
  halfMoves : Z;
  moveNumber : Z
}.

(** A [Chess] object: its current position and the earlier positions of
    its own history. *)
Record Chess : Type := mkChess { position : Fen; history : list Fen }.

Definition PieceSymbol_eqb (x y : PieceSymbol) : bool :=
  match x, y with
  | Pawn, Pawn | Knight, Knight | Bishop, Bishop
  | Rook, Rook | Queen, Queen | King, King => true
  | _, _ => false
  end.

Definition Square_eqb (s t : Square) : bool :=
  (fst s =? fst t) && (snd s =? snd t).

Definition onBoard (s : Square) : bool :=
  (0 <=? fst s) && (fst s <? 8) && (0 <=? snd s) && (snd s <? 8).

Definition pieceAt (bd : Board) (s : Square) : option Piece :=
  if onBoard s then squareAt bd (Z.to_nat (fst s)) (Z.to_nat (snd s))
  else None.

Definition setPiece (bd : Board) (s : Square) (x : option Piece) : Board :=
  if onBoard s then
    let row := Z.to_nat (fst s) in
    Array.set row (Array.set (Z.to_nat (snd s)) x (nth row bd [])) bd
  else bd.

Definition shift (s : Square) (offset : Z * Z) : Square :=
  (fst s + fst offset, snd s + snd offset).

(** The squares from a8 to h1. *)
Definition allSquares : list Square :=
  map (fun sq => (Z.of_nat (fst sq), Z.of_nat (snd sq))) squares.

Definition PAWN_OFFSETS (c : Color) : list (Z * Z) :=
  match c with
  | Black => [(1, 0); (2, 0); (1, 1); (1, -1)]
  | White => [(-1, 0); (-2, 0); (-1, -1); (-1, 1)]
  end.

Definition PIECE_OFFSETS (t : PieceSymbol) : list (Z * Z) :=
  match t with
  | Knight => [(-1, -2); (-2, -1); (-2, 1); (-1, 2); (1, 2); (2, 1); (2, -1); (1, -2)]
  | Bishop => [(-1, -1); (-1, 1); (1, 1); (1, -1)]
  | Rook => [(-1, 0); (0, 1); (1, 0); (0, -1)]
  | Queen | King =>
      [(-1, -1); (-1, 0); (-1, 1); (0, 1); (1, 1); (1, 0); (1, -1); (0, -1)]
  | Pawn => []
  end.

Definition PROMOTIONS : list PieceSymbol := [Knight; Bishop; Rook; Queen].

(** The row of the pawns that may advance two squares. *)
Definition SECOND_RANK (c : Color) : Z :=
  match c with Black => 1 | White => 6 end.

(** The moves [addMove] pushes: one, or the four promotions. *)
Definition addMove (c : Color) (from to : Square) (pc : PieceSymbol)
    (capt : option PieceSymbol) (fl : Flag) : list Move :=
  if PieceSymbol_eqb pc Pawn && ((fst to =? 0) || (fst to =? 7))
  then map (fun promo => mkMove c from to pc capt (Some promo) fl) PROMOTIONS
  else [mkMove c from to pc capt None fl].

Definition isEmpty (bd : Board) (s : Square) : bool :=
  negb (truthy (pieceAt bd s)).

(** The moves of the pawn on [from]: one square forward, two from its
    first rank, and the two captures (a pawn is never on its last rank:
    it was promoted there). *)
Definition pawnMoves (bd : Board) (us : Color) (ep : option Square)
    (from : Square) : list Move :=
  let them := swapColor us in
  let offset j := nth j (PAWN_OFFSETS us) (0, 0) in
  let to1 := shift from (offset 0%nat) in
  let to2 := shift from (offset 1%nat) in
  let pushes :=
    if onBoard to1 && isEmpty bd to1 then
      addMove us from to1 Pawn None NORMAL ++
      (if (SECOND_RANK us =? fst from) && isEmpty bd to2
       then addMove us from to2 Pawn None BIG_PAWN else [])
    else [] in
  let capture j :=
    let to := shift from (offset j) in
    let enPassant :=
      match ep with
      | Some e =>
          if Square_eqb to e
          then addMove us from to Pawn (Some Pawn) EP_CAPTURE else []
      | None => []
      end in
    if negb (onBoard to) then []
    else
      match pieceAt bd to with
      | Some target =>
          if Color_eqb (color target) them
          then addMove us from to Pawn (Some (type target)) CAPTURE
          else enPassant
      | None => enPassant
      end in
  pushes ++ capture 2%nat ++ capture 3%nat.

(** The inner [while] loop of the move generator along one offset. *)
Fixpoint slide (steps : nat) (bd : Board) (us : Color) (from : Square)
    (pc : PieceSymbol) (cur : Square) (offset : Z * Z) : list Move :=
  match steps with
  | O => []
  | S steps' =>
      let to := shift cur offset in
      if negb (onBoard to) then []
      else
        match pieceAt bd to with
        | None =>
            addMove us from to pc None NORMAL ++
            (if PieceSymbol_eqb pc Knight || PieceSymbol_eqb pc King then []
             else slide steps' bd us from pc to offset)
        | Some target =>
            if Color_eqb (color target) us then []
            else addMove us from to pc (Some (type target)) CAPTURE
        end
  end.

Definition pieceMoves (bd : Board) (us : Color) (ep : option Square)
    (from : Square) : list Move :=
  match pieceAt bd from with
  | None => []
  | Some pc =>
      if negb (Color_eqb (color pc) us) then []
      else
        match type pc with
        | Pawn => pawnMoves bd us ep from
        | t => flat_map (slide 8 bd us from t from) (PIECE_OFFSETS t)
        end
  end.

(** Whether the first piece met from [s] along [offset] is a piece of
    [c] of one of the two kinds [t1], [t2]. *)
Fixpoint rayHits (steps : nat) (bd : Board) (c : Color) (t1 t2 : PieceSymbol)
    (s : Square) (offset : Z * Z) : bool :=
  match steps with
  | O => false
  | S steps' =>
      let s' := shift s offset in
      if negb (onBoard s') then false
      else
        match pieceAt bd s' with
        | None => rayHits steps' bd c t1 t2 s' offset
        | Some pc =>
            Color_eqb (color pc) c &&
            (PieceSymbol_eqb (type pc) t1 || PieceSymbol_eqb (type pc) t2)
        end
  end.

Definition holds (bd : Board) (c : Color) (t : PieceSymbol) (s : Square) : bool :=
  match pieceAt bd s with
  | Some pc => Color_eqb (color pc) c && PieceSymbol_eqb (type pc) t
  | None => false
  end.

(** [_attacked(c, s)]: some piece of colour [c] attacks the square. *)
Definition attacked (bd : Board) (c : Color) (s : Square) : bool :=
  let pawnRow := match c with White => 1 | Black => -1 end in
  holds bd c Pawn (shift s (pawnRow, -1))
  || holds bd c Pawn (shift s (pawnRow, 1))
  || existsb (fun o => holds bd c Knight (shift s o)) (PIECE_OFFSETS Knight)
  || existsb (fun o => holds bd c King (shift s o)) (PIECE_OFFSETS King)
  || existsb (rayHits 8 bd c Bishop Queen s) (PIECE_OFFSETS Bishop)
  || existsb (rayHits 8 bd c Rook Queen s) (PIECE_OFFSETS Rook).

(** [_kings[c]]: the square of the king of colour [c]. *)
Definition kingSquare (bd : Board) (c : Color) : option Square :=
  find (holds bd c King) allSquares.

Definition isKingAttacked (bd : Board) (c : Color) : bool :=
  match kingSquare bd c with
  | Some s => attacked bd (swapColor c) s
  | None => false
  end.

Definition castlingRights (f : Fen) (c : Color) : bool * bool :=
  match c with
  | White => (castleWK f, castleWQ f)
  | Black => (castleBK f, castleBQ f)
  end.

Definition castlingMoves (f : Fen) : list Move :=
  let bd := placement f in
  let us := active f in
  let them := swapColor us in
  match kingSquare bd us with
  | None => []
  | Some ks =>
      let at_ d := shift ks (0, d) in
      (if fst (castlingRights f us)
          && isEmpty bd (at_ 1) && isEmpty bd (at_ 2)
          && negb (attacked bd them ks)
          && negb (attacked bd them (at_ 1))
          && negb (attacked bd them (at_ 2))
       then [mkMove us ks (at_ 2) King None None KSIDE_CASTLE] else [])
      ++
      (if snd (castlingRights f us)
          && isEmpty bd (at_ (-1)) && isEmpty bd (at_ (-2)) && isEmpty bd (at_ (-3))
          && negb (attacked bd them ks)
          && negb (attacked bd them (at_ (-1)))
          && negb (attacked bd them (at_ (-2)))
       then [mkMove us ks (at_ (-2)) King None None QSIDE_CASTLE] else [])
  end.

Definition Flag_eqb (x y : Flag) : bool :=
  match x, y with
  | NORMAL, NORMAL | CAPTURE, CAPTURE | BIG_PAWN, BIG_PAWN
  | EP_CAPTURE, EP_CAPTURE | KSIDE_CASTLE, KSIDE_CASTLE
  | QSIDE_CASTLE, QSIDE_CASTLE => true
  | _, _ => false
  end.

(** The board after [_makeMove]. *)
Definition boardAfter (bd : Board) (us : Color) (m : Move) : Board :=
  let bd1 := setPiece (setPiece bd (to m) (pieceAt bd (from m))) (from m) None in
  let bd2 :=
    if Flag_eqb (flags m) EP_CAPTURE then
      setPiece bd1 (shift (to m) (match us with Black => -1 | White => 1 end, 0)) None
    else bd1 in
  let bd3 :=
    match promotion m with
    | Some promo => setPiece bd2 (to m) (Some (mkPiece promo us))
    | None => bd2
    end in
  if holds bd3 us King (to m) then
    if Flag_eqb (flags m) KSIDE_CASTLE then
      setPiece (setPiece bd3 (shift (to m) (0, -1)) (pieceAt bd3 (shift (to m) (0, 1))))
               (shift (to m) (0, 1)) None
    else if Flag_eqb (flags m) QSIDE_CASTLE then
      setPiece (setPiece bd3 (shift (to m) (0, 1)) (pieceAt bd3 (shift (to m) (0, -2))))
               (shift (to m) (0, -2)) None
    else bd3
  else bd3.

(** The rook squares of [ROOKS]: (queen side, king side). *)
Definition rookSquares (c : Color) : Square * Square :=
  match c with
  | White => ((7, 0), (7, 7))
  | Black => ((0, 0), (0, 7))
  end.

(** The castling rights (king side, queen side) of colour [c] after the
    move [m] of colour [us]. *)
Definition rightsAfter (f : Fen) (us : Color) (m : Move) (bdAfter : Board)
    (c : Color) : bool * bool :=
  let '(ks, qs) := castlingRights f c in
  let '(qRook, kRook) := rookSquares c in
  if Color_eqb c us then
    if holds bdAfter us King (to m) then (false, false)
    else if Square_eqb (from m) qRook && qs then (ks, false)
    else if Square_eqb (from m) kRook && ks then (false, qs)
    else (ks, qs)
  else
    if Square_eqb (to m) qRook && qs then (ks, false)
    else if Square_eqb (to m) kRook && ks then (false, qs)
    else (ks, qs).

Definition makeMove (f : Fen) (m : Move) : Fen :=
  let us := active f in
  let bd := boardAfter (placement f) us m in
  let w := rightsAfter f us m bd White in
  let bl := rightsAfter f us m bd Black in
  {| placement := bd;
     active := swapColor us;
     castleWK := fst w; castleWQ := snd w;
     castleBK := fst bl; castleBQ := snd bl;
     epSquare :=
       if Flag_eqb (flags m) BIG_PAWN
       then Some (shift (to m) (match us with Black => -1 | White => 1 end, 0))
       else None;
     halfMoves :=
       if PieceSymbol_eqb (piece m) Pawn then 0
       else if Flag_eqb (flags m) CAPTURE || Flag_eqb (flags m) EP_CAPTURE then 0
       else halfMoves f + 1;
     moveNumber :=
       match us with Black => moveNumber f + 1 | White => moveNumber f end |}.

(** [_moves({legal: false})]. *)
Definition pseudoLegalMoves (f : Fen) : list Move :=
  flat_map (pieceMoves (placement f) (active f) (epSquare f)) allSquares
  ++ castlingMoves f.

(** [_moves()]: the pseudo-legal moves that do not leave the mover's
    king attacked. *)
Definition legalMoves (f : Fen) : list Move :=
  match kingSquare (placement f) (active f) with
  | None => pseudoLegalMoves f
  | Some _ =>
      filter (fun m => negb (isKingAttacked (placement (makeMove f m)) (active f)))
             (pseudoLegalMoves f)
  end.

Definition isCheck (f : Fen) : bool := isKingAttacked (placement f) (active f).

Definition noMoves (f : Fen) : bool :=
  match legalMoves f with [] => true | _ :: _ => false end.

Definition isCheckmate (f : Fen) : bool := isCheck f && noMoves f.

Definition isStalemate (f : Fen) : bool := negb (isCheck f) && noMoves f.

Definition piecesOn (bd : Board) : list (Square * Piece) :=
  flat_map (fun s => match pieceAt bd s with
                     | Some pc => [(s, pc)]
                     | None => []
                     end) allSquares.

Definition countType (t : PieceSymbol) (l : list (Square * Piece)) : nat :=
  length (filter (fun sp => PieceSymbol_eqb (type (snd sp)) t) l).

Definition isInsufficientMaterial (f : Fen) : bool :=
  let pcs := piecesOn (placement f) in
  let numPieces := length pcs in
  let bishops :=
    map (fun sp => (fst (fst sp) + snd (fst sp) + 1) mod 2)
        (filter (fun sp => PieceSymbol_eqb (type (snd sp)) Bishop) pcs) in
  if (numPieces =? 2)%nat then true
  else if (numPieces =? 3)%nat
          && ((countType Bishop pcs =? 1)%nat || (countType Knight pcs =? 1)%nat)
  then true
  else if (numPieces =? countType Bishop pcs + 2)%nat then
    let sum := fold_left Z.add bishops 0 in
    (sum =? 0) || (sum =? Z.of_nat (length bishops))
  else false.

Definition Piece_eqb (x y : Piece) : bool :=
  PieceSymbol_eqb (type x) (type y) && Color_eqb (color x) (color y).

Definition optPiece_eqb (x y : option Piece) : bool :=
  match x, y with
  | Some a, Some c => Piece_eqb a c
  | None, None => true
  | _, _ => false
  end.

Definition samePlacement (x y : Board) : bool :=
  forallb (fun s => optPiece_eqb (pieceAt x s) (pieceAt y s)) allSquares.

(** Equality of two positions for the repetition rule: the first four
    fields of the FEN. *)
Definition samePosition (x y : Fen) : bool :=
  samePlacement (placement x) (placement y)
  && Color_eqb (active x) (active y)
  && Bool.eqb (castleWK x) (castleWK y) && Bool.eqb (castleWQ x) (castleWQ y)
  && Bool.eqb (castleBK x) (castleBK y) && Bool.eqb (castleBQ x) (castleBQ y)
  && match epSquare x, epSquare y with
     | Some s, Some t => Square_eqb s t
     | None, None => true
     | _, _ => false
     end.

Definition isThreefoldRepetition (g : Chess) : bool :=
  (3 <=? length (filter (samePosition (position g)) (position g :: history g)))%nat.

Definition isDraw (g : Chess) : bool :=
  (100 <=? halfMoves (position g))
  || isStalemate (position g)
  || isInsufficientMaterial (position g)
  || isThreefoldRepetition g.

Definition isGameOver (g : Chess) : bool :=
  isCheckmate (position g) || isStalemate (position g) || isDraw g.

(** [new Chess(fen)]: a fresh object with an empty history. *)
Definition load (f : Fen) : Chess := mkChess f [].

(** [game.move(m)] for a move [m] that [game.moves()] lists. *)
Definition move (g : Chess) (m : Move) : Chess :=
  mkChess (makeMove (position g) m) (position g :: history g).

Definition backRank (c : Color) : list (option Piece) :=
  map (fun t => Some (mkPiece t c))
      [Rook; Knight; Bishop; Queen; King; Bishop; Knight; Rook].

Definition pawnRank (c : Color) : list (option Piece) :=
  repeat (Some (mkPiece Pawn c)) 8.

Definition emptyRank : list (option Piece) := repeat None 8.

(** rnbqkbnr/pppppppp/8/8/8/8/PPPPPPPP/RNBQKBNR w KQkq - 0 1 *)
Definition DEFAULT_POSITION : Fen :=
  {| placement :=
       [backRank Black; pawnRank Black; emptyRank; emptyRank;
        emptyRank; emptyRank; pawnRank White; backRank White];
     active := White;
     castleWK := true; castleWQ := true; castleBK := true; castleBQ := true;
     epSquare := None;
     halfMoves := 0;
     moveNumber := 1 |}.

(** [new Chess()]. *)
Definition start : Chess := load DEFAULT_POSITION.

(** The number of sequences of [n] legal moves from a position. *)
Fixpoint perft (n : nat) (f : Fen) : Z :=
  match n with
  | O => 1
  | S n' =>
      fold_left (fun acc m => acc + perft n' (makeMove f m)) (legalMoves f) 0
  end.

End ChessJs.

(** Modelled from the spec: chess.js as a rules engine, through the model
    [ChessJs] of the package. *)
#[export] Instance chessJs : RulesEngine := {|
  Chess := ChessJs.Chess;
  Move := ChessJs.Move;
  Fen := ChessJs.Fen;
  captured := ChessJs.mv_captured;
  board := fun g => ChessJs.placement (ChessJs.position g);
  turn := fun g => ChessJs.active (ChessJs.position g);
  isGameOver := ChessJs.isGameOver;
  moves := fun g => ChessJs.legalMoves (ChessJs.position g);
  fen := ChessJs.position;
  load := ChessJs.load;
  move := ChessJs.move
|}.


(* ===================================================================== *)
(** * The search on [Chess] objects

    [Search] above computes with the state of a [Chess] object as a value.
    The source passes references: [game] is an object of the caller's,
    [new Chess(...)] allocates one and [gameCopy.move(move)] updates one in
    place.  This module embeds the same functions over a store of objects
    and records every call made on the rules engine, so that what the
    search does to the caller's object, and which engine operations it
    calls, can be stated. *)

Module Heap.

(** A reference to a [Chess] object: its index in the store. *)
Definition ref : Type := nat.

Section Objects.
Context {E : RulesEngine}.

(** The calls on the rules engine. *)
Inductive Call : Type :=
| CallNew (created : ref)
| CallMove (game : ref) (m : Move)
| CallFen (game : ref)
| CallBoard (game : ref)
| CallTurn (game : ref)
| CallMoves (game : ref)
| CallIsGameOver (game : ref).

Record World : Type := mkWorld { objects : list Chess; calls : list Call }.

(** Computations on the store; [None] is a call that does not return
    (or a dangling reference, which no run from a valid one meets). *)
Definition M (A : Type) : Type := World -> option (A * World).

Definition ret {A : Type} (x : A) : M A := fun w => Some (x, w).

Definition bind {A B : Type} (c : M A) (f : A -> M B) : M B :=
  fun w => match c w with
           | Some (x, w') => f x w'
           | None => None
           end.

Definition abort {A : Type} : M A := fun _ => None.

(** A reading call [game.f()]: it is recorded and leaves the store as
    it is. *)
Definition query {A : Type} (c : ref -> Call) (f : Chess -> A) (game : ref)
    : M A :=
  fun w => match nth_error (objects w) game with
           | Some g => Some (f g, mkWorld (objects w) (calls w ++ [c game]))
           | None => None
           end.

(** [new Chess(fen)]. *)
Definition newChess (f : Fen) : M ref :=
  fun w => let created := length (objects w) in
           Some (created,
                 mkWorld (objects w ++ [load f]) (calls w ++ [CallNew created])).

(** [game.move(m)]: the object is updated in place. *)
Definition doMove (game : ref) (m : Move) : M unit :=
  fun w => match nth_error (objects w) game with
           | Some g =>
               Some (tt, mkWorld (Array.set game (move g m) (objects w))
                                 (calls w ++ [CallMove game m]))
           | None => None
           end.
End Objects.

Notation "x <- c ;; k" := (bind c (fun x => k))
  (at level 61, c at next level, right associativity).
Notation "c ;;; k" := (bind c (fun _ => k))
  (at level 61, right associativity).

Section Search.
Context {E : RulesEngine}.

Definition evaluateBoard (game : ref) : M number :=
  board <- query CallBoard board game ;;
  ret (Int (evaluateBoardArray board)).

(** [const gameCopy = new Chess(game.fen()); gameCopy.move(move);] *)
Definition gameCopyAfter (game : ref) (m : Move) : M ref :=
  f <- query CallFen fen game ;;
  gameCopy <- newChess f ;;
  doMove gameCopy m ;;;
  ret gameCopy.

Fixpoint maxLoop (recurse : ref -> number -> number -> M number)
    (game : ref) (moves : list Move) (maxEval alpha beta : number)
    : M number :=
  match moves with
  | [] => ret maxEval
  | m :: rest =>
      gameCopy <- gameCopyAfter game m ;;
      evaluation <- recurse gameCopy alpha beta ;;
      let maxEval := Num.max maxEval evaluation in
      let alpha := Num.max alpha evaluation in
      if Num.leb beta alpha then ret maxEval
      else maxLoop recurse game rest maxEval alpha beta
  end.

Fixpoint minLoop (recurse : ref -> number -> number -> M number)
    (game : ref) (moves : list Move) (minEval alpha beta : number)
    : M number :=
  match moves with
  | [] => ret minEval
  | m :: rest =>
      gameCopy <- gameCopyAfter game m ;;
      evaluation <- recurse gameCopy alpha beta ;;
      let minEval := Num.min minEval evaluation in
      let beta := Num.min beta evaluation in
      if Num.leb beta alpha then ret minEval
      else minLoop recurse game rest minEval alpha beta
  end.

Fixpoint minimax (fuel : nat) (game : ref) (depth : Z) (alpha beta : number)
    (isMaximizingPlayer : bool) : M number :=
  match fuel with
  | O => abort
  | S fuel' =>
      stop <- (if depth =? 0 then ret true
               else query CallIsGameOver isGameOver game) ;;
      if stop : bool then evaluateBoard game
      else
        moves <- query CallMoves moves game ;;
        let moves := Array.sort capturesFirst moves in
        if isMaximizingPlayer then
          maxLoop (fun gameCopy alpha beta =>
                     minimax fuel' gameCopy (depth - 1) alpha beta false)
                  game moves NegInfinity alpha beta
        else
          minLoop (fun gameCopy alpha beta =>
                     minimax fuel' gameCopy (depth - 1) alpha beta true)
                  game moves Infinity alpha beta
  end.

Fixpoint evaluateMoves (fuel : nat) (game : ref) (depth : Z)
    (isMaximizingPlayer : bool) (moves : list Move)
    : M (list (MoveEvaluation Move)) :=
  match moves with
  | [] => ret []
  | m :: rest =>
      gameCopy <- gameCopyAfter game m ;;
      evaluation <- minimax fuel gameCopy (depth - 1)
                      NegInfinity Infinity (negb isMaximizingPlayer) ;;
      entries <- evaluateMoves fuel game depth isMaximizingPlayer rest ;;
      ret (mkMoveEvaluation m evaluation :: entries)
  end.

Definition findTopMoves (fuel : nat) (game : ref) (depth count : Z)
    : M (list (MoveEvaluation Move)) :=
  moves <- query CallMoves moves game ;;
  if (length moves =? 0)%nat then ret []
  else
    turn <- query CallTurn turn game ;;
    let isMaximizingPlayer := Color_eqb turn White in
    moveEvaluations <- evaluateMoves fuel game depth isMaximizingPlayer moves ;;
    ret (Array.slice0
           (Array.sort (byEvaluation isMaximizingPlayer) moveEvaluations)
           count).

Fixpoint bestLoop (fuel : nat) (game : ref) (depth : Z)
    (isMaximizingPlayer : bool) (moves : list Move)
    (bestMove : option Move) (bestValue : number) : M (BestMove Move) :=
  match moves with
  | [] => ret (mkBestMove bestMove bestValue)
  | m :: rest =>
      gameCopy <- gameCopyAfter game m ;;
      boardValue <- minimax fuel gameCopy (depth - 1)
                      NegInfinity Infinity (negb isMaximizingPlayer) ;;
      if isMaximizingPlayer then
        if Num.gtb boardValue bestValue
        then bestLoop fuel game depth isMaximizingPlayer rest (Some m) boardValue
        else bestLoop fuel game depth isMaximizingPlayer rest bestMove bestValue
      else
        if Num.ltb boardValue bestValue
        then bestLoop fuel game depth isMaximizingPlayer rest (Some m) boardValue
        else bestLoop fuel game depth isMaximizingPlayer rest bestMove bestValue
  end.

Definition findBestMove (fuel : nat) (game : ref) (depth : Z)
    : M (BestMove Move) :=
  moves <- query CallMoves moves game ;;
  if (length moves =? 0)%nat
  then (evaluation <- evaluateBoard game ;; ret (mkBestMove None evaluation))
  else
    let moves := Array.sort rootCapturesFirst moves in
    let bestMove := nth_error moves 0 in
    turn <- query CallTurn turn game ;;
    let isMaximizingPlayer := Color_eqb turn White in
    let bestValue := if isMaximizingPlayer then NegInfinity else Infinity in
    bestLoop fuel game depth isMaximizingPlayer moves bestMove bestValue.

Definition isCallMoves (c : Call) : bool :=
  match c with CallMoves _ => true | _ => false end.

End Search.

End Heap.

(* ===================================================================== *)
(** * Notions used in the statements *)

(** The colour flip of the specification: every piece changes colour and
    stays on its square. *)
Definition flipPiece (pc : Piece) : Piece :=
  mkPiece (type pc) (swapColor (color pc)).

Definition colorFlip (board : Board) : Board :=
  map (map (option_map flipPiece)) board.

(** The colour flip that also mirrors the ranks: the piece of row [r]
    goes, with the other colour, to row [7 - r] of the same file. *)
Definition mirrorFlip (board : Board) : Board := rev (colorFlip board).

(** The score one square adds to the running total. *)
Definition contribution (board : Board) (row col : nat) : Z :=
  evaluateSquare board 0 row col.

(** Equality of two numbers as values ([NaN] is equal to itself here). *)
Definition Num_eqb (a c : number) : bool :=
  match a, c with
  | NaN, NaN | NegInfinity, NegInfinity | Infinity, Infinity => true
  | Int x, Int y => x =? y
  | _, _ => false
  end.

(** What a fail-soft alpha-beta search may return for a node whose plain
    minimax value is [exact], searched with the window [(alpha, beta)]:
    the exact value inside the window, and outside it a bound between the
    window and the exact value. *)
Definition within (alpha beta exact v : number) : Prop :=
  Num.isNaN v = false /\
  (Num.leb exact alpha = true -> Num.leb exact v = true /\ Num.leb v alpha = true) /\
  (Num.ltb alpha exact = true -> Num.ltb exact beta = true -> v = exact) /\
  (Num.leb beta exact = true -> Num.leb beta v = true /\ Num.leb v exact = true).

(** [x] is at least as good as [y] for the side to move. *)
Definition notWorse (isMaximizingPlayer : bool) (x y : number) : bool :=
  if isMaximizingPlayer then Num.leb y x else Num.leb x y.

(** [l] is sorted best first for the side to move. *)
Definition bestFirst {M : Type} (isMaximizingPlayer : bool)
    (l : list (MoveEvaluation M)) : Prop :=
  StronglySorted
    (fun x y => notWorse isMaximizingPlayer (evaluation x) (evaluation y) = true) l.

(** The entries of [l] whose evaluation is [v], in the order of [l]. *)
Definition withEvaluation {M : Type} (v : number) (l : list (MoveEvaluation M))
    : list (MoveEvaluation M) :=
  filter (fun x => Num_eqb (evaluation x) v) l.

(** The state of the loop after some moves: [maxEval] is the running
    maximum of the values returned so far and [done] the maximum of
    their exact values; the loop's [alpha] is [Num.max a0 maxEval]. *)
Definition maxInv (a0 beta maxEval done : number) : Prop :=
  Num.isNaN a0 = false /\ Num.isNaN beta = false /\
  Num.isNaN maxEval = false /\ Num.isNaN done = false /\
  Num.ltb (Num.max a0 maxEval) beta = true /\
  Num.leb done maxEval = true /\
  (Num.ltb a0 maxEval = true -> done = maxEval).

(** The same for the minimizing loop, whose [beta] is
    [Num.min b0 minEval]. *)
Definition minInv (alpha b0 minEval done : number) : Prop :=
  Num.isNaN alpha = false /\ Num.isNaN b0 = false /\
  Num.isNaN minEval = false /\ Num.isNaN done = false /\
  Num.ltb alpha (Num.min b0 minEval) = true /\
  Num.leb minEval done = true /\
  (Num.ltb minEval b0 = true -> done = minEval).

(** The squares of one row, in the order of the inner loop. *)
Definition rowSquares (row : nat) : list (nat * nat) :=
  map (fun col => (row, col)) (seq 0 8).

(** A move that takes a piece. *)
Definition isCapture {E : RulesEngine} (m : Move) : bool := truthy (captured m).

(** The captures of [ms] followed by its other moves, each group in the
    order of [ms]. *)
Definition capturesFirstOrder {E : RulesEngine} (ms : list Move) : list Move :=
  filter isCapture ms ++ filter (fun m => negb (isCapture m)) ms.

(** [x] is strictly better than [y] for the side to move: the test of
    [findBestMove]. *)
Definition better (isMaximizingPlayer : bool) (x y : number) : bool :=
  if isMaximizingPlayer then Num.gtb x y else Num.ltb x y.

(** The initial [bestValue] of [findBestMove]. *)
Definition worst (isMaximizingPlayer : bool) : number :=
  if isMaximizingPlayer then NegInfinity else Infinity.

(** The best of a list of values for the side to move. *)
Definition bestOf (isMaximizingPlayer : bool) (values : list number) : number :=
  if isMaximizingPlayer then fold_left Num.max values NegInfinity
  else fold_left Num.min values Infinity.

(** The value the root loops compute for the move [m]. *)
Definition rootValue {E : RulesEngine} (fuel : nat) (game : Chess) (depth : Z)
    (isMaximizingPlayer : bool) (m : Move) : option number :=
  minimax fuel (gameCopyAfter game m) (depth - 1)
    NegInfinity Infinity (negb isMaximizingPlayer).

(** [m], of value [v], is the first of the best moves of the list
    [before ++ m :: after]: the moves before it are strictly worse and
    the moves after it are not better. *)
Definition firstBest {M : Type} (isMaximizingPlayer : bool) (value : M -> number)
    (m : M) (v : number) (before after : list M) : Prop :=
  value m = v
  /\ (forall x, In x before -> better isMaximizingPlayer v (value x) = true)
  /\ (forall x, In x after -> notWorse isMaximizingPlayer v (value x) = true).

(** The state of the root loop of [findBestMove] after the moves [pre]
    of [order]. *)
Definition loopState {M : Type} (isMaximizingPlayer : bool) (value : M -> number)
    (order pre : list M) (bm : option M) (bv : number) : Prop :=
  (bv = worst isMaximizingPlayer /\ bm = nth_error order 0
   /\ forall x, In x pre -> value x = worst isMaximizingPlayer)
  \/ (exists before m after,
        pre = before ++ m :: after /\ bm = Some m
        /\ firstBest isMaximizingPlayer value m bv before after).

(** The rank by which [findTopMoves] sorts: the evaluation for the
    minimizing side, its opposite for the maximizing side. *)
Definition evaluationRank {M : Type} (isMaximizingPlayer : bool)
    (e : MoveEvaluation M) : number :=
  if isMaximizingPlayer then Num.neg (evaluation e) else evaluation e.

(** A call that changes an object that existed when the store had [n]
    objects. *)
Definition movesOld {E : RulesEngine} (n : nat) (c : Heap.Call) : bool :=
  match c with
  | Heap.CallMove target _ => (target <? n)%nat
  | _ => false
  end.

(** What a run may do to the world: add objects at the end of the store,
    leave the objects it found as they were, and call the engine, without
    a [move] on an object it found. *)
Definition grows {E : RulesEngine} (w w' : Heap.World) : Prop :=
  exists created cs,
    Heap.objects w' = Heap.objects w ++ created
    /\ Heap.calls w' = Heap.calls w ++ cs
    /\ Forall (fun c => movesOld (length (Heap.objects w)) c = false) cs.

(** The run of [c] from [w] returns what the computation on values
    [r] returns, in a world grown from [w]; it does not return when [r]
    does not. *)
Definition refines {E : RulesEngine} {A : Type} (c : Heap.M A) (w : Heap.World)
    (r : option A) : Prop :=
  match r with
  | Some x => exists w', c w = Some (x, w') /\ grows w w'
  | None => c w = None
  end.

(** ** Sample positions *)

(** White: king e1, pawn a7.  Black: king e8. *)
Definition pawnOnSeventh : Board :=
  [ [None; None; None; None; Some (mkPiece King Black); None; None; None];
    [Some (mkPiece Pawn White); None; None; None; None; None; None; None];
    ChessJs.emptyRank; ChessJs.emptyRank; ChessJs.emptyRank; ChessJs.emptyRank;
    ChessJs.emptyRank;
    [None; None; None; None; Some (mkPiece King White); None; None; None] ].

(** Black to move and stalemated: black king a8, white queen c7, white
    king h1. *)
Definition stalemated : ChessJs.Chess :=
  ChessJs.load
    {| ChessJs.placement :=
         [ [Some (mkPiece King Black); None; None; None; None; None; None; None];
           [None; None; Some (mkPiece Queen White); None; None; None; None; None];
           ChessJs.emptyRank; ChessJs.emptyRank; ChessJs.emptyRank;
           ChessJs.emptyRank; ChessJs.emptyRank;
           [None; None; None; None; None; None; None; Some (mkPiece King White)] ];
       ChessJs.active := Black;
       ChessJs.castleWK := false; ChessJs.castleWQ := false;
       ChessJs.castleBK := false; ChessJs.castleBQ := false;
       ChessJs.epSquare := None;
       ChessJs.halfMoves := 0;
       ChessJs.moveNumber := 50 |}.

(** 1. Nc3, the knight from b1 to c3. *)
Definition Nb1c3 : ChessJs.Move :=
  ChessJs.mkMove White (7, 1) (5, 2) Knight None None ChessJs.NORMAL.

(** A world whose only object is a new game. *)
Definition newGameWorld : Heap.World (E := chessJs) :=
  Heap.mkWorld [ChessJs.start] [].

(** r3k2r/p1ppqpb1/bn2pnp1/3PN3/1p2P3/2N2Q1p/PPPBBPPP/R3K2R w KQkq - 0 1,
    a position with castling, pins and promotions close at hand. *)
Definition kiwipete : ChessJs.Fen :=
  let W t := Some (mkPiece t White) in
  let B t := Some (mkPiece t Black) in
  let e := @None Piece in
  {| ChessJs.placement :=
       [ [B Rook; e; e; e; B King; e; e; B Rook];
         [B Pawn; e; B Pawn; B Pawn; B Queen; B Pawn; B Bishop; e];
         [B Bishop; B Knight; e; e; B Pawn; B Knight; B Pawn; e];
         [e; e; e; W Pawn; W Knight; e; e; e];
         [e; B Pawn; e; e; W Pawn; e; e; e];
         [e; e; W Knight; e; e; W Queen; e; B Pawn];
         [W Pawn; W Pawn; W Pawn; W Bishop; W Bishop; W Pawn; W Pawn; W Pawn];
         [W Rook; e; e; e; W King; e; e; W Rook] ];
     ChessJs.active := White;
     ChessJs.castleWK := true; ChessJs.castleWQ := true;
     ChessJs.castleBK := true; ChessJs.castleBQ := true;
     ChessJs.epSquare := None;
     ChessJs.halfMoves := 0;
     ChessJs.moveNumber := 1 |}.

(** White to move can take the queen on d5 with the pawn on e4; the kings
    are on e1 and e8. *)
Definition freeQueen : ChessJs.Chess :=
  ChessJs.load
    {| ChessJs.placement :=
         [ [None; None; None; None; Some (mkPiece King Black); None; None; None];
           ChessJs.emptyRank; ChessJs.emptyRank;
           [None; None; None; Some (mkPiece Queen Black); None; None; None; None];
           [None; None; None; None; Some (mkPiece Pawn White); None; None; None];
           ChessJs.emptyRank; ChessJs.emptyRank;
           [None; None; None; None; Some (mkPiece King White); None; None; None] ];
       ChessJs.active := White;
       ChessJs.castleWK := false; ChessJs.castleWQ := false;
       ChessJs.castleBK := false; ChessJs.castleBQ := false;
       ChessJs.epSquare := None;
       ChessJs.halfMoves := 0;
       ChessJs.moveNumber := 30 |}.

(** e4xd5, taking the queen. *)
Definition e4xd5 : ChessJs.Move :=
  ChessJs.mkMove White (4, 4) (3, 3) Pawn (Some Queen) None ChessJs.CAPTURE.

(** ** Further notions *)

(** The line the search follows first from [game]: at each position the
    first move of the array sorted captures first.  [firstLineEnds n game]
    holds when that line comes to a finished game, or to a position with
    no move, within [n] moves. *)
Fixpoint firstLineEnds {E : RulesEngine} (n : nat) (game : Chess) : bool :=
  if isGameOver game then true
  else
    match Array.sort capturesFirst (moves game) with
    | [] => true
    | m :: _ =>
        match n with
        | O => false
        | S n' => firstLineEnds n' (gameCopyAfter game m)
        end
    end.

(** The square [sq] of the board holds a piece of the colour [c]. *)
Definition holdsColor (board : Board) (c : Color) (sq : nat * nat) : bool :=
  match squareAt board (fst sq) (snd sq) with
  | Some piece => Color_eqb (color piece) c
  | None => false
  end.

(** The number of pieces of the colour [c] on the 64 squares. *)
Definition countPieces (board : Board) (c : Color) : Z :=
  Z.of_nat (length (filter (holdsColor board c) squares)).

(** The number of positions in the tree that plain minimax searches below
    [game] to the depth [n], [game] included. *)
Fixpoint fullTreeSize {E : RulesEngine} (n : nat) (game : Chess) : nat :=
  match n with
  | O => 1
  | S n' =>
      if isGameOver game then 1
      else S (list_sum (map (fun m => fullTreeSize n' (gameCopyAfter game m))
                            (moves game)))
  end.

(** White king e1, black king e8, White to move: a finished game (a draw
    by insufficient material) in which moves are still legal. *)
Definition twoKings : ChessJs.Chess :=
  ChessJs.load
    {| ChessJs.placement :=
         [ [None; None; None; None; Some (mkPiece King Black); None; None; None];
           ChessJs.emptyRank; ChessJs.emptyRank; ChessJs.emptyRank;
           ChessJs.emptyRank; ChessJs.emptyRank; ChessJs.emptyRank;
           [None; None; None; None; Some (mkPiece King White); None; None; None] ];
       ChessJs.active := White;
       ChessJs.castleWK := false; ChessJs.castleWQ := false;
       ChessJs.castleBK := false; ChessJs.castleBQ := false;
       ChessJs.epSquare := None;
       ChessJs.halfMoves := 0;
       ChessJs.moveNumber := 60 |}.

(** Ke1-d2, the first move chess.js lists for [twoKings]. *)
Definition Ke1d2 : ChessJs.Move :=
  ChessJs.mkMove White (7, 4) (6, 3) King None None ChessJs.NORMAL.

(* ===================================================================== *)
(** * The caller of the search: [executeMove] ([src/hooks/useChessGame.ts])

    [executeMove] plays the player's move on a copy of the game and, half
    a second later, lets [findBestMove] answer at depth 3.  The embedding
    follows the games: a [Chess] object is the value of its state, the
    timers only delay, and the result lists what the function hands over:
    the game given to [setGame] after the player's move, the move of the
    opponent if one is played, and the game given to [onOpponentMoved]
    (and, after a reply, to [setGame]).  The player's move is one the
    board offered, a legal move of [game], so that [move] does not
    throw. *)

Section ExecuteMove.
Context {E : RulesEngine}.

Record Played : Type := mkPlayed {
  playerMoveGame : Chess;
  opponentMove : option Move;
  finalGame : Chess
}.

(** The body of the timer callback; [None] is a search that does not
    return. *)
Definition opponentReply (fuel : nat) (playerMoveGame : Chess)
    : option (option Move * Chess) :=
  let opponentTurnGame := load (fen playerMoveGame) in
  if (if isGameOver opponentTurnGame then true
      else Color_eqb (turn opponentTurnGame) White)
  then Some (None, opponentTurnGame)
  else
    match findBestMove fuel opponentTurnGame 3 with
    | None => None
    | Some result =>
        match bestMove result with
        | None => Some (None, opponentTurnGame)
        | Some bestMove => Some (Some bestMove, move opponentTurnGame bestMove)
        end
    end.

Definition executeMove (fuel : nat) (game : Chess) (m : Move) : option Played :=
  let playerMoveGame := move (load (fen game)) m in
  if negb (isGameOver playerMoveGame) then
    match opponentReply fuel playerMoveGame with
    | None => None
    | Some (reply, finalGame) => Some (mkPlayed playerMoveGame reply finalGame)
    end
  else Some (mkPlayed playerMoveGame None playerMoveGame).

End ExecuteMove.

(** ** The piece instances

    Beside the game, [executeMove] keeps [pieceInstances], an object that
    maps the name of a square to the instance (identity, name, personality)
    of the piece standing on it, or to [null].  The squares are the pairs
    of [ChessJs]; the texts of an instance are carried along and never
    read by [executeMove], so they are one field, [info], of a type left
    open, and [promoted] stands for the texts made up for a promoted piece
    (its id [color_type_from_promo], its name and its personality). *)

Module Instances.

Section Instances.
Context {Info : Type}.
Variable promoted : Color -> PieceSymbol -> ChessJs.Square -> Info.

Record PieceInstance : Type := mkPieceInstance {
  info : Info;
  pi_type : PieceSymbol;
  pi_color : Color;
  square : ChessJs.Square
}.

(** The value under a key: none ([undefined]), [null], or an instance. *)
Inductive Slot : Type :=
| Undefined
| Null
| Instance (instance : PieceInstance).

Definition PieceInstances : Type := ChessJs.Square -> Slot.

(** [instances[key] = value] *)
Definition set (key : ChessJs.Square) (value : Slot) (instances : PieceInstances)
    : PieceInstances :=
  fun k => if ChessJs.Square_eqb k key then value else instances k.

(** [{ ...instance, square }] *)
Definition moved (instance : PieceInstance) (square : ChessJs.Square)
    : PieceInstance :=
  mkPieceInstance (info instance) (pi_type instance) (pi_color instance) square.

(** The squares of the rook in a castling move of the colour [c]:
    [h1]/[a1] and [f1]/[d1], on the rank 8 for Black. *)
Definition rookFrom (isKingside : bool) (c : Color) : ChessJs.Square :=
  (match c with White => 7 | Black => 0 end, if isKingside then 7 else 0).

Definition rookTo (isKingside : bool) (c : Color) : ChessJs.Square :=
  (match c with White => 7 | Black => 0 end, if isKingside then 5 else 3).

(** [move.flags.includes('k') || move.flags.includes('q')] *)
Definition isCastling (m : ChessJs.Move) : bool :=
  ChessJs.Flag_eqb (ChessJs.flags m) ChessJs.KSIDE_CASTLE
  || ChessJs.Flag_eqb (ChessJs.flags m) ChessJs.QSIDE_CASTLE.

(** The block "Handle Castling", the same for both players. *)
Definition castleRook (m : ChessJs.Move) (newInstances : PieceInstances)
    : PieceInstances :=
  if isCastling m then
    let isKingside := ChessJs.Flag_eqb (ChessJs.flags m) ChessJs.KSIDE_CASTLE in
    let rookFrom := rookFrom isKingside (ChessJs.mv_color m) in
    let rookTo := rookTo isKingside (ChessJs.mv_color m) in
    match newInstances rookFrom with
    | Instance rook =>
        set rookFrom Null (set rookTo (Instance (moved rook rookTo)) newInstances)
    | _ => newInstances
    end
  else newInstances.

(** The update after the player's move; [playerMoveGame] is the board
    after the move, read at [move.to] for a promotion.  [None] is the
    [TypeError] of destructuring [undefined], were that square empty. *)
Definition playerUpdate (playerMoveGame : Board) (m : ChessJs.Move)
    (prevInstances : PieceInstances) : option PieceInstances :=
  let newInstances :=
    match ChessJs.promotion m with
    | Some _ =>
        match ChessJs.pieceAt playerMoveGame (ChessJs.to m) with
        | Some pc =>
            Some (set (ChessJs.to m)
                    (Instance (mkPieceInstance
                                 (promoted (color pc) (type pc) (ChessJs.from m))
                                 (type pc) (color pc) (ChessJs.to m)))
                    prevInstances)
        | None => None
        end
    | None =>
        match prevInstances (ChessJs.from m) with
        | Instance movedPiece =>
            Some (set (ChessJs.to m)
                    (Instance (moved movedPiece (ChessJs.to m))) prevInstances)
        | _ => Some prevInstances
        end
    end in
  match newInstances with
  | Some newInstances =>
      Some (set (ChessJs.from m) Null (castleRook m newInstances))
  | None => None
  end.

(** The update after the opponent's move. *)
Definition opponentUpdate (bestMove : ChessJs.Move)
    (prevInstances : PieceInstances) : PieceInstances :=
  let newInstances :=
    match prevInstances (ChessJs.from bestMove) with
    | Instance movedPiece =>
        set (ChessJs.from bestMove) Null
          (set (ChessJs.to bestMove)
             (Instance (moved movedPiece (ChessJs.to bestMove))) prevInstances)
    | _ => prevInstances
    end in
  castleRook bestMove newInstances.

(** Every instance is stored under the name of its own square. *)
Definition keyed (instances : PieceInstances) : Prop :=
  forall k instance, instances k = Instance instance -> square instance = k.

End Instances.

End Instances.

(** The pawn of [pawnOnSeventh] promotes: a7-a8=Q, and the board after
    the move. *)
Definition a7a8Q : ChessJs.Move :=
  ChessJs.mkMove White (1, 0) (0, 0) Pawn None (Some Queen) ChessJs.NORMAL.

Definition pawnPromoted : Board :=
  ChessJs.setPiece (ChessJs.setPiece pawnOnSeventh (1, 0) None)
    (0, 0) (Some (mkPiece Queen White)).

(** Instances, with a number for their texts, for the three pieces of
    [pawnOnSeventh]. *)
Definition threeInstances : Instances.PieceInstances (Info := Z) :=
  Instances.set (1, 0) (Instances.Instance (Instances.mkPieceInstance 1 Pawn White (1, 0)))
    (Instances.set (7, 4)
       (Instances.Instance (Instances.mkPieceInstance 2 King White (7, 4)))
       (Instances.set (0, 4)
          (Instances.Instance (Instances.mkPieceInstance 3 King Black (0, 4)))
          (fun _ => Instances.Undefined))).

(* ===================================================================== *)
(** * The saved description of a piece
      ([src/hooks/useChessGame.ts], [src/hooks/useGameData.ts])

    [saveGameData] writes the voice prompt and the description of a piece
    as one text; [initializeGame] splits the text it loads at the first
    period.  A string is the list of its UTF-16 code units. *)

Module Str.

(** [s.indexOf(c)] for a one-character [c]: the first index of [c] at or
    after the position [i] of the head of [s], or -1. *)
Fixpoint indexOfFrom (c : Z) (s : list Z) (i : Z) : Z :=
  match s with
  | [] => -1
  | x :: rest => if x =? c then i else indexOfFrom c rest (i + 1)
  end.

Definition indexOf (s : list Z) (c : Z) : Z := indexOfFrom c s 0.

(** [s.substring(start, end)]: both indices are brought into
    [0 .. length] and exchanged if they come in the wrong order. *)
Definition substring (s : list Z) (start end_ : Z) : list Z :=
  let len := Z.of_nat (length s) in
  let finalStart := Z.min (Z.max start 0) len in
  let finalEnd := Z.min (Z.max end_ 0) len in
  let from := Z.min finalStart finalEnd in
  let to := Z.max finalStart finalEnd in
  firstn (Z.to_nat (to - from)) (skipn (Z.to_nat from) s).

(** [s.substring(start)] *)
Definition substringFrom (s : list Z) (start : Z) : list Z :=
  substring s start (Z.of_nat (length s)).

(** The white space and the line terminators that [trim] removes. *)
Definition isWhiteSpace (c : Z) : bool :=
  existsb (Z.eqb c)
    [9; 10; 11; 12; 13; 32; 160; 5760; 8232; 8233; 8239; 8287; 12288; 65279]
  || ((8192 <=? c) && (c <=? 8202)).

Fixpoint trimStart (s : list Z) : list Z :=
  match s with
  | [] => []
  | c :: rest => if isWhiteSpace c then trimStart rest else s
  end.

Definition trimEnd (s : list Z) : list Z := rev (trimStart (rev s)).

Definition trim (s : list Z) : list Z := trimEnd (trimStart s).

(** ['.'] and [' '] *)
Definition period : Z := 46.
Definition space : Z := 32.

End Str.

(** [initializeGame]: the voice prompt and the description of a loaded
    piece; [description] is [pieceData.description], [None] when it is
    [undefined] (the empty text stands for both after [|| '']). *)
Definition splitDescription (description : option (list Z))
    : list Z * list Z :=
  let fullDesc := match description with
                  | Some text => text
                  | None => []
                  end in
  let sentenceEndIndex := Str.indexOf fullDesc Str.period in
  if negb (sentenceEndIndex =? -1) then
    (Str.substring fullDesc 0 (sentenceEndIndex + 1),
     Str.trim (Str.substringFrom fullDesc (sentenceEndIndex + 2)))
  else ([], fullDesc).

(** [saveGameData]: the text saved as the description of a piece,
    [`${voicePrompt} ${description}`]. *)
Definition savedDescription (voicePrompt description : list Z) : list Z :=
  voicePrompt ++ [Str.space] ++ description.

(* ===================================================================== *)
(** * Audio samples
      ([AudioStreamer] in [src/lib/ai.ts],
       [src/lib/worklets/audio-processing.ts])

    The samples are floating-point numbers.  A finite one is [m * 2^e]
    for two integers: every float and every double has that form, and
    the operations the two programs apply to a sample (the quotient of a
    16-bit integer by 32768, the product of a float by 32768, a comparison
    with an integer, the truncation to an integer) are exact on them. *)

Module Audio.

Inductive float : Type :=
| NaN
| NegInfinity
| Finite (m e : Z)
| Infinity.

(** [x < k] and [x > k] for an integer [k]; false for [NaN]. *)
Definition ltZ (x : float) (k : Z) : bool :=
  match x with
  | NaN | Infinity => false
  | NegInfinity => true
  | Finite m e => if 0 <=? e then m * 2 ^ e <? k else m <? k * 2 ^ (- e)
  end.

Definition gtZ (x : float) (k : Z) : bool :=
  match x with
  | NaN | NegInfinity => false
  | Infinity => true
  | Finite m e => if 0 <=? e then k <? m * 2 ^ e else k * 2 ^ (- e) <? m
  end.

(** [Math.min(k, x)] and [Math.max(k, x)] for an integer [k]. *)
Definition min (k : Z) (x : float) : float :=
  match x with
  | NaN => NaN
  | _ => if ltZ x k then x else Finite k 0
  end.

Definition max (k : Z) (x : float) : float :=
  match x with
  | NaN => NaN
  | _ => if gtZ x k then x else Finite k 0
  end.

(** [x * 32768] *)
Definition times32768 (x : float) : float :=
  match x with
  | Finite m e => Finite m (e + 15)
  | _ => x
  end.

(** [n / 32768.0] for an integer [n]. *)
Definition over32768 (n : Z) : float := Finite n (-15).

(** The integer part of a finite number, towards zero. *)
Definition truncate (m e : Z) : Z :=
  if 0 <=? e then m * 2 ^ e else Z.quot m (2 ^ (- e)).

(** The conversion of a number stored in an [Int16Array]: [NaN] and the
    infinities give 0, a finite number is truncated and wrapped to 16
    bits. *)
Definition toInt16 (x : float) : Z :=
  match x with
  | Finite m e =>
      let int16bit := (truncate m e) mod 65536 in
      if 32768 <=? int16bit then int16bit - 65536 else int16bit
  | _ => 0
  end.

(** *** The recording worklet *)

(** [buffer] is the [Int16Array(2048)], [posted] the chunks sent through
    the port, the oldest first. *)
Record AudioProcessingWorklet : Type := mkWorklet {
  buffer : list Z;
  bufferWriteIndex : nat;
  posted : list (list Z)
}.

(** The processor as constructed. *)
Definition newWorklet : AudioProcessingWorklet :=
  mkWorklet (repeat 0 2048) 0 [].

Definition sendAndClearBuffer (w : AudioProcessingWorklet)
    : AudioProcessingWorklet :=
  if (0 <? bufferWriteIndex w)%nat then
    mkWorklet (buffer w) 0
      (posted w ++ [firstn (bufferWriteIndex w) (buffer w)])
  else w.

(** The value [processChunk] stores for a sample. *)
Definition int16Value (x : float) : Z :=
  toInt16 (max (-32768) (min 32767 (times32768 x))).

(** One turn of the loop of [processChunk]; a write past the end of a
    typed array is ignored. *)
Definition processSample (w : AudioProcessingWorklet) (x : float)
    : AudioProcessingWorklet :=
  let w1 := mkWorklet (Array.set (bufferWriteIndex w) (int16Value x) (buffer w))
              (S (bufferWriteIndex w)) (posted w) in
  if (length (buffer w1) <=? bufferWriteIndex w1)%nat
  then sendAndClearBuffer w1
  else w1.

Definition processChunk (w : AudioProcessingWorklet) (float32Array : list float)
    : AudioProcessingWorklet :=
  fold_left processSample float32Array w.

(** [process(inputs)]: [input] is [inputs[0]?.[0]], [None] when there is
    no such channel. *)
Definition process (w : AudioProcessingWorklet) (input : option (list float))
    : AudioProcessingWorklet :=
  match input with
  | Some float32Array => processChunk w float32Array
  | None => w
  end.

(** The samples written and not yet sent. *)
Definition pending (w : AudioProcessingWorklet) : list Z :=
  firstn (bufferWriteIndex w) (buffer w).

(** *** [AudioStreamer.decodeAndBuffer] *)

(** A [Uint8Array]: a window of [length] bytes, from [byteOffset] on, of
    the bytes of its [buffer].  [decodeAndBuffer] reads through a
    [DataView] of the whole buffer, from the byte 0. *)
Record Uint8Array : Type := mkUint8Array {
  u8_buffer : list Z;
  u8_byteOffset : nat;
  u8_length : nat
}.

Inductive Error : Type := NotSupportedError | RangeError.

(** [dataView.getInt16(byteOffset, true)] on a view of the whole buffer:
    two bytes, the low one first, as a signed number; [None] is the
    [RangeError] for a read past the end. *)
Definition getInt16 (buffer : list Z) (byteOffset : nat) : option Z :=
  match nth_error buffer byteOffset, nth_error buffer (S byteOffset) with
  | Some low, Some high =>
      let unsigned := low + 256 * high in
      Some (if 32768 <=? unsigned then unsigned - 65536 else unsigned)
  | _, _ => None
  end.

(** The loop of [decodeAndBuffer] from the index [i], for [turns] more
    turns, on the [channelData] of the new buffer. *)
Fixpoint decodeLoop (buffer : list Z) (turns i : nat) (channelData : list float)
    : Error + list float :=
  match turns with
  | O => inr channelData
  | S turns' =>
      match getInt16 buffer (i * 2) with
      | None => inl RangeError
      | Some int16 =>
          decodeLoop buffer turns' (S i)
            (Array.set i (over32768 int16) channelData)
      end
  end.

(** [decodeAndBuffer]: the samples of the [AudioBuffer] returned, or the
    error thrown.  [frameCount] is [length / 2], a half-integer for an odd
    length: [createBuffer] takes its integer part, and refuses 0, and the
    loop runs while [i < frameCount]. *)
Definition decodeAndBuffer (pcm16Data : Uint8Array) : Error + list float :=
  let frames := Nat.div (u8_length pcm16Data) 2 in
  let turns := Nat.div (u8_length pcm16Data + 1) 2 in
  if (frames =? 0)%nat then inl NotSupportedError
  else decodeLoop (u8_buffer pcm16Data) turns 0 (repeat (Finite 0 0) frames).

(** The two bytes of a 16-bit sample, the low one first. *)
Definition int16Bytes (n : Z) : list Z := [n mod 256; (n / 256) mod 256].

(** A [Uint8Array] over a buffer of its own that holds the samples
    [pcm]. *)
Definition pcm16 (pcm : list Z) : Uint8Array :=
  mkUint8Array (flat_map int16Bytes pcm) 0 (2 * length pcm).

End Audio.

(* ===================================================================== *)
(** * The colour of a square ([getSquareColor], [src/lib/constants.ts])

    The name of a square is a string, the list of its code units; a
    number is [None] when it is [NaN]. *)

Inductive SquareColor : Type := light | dark.

(** [parseInt(c, 10)] for [c] one character of a string, or
    [undefined]: the value of a digit, and [NaN] for anything else. *)
Definition parseIntChar (c : option Z) : option Z :=
  match c with
  | Some code => if (48 <=? code) && (code <=? 57) then Some (code - 48) else None
  | None => None
  end.

Definition getSquareColor (square : list Z) : SquareColor :=
  let file := option_map (fun code => code - 97) (nth_error square 0) in
  let rank := option_map (fun n => n - 1) (parseIntChar (nth_error square 1)) in
  match file, rank with
  | Some file, Some rank => if Z.rem (file + rank) 2 =? 0 then dark else light
  | _, _ => light
  end.

(** The name of the square of the file [file] and the rank [rank], both
    counted from 0: ['a' + file] and ['1' + rank]. *)
Definition squareName (file rank : Z) : list Z := [97 + file; 49 + rank].

(** The board seen in a mirror that exchanges the files a and h, b and g,
    and so on: every row is reversed. *)
Definition fileMirror (board : Board) : Board := map (@rev (option Piece)) board.

(** No queen stands on the board. *)
Definition noQueen (board : Board) : Prop :=
  forall row col piece, squareAt board row col = Some piece -> type piece <> Queen.

(** A white queen alone on a4, and alone on h4. *)
Definition queenOn (col : nat) : Board :=
  Array.set 4 (Array.set col (Some (mkPiece Queen White)) ChessJs.emptyRank)
    (repeat ChessJs.emptyRank 8).

(* ===================================================================== *)
(** * The embedding on concrete inputs *)

Example sub_of_equal_infinities : Num.sub Infinity Infinity = NaN.
Proof. reflexivity. Qed.

Example sort_numbers :
  Array.sort Num.sub [Int 3; Int 1; Infinity; Int 2; NegInfinity]
  = [NegInfinity; Int 1; Int 2; Int 3; Infinity].
Proof. reflexivity. Qed.

(** Equal keys keep their order. *)
Example sort_is_stable :
  Array.sort (fun x y => Num.sub (Int (fst x)) (Int (fst y)))
    [(2, 10); (1, 20); (2, 30); (1, 40)]
  = [(1, 20); (1, 40); (2, 10); (2, 30)].
Proof. reflexivity. Qed.

Example slice_examples :
  Array.slice0 [1; 2; 3] 2 = [1; 2]
  /\ Array.slice0 [1; 2; 3] 7 = [1; 2; 3]
  /\ Array.slice0 [1; 2; 3] 0 = []
  /\ Array.slice0 [1; 2; 3] (-1) = [1; 2].
Proof. split; [|split; [|split]]; reflexivity. Qed.

Example evaluate_start : evaluateBoard ChessJs.start = Int 0.
Proof. vm_compute. reflexivity. Qed.

(** The move generator gives the published numbers of move paths. *)
Example perft_start :
  ChessJs.perft 1 ChessJs.DEFAULT_POSITION = 20
  /\ ChessJs.perft 2 ChessJs.DEFAULT_POSITION = 400
  /\ ChessJs.perft 3 ChessJs.DEFAULT_POSITION = 8902.
Proof. split; [|split]; vm_compute; reflexivity. Qed.

Example perft_kiwipete :
  ChessJs.perft 1 kiwipete = 48 /\ ChessJs.perft 2 kiwipete = 2039.
Proof. split; vm_compute; reflexivity. Qed.

(** The capture comes first at the root and is the best move at depth 1
    and at depth 2; at depth 1 the evaluation is that of two kings and a
    white pawn on d5. *)
Example free_queen_is_taken :
  moves freeQueen <> []
  /\ nth_error (Array.sort rootCapturesFirst (moves freeQueen)) 0 = Some e4xd5
  /\ findBestMove (E := chessJs) 1 freeQueen 1
     = Some (mkBestMove (Some e4xd5) (Int 125))
  /\ findBestMove (E := chessJs) 2 freeQueen 2
     = Some (mkBestMove (Some e4xd5) (Int 115)).
Proof. split; [|split; [|split]]; vm_compute; congruence. Qed.

(* ===================================================================== *)
(** * Facts about numbers *)

(** Case analysis on every number in sight, then linear arithmetic. *)
Ltac num_cases :=
  repeat match goal with
         | x : number |- _ => destruct x
         end;
  cbn in *;
  try discriminate; try congruence; try tauto.

Ltac z_bool :=
  repeat match goal with
         | H : (_ <=? _) = true |- _ => apply Z.leb_le in H
         | H : (_ <=? _) = false |- _ => apply Z.leb_gt in H
         | H : (_ <? _) = true |- _ => apply Z.ltb_lt in H
         | H : (_ <? _) = false |- _ => apply Z.ltb_ge in H
         | H : (_ =? _) = true |- _ => apply Z.eqb_eq in H
         | H : (_ =? _) = false |- _ => apply Z.eqb_neq in H
         | H : Int _ = Int _ |- _ => injection H as H
         | |- (_ <=? _) = true => apply Z.leb_le
         | |- (_ <=? _) = false => apply Z.leb_gt
         | |- (_ <? _) = true => apply Z.ltb_lt
         | |- (_ <? _) = false => apply Z.ltb_ge
         | |- (_ =? _) = true => apply Z.eqb_eq
         | |- (_ =? _) = false => apply Z.eqb_neq
         | |- Int _ = Int _ => f_equal
         end.

Ltac num_crush := intros; num_cases; z_bool; try lia.

Lemma max_comm (x y : number) : Num.max x y = Num.max y x.
Proof. num_crush. Qed.

Lemma max_assoc (x y z : number) :
  Num.max (Num.max x y) z = Num.max x (Num.max y z).
Proof. num_crush. Qed.

Lemma min_comm (x y : number) : Num.min x y = Num.min y x.
Proof. num_crush. Qed.

Lemma min_assoc (x y z : number) :
  Num.min (Num.min x y) z = Num.min x (Num.min y z).
Proof. num_crush. Qed.

Lemma max_not_nan (x y : number) :
  Num.isNaN x = false -> Num.isNaN y = false -> Num.isNaN (Num.max x y) = false.
Proof. num_crush. Qed.

Lemma min_not_nan (x y : number) :
  Num.isNaN x = false -> Num.isNaN y = false -> Num.isNaN (Num.min x y) = false.
Proof. num_crush. Qed.

Lemma Num_eqb_eq (x y : number) : Num_eqb x y = true <-> x = y.
Proof. split; num_crush. Qed.

Lemma leb_refl (x : number) : Num.isNaN x = false -> Num.leb x x = true.
Proof. num_crush. Qed.

Lemma leb_trans (x y z : number) :
  Num.leb x y = true -> Num.leb y z = true -> Num.leb x z = true.
Proof. num_crush. Qed.

(** The value searched with the full window is the exact one. *)
Lemma within_full_window (exact v : number) :
  Num.isNaN exact = false -> within NegInfinity Infinity exact v -> v = exact.
Proof.
  unfold within. intros Hn (Hv & H1 & H2 & H3).
  destruct exact; try discriminate.
  - destruct (H1 eq_refl) as [_ H]. destruct v; cbn in *; congruence.
  - apply H2; reflexivity.
  - destruct (H3 eq_refl) as [H _]. destruct v; cbn in *; congruence.
Qed.

Lemma within_exact (alpha beta exact : number) :
  Num.isNaN exact = false -> within alpha beta exact exact.
Proof.
  unfold within. intros Hn. repeat split; auto using leb_refl.
Qed.

(** ** The steps of the maximizing loop *)

Lemma maxInv_done (a0 beta maxEval done : number) :
  maxInv a0 beta maxEval done -> within a0 beta done maxEval.
Proof.
  unfold maxInv, within. intros (H1 & H2 & H3 & H4 & H5 & H6 & H7).
  repeat split; intros.
  - assumption.
  - assumption.
  - destruct (Num.ltb a0 maxEval) eqn:Hlt.
    + rewrite <- (H7 eq_refl). assumption.
    + clear H7. revert H H1 H2 H3 H5 Hlt. clear. num_crush.
  - destruct (Num.ltb a0 maxEval) eqn:Hlt.
    + symmetry; auto.
    + clear H7. revert H H0 H1 H2 H3 H4 H5 H6 Hlt. clear. num_crush.
  - clear H7. revert H H1 H2 H3 H4 H5 H6. clear. num_crush.
  - clear H7. revert H H1 H2 H3 H4 H5 H6. clear. num_crush.
Qed.

(** A cutoff: the value just returned reaches [beta]. *)
Lemma maxInv_cut (a0 beta maxEval done exact v total : number) :
  Num.isNaN exact = false ->
  maxInv a0 beta maxEval done ->
  within (Num.max a0 maxEval) beta exact v ->
  Num.leb beta (Num.max (Num.max a0 maxEval) v) = true ->
  Num.leb (Num.max done exact) total = true ->
  within a0 beta total (Num.max maxEval v).
Proof.
  unfold maxInv, within.
  intros exact_ok (H1 & H2 & H3 & H4 & H5 & H6 & _) (W0 & W1 & W2 & W3) Hcut Ht.
  assert (Hbe : Num.leb beta exact = true).
  { destruct (Num.leb exact (Num.max a0 maxEval)) eqn:Hle.
    - destruct (W1 eq_refl) as [_ Hv].
      revert Hv Hcut H5 H1 H2 H3 W0. clear. num_crush.
    - destruct (Num.ltb exact beta) eqn:Hlt.
      + assert (v = exact).
        { apply W2; auto. revert Hle H1 H3 exact_ok. clear. num_crush. }
        subst v. revert Hlt Hcut H5 H1 H2 H3 W0. clear. num_crush.
      + revert Hlt H2 exact_ok. clear. num_crush. }
  destruct (W3 Hbe) as [Hbv Hve]. clear W1 W2 W3.
  assert (Hm : Num.max maxEval v = v).
  { revert Hbv H5 H1 H2 H3 W0. clear. num_crush. }
  rewrite Hm.
  assert (Hvt : Num.leb v total = true).
  { revert Hve Ht H4 exact_ok W0. clear. num_crush. }
  repeat split; intros; auto.
  - exfalso. revert H Hvt Hbv H5 H1 H2 H3 W0. clear. num_crush.
  - exfalso. revert H Hvt Hbv H5 H1 H2 H3 W0. clear. num_crush.
  - exfalso. revert H0 Hvt Hbv H1 H2 W0. clear. num_crush.
Qed.

(** No cutoff: the invariant holds for the next move. *)
Lemma maxInv_step (a0 beta maxEval done exact v : number) :
  Num.isNaN exact = false ->
  maxInv a0 beta maxEval done ->
  within (Num.max a0 maxEval) beta exact v ->
  Num.leb beta (Num.max (Num.max a0 maxEval) v) = false ->
  maxInv a0 beta (Num.max maxEval v) (Num.max done exact).
Proof.
  unfold maxInv, within.
  intros exact_ok (H1 & H2 & H3 & H4 & H5 & H6 & H7) (W0 & W1 & W2 & W3) Hcut.
  assert (Hvb : Num.ltb v beta = true).
  { revert Hcut H1 H2 H3 W0. clear. num_crush. }
  assert (Heb : Num.ltb exact beta = true).
  { destruct (Num.leb beta exact) eqn:Hbe.
    - destruct (W3 eq_refl) as [Hbv _]. revert Hbv Hvb. clear. num_crush.
    - revert Hbe H2 exact_ok. clear. num_crush. }
  assert (Hev : Num.leb exact v = true).
  { destruct (Num.leb exact (Num.max a0 maxEval)) eqn:Hle.
    - apply W1; reflexivity.
    - rewrite W2; auto using leb_refl.
      revert Hle H1 H3 exact_ok. clear. num_crush. }
  repeat split.
  - assumption.
  - assumption.
  - auto using max_not_nan.
  - auto using max_not_nan.
  - revert Hcut H1 H2 H3 W0. clear. num_crush.
  - revert H6 Hev H3 H4 W0 exact_ok. clear. num_crush.
  - intros Hlt.
    destruct (Num.leb v maxEval) eqn:Hvm.
    + assert (Ha : Num.ltb a0 maxEval = true).
      { revert Hlt Hvm H1 H3 W0. clear. num_crush. }
      rewrite (H7 Ha).
      revert Hev Hvm H3 W0 exact_ok. clear. num_crush.
    + assert (Hx : v = exact).
      { destruct (Num.leb exact (Num.max a0 maxEval)) eqn:Hle.
        - destruct (W1 eq_refl) as [_ Hva]. exfalso.
          revert Hva Hlt Hvm H1 H3 W0. clear. num_crush.
        - apply W2; auto.
          revert Hle H1 H3 exact_ok. clear. num_crush. }
      subst v. revert H6 Hvm H3 H4 exact_ok. clear. num_crush.
Qed.

Lemma maxInv_init (alpha beta : number) :
  Num.isNaN alpha = false -> Num.isNaN beta = false ->
  Num.ltb alpha beta = true ->
  maxInv alpha beta NegInfinity NegInfinity /\ Num.max alpha NegInfinity = alpha.
Proof.
  unfold maxInv. intros. repeat split; auto; revert H H0 H1; clear; num_crush.
Qed.

(** ** The steps of the minimizing loop *)

Lemma minInv_done (alpha b0 minEval done : number) :
  minInv alpha b0 minEval done -> within alpha b0 done minEval.
Proof.
  unfold minInv, within. intros (H1 & H2 & H3 & H4 & H5 & H6 & H7).
  repeat split; intros.
  - assumption.
  - revert H H1 H2 H3 H4 H5 H6. clear. num_crush.
  - revert H H1 H2 H3 H4 H5 H6. clear. num_crush.
  - destruct (Num.ltb minEval b0) eqn:Hlt.
    + symmetry; auto.
    + clear H7. revert H H0 H1 H2 H3 H4 H5 H6 Hlt. clear. num_crush.
  - destruct (Num.ltb minEval b0) eqn:Hlt.
    + rewrite <- (H7 eq_refl). assumption.
    + clear H7. revert H H1 H2 H3 H5 Hlt. clear. num_crush.
  - assumption.
Qed.

Lemma minInv_cut (alpha b0 minEval done exact v total : number) :
  Num.isNaN exact = false ->
  minInv alpha b0 minEval done ->
  within alpha (Num.min b0 minEval) exact v ->
  Num.leb (Num.min (Num.min b0 minEval) v) alpha = true ->
  Num.leb total (Num.min done exact) = true ->
  within alpha b0 total (Num.min minEval v).
Proof.
  unfold minInv, within.
  intros exact_ok (H1 & H2 & H3 & H4 & H5 & H6 & _) (W0 & W1 & W2 & W3) Hcut Ht.
  assert (Hea : Num.leb exact alpha = true).
  { destruct (Num.leb (Num.min b0 minEval) exact) eqn:Hle.
    - destruct (W3 eq_refl) as [Hv _].
      revert Hv Hcut H5 H1 H2 H3 W0. clear. num_crush.
    - destruct (Num.ltb alpha exact) eqn:Hlt.
      + assert (v = exact).
        { apply W2; auto. revert Hle H2 H3 exact_ok. clear. num_crush. }
        subst v. revert Hlt Hcut H5 H1 H2 H3 W0. clear. num_crush.
      + revert Hlt H1 exact_ok. clear. num_crush. }
  destruct (W1 Hea) as [Hev Hva]. clear W1 W2 W3.
  assert (Hm : Num.min minEval v = v).
  { revert Hva H5 H1 H2 H3 W0. clear. num_crush. }
  rewrite Hm.
  assert (Htv : Num.leb total v = true).
  { revert Hev Ht H4 exact_ok W0. clear. num_crush. }
  repeat split; intros; auto.
  - exfalso. revert H Htv Hva H1 H2 W0. clear. num_crush.
  - exfalso. revert H Htv Hva H5 H1 H2 H3 W0. clear. num_crush.
  - exfalso. revert H Htv Hva H5 H1 H2 H3 W0. clear. num_crush.
Qed.

Lemma minInv_step (alpha b0 minEval done exact v : number) :
  Num.isNaN exact = false ->
  minInv alpha b0 minEval done ->
  within alpha (Num.min b0 minEval) exact v ->
  Num.leb (Num.min (Num.min b0 minEval) v) alpha = false ->
  minInv alpha b0 (Num.min minEval v) (Num.min done exact).
Proof.
  unfold minInv, within.
  intros exact_ok (H1 & H2 & H3 & H4 & H5 & H6 & H7) (W0 & W1 & W2 & W3) Hcut.
  assert (Hav : Num.ltb alpha v = true).
  { revert Hcut H1 H2 H3 W0. clear. num_crush. }
  assert (Hae : Num.ltb alpha exact = true).
  { destruct (Num.leb exact alpha) eqn:Hbe.
    - destruct (W1 eq_refl) as [_ Hva]. revert Hva Hav. clear. num_crush.
    - revert Hbe H1 exact_ok. clear. num_crush. }
  assert (Hve : Num.leb v exact = true).
  { destruct (Num.leb (Num.min b0 minEval) exact) eqn:Hle.
    - apply W3; reflexivity.
    - rewrite W2; auto using leb_refl.
      revert Hle H2 H3 exact_ok. clear. num_crush. }
  repeat split.
  - assumption.
  - assumption.
  - auto using min_not_nan.
  - auto using min_not_nan.
  - revert Hcut H1 H2 H3 W0. clear. num_crush.
  - revert H6 Hve H3 H4 W0 exact_ok. clear. num_crush.
  - intros Hlt.
    destruct (Num.leb minEval v) eqn:Hvm.
    + assert (Ha : Num.ltb minEval b0 = true).
      { revert Hlt Hvm H2 H3 W0. clear. num_crush. }
      rewrite (H7 Ha).
      revert Hve Hvm H3 W0 exact_ok. clear. num_crush.
    + assert (Hx : v = exact).
      { destruct (Num.leb (Num.min b0 minEval) exact) eqn:Hle.
        - destruct (W3 eq_refl) as [Hbv _]. exfalso.
          revert Hbv Hlt Hvm H2 H3 W0. clear. num_crush.
        - apply W2; auto.
          revert Hle H2 H3 exact_ok. clear. num_crush. }
      subst v. revert H6 Hvm H3 H4 exact_ok. clear. num_crush.
Qed.

Lemma minInv_init (alpha beta : number) :
  Num.isNaN alpha = false -> Num.isNaN beta = false ->
  Num.ltb alpha beta = true ->
  minInv alpha beta Infinity Infinity /\ Num.min beta Infinity = beta.
Proof.
  unfold minInv. intros. repeat split; auto; revert H H0 H1; clear; num_crush.
Qed.

(* ===================================================================== *)
(** * Facts about [Array.sort] *)

Lemma filter_none {A : Type} (f : A -> bool) (l : list A) :
  (forall z, In z l -> f z = false) -> filter f l = [].
Proof.
  induction l as [|y l IH]; intros H; cbn; [reflexivity|].
  rewrite (H y (or_introl eq_refl)). apply IH. intros z Hz. apply H. right. exact Hz.
Qed.

Section SortFacts.
Context {A : Type} (comparefn : A -> A -> number).

Let ins := fun sorted x => Array.insert comparefn x sorted.

Lemma insert_perm (x : A) (s : list A) :
  Permutation (Array.insert comparefn x s) (x :: s).
Proof.
  induction s as [|y s IH]; cbn.
  - apply Permutation_refl.
  - destruct (Num.ltb (comparefn x y) (Int 0)).
    + apply Permutation_refl.
    + eapply Permutation_trans; [apply perm_skip, IH | apply perm_swap].
Qed.

Lemma sort_from_perm (l acc : list A) :
  Permutation (fold_left ins l acc) (acc ++ l).
Proof.
  revert acc. induction l as [|x l IH]; intros acc; cbn.
  - rewrite app_nil_r. apply Permutation_refl.
  - eapply Permutation_trans; [apply IH|].
    unfold ins at 1.
    eapply Permutation_trans;
      [apply Permutation_app_tail, insert_perm|].
    cbn. apply Permutation_middle.
Qed.

Lemma sort_perm (l : list A) : Permutation (Array.sort comparefn l) l.
Proof. exact (sort_from_perm l []). Qed.

Lemma sort_nil_iff (l : list A) : Array.sort comparefn l = [] <-> l = [].
Proof.
  split; intros H.
  - apply Permutation_nil. rewrite <- H. apply sort_perm.
  - subst. reflexivity.
Qed.

(** ** Sorting by a rank

    When the sign of the comparator agrees with the order of a rank,
    the result is sorted by rank and elements of equal rank keep their
    order. *)
Variable rank : A -> number.

Let good := fun x => Num.isNaN (rank x) = false.
Let le := fun x y => Num.leb (rank x) (rank y) = true.
Let has := fun (v : number) (x : A) => Num_eqb (rank x) v.

Hypothesis sign_is_rank :
  forall x y, good x -> good y ->
  Num.ltb (comparefn x y) (Int 0) = Num.ltb (rank x) (rank y).

Lemma insert_good (x : A) (s : list A) :
  good x -> Forall good s -> Forall good (Array.insert comparefn x s).
Proof.
  intros Hx Hs. eapply Permutation_Forall.
  - apply Permutation_sym, insert_perm.
  - constructor; assumption.
Qed.

Lemma insert_sorted (x : A) (s : list A) :
  good x -> Forall good s -> StronglySorted le s ->
  StronglySorted le (Array.insert comparefn x s).
Proof.
  intros Hx Hg Hs. induction Hs as [|y s Hs IH Hy]; cbn.
  - repeat constructor.
  - inversion Hg as [|? ? Hgy Hgs]; subst.
    rewrite (sign_is_rank x y Hx Hgy).
    destruct (Num.ltb (rank x) (rank y)) eqn:Hlt.
    + constructor; [constructor; assumption|].
      constructor.
      * unfold le. revert Hlt. clear. generalize (rank x), (rank y). num_crush.
      * rewrite Forall_forall in Hy |- *. intros z Hz.
        specialize (Hy z Hz). unfold le in *.
        revert Hlt Hy. clear. generalize (rank x), (rank y), (rank z). num_crush.
    + constructor; [apply IH; assumption|].
      eapply Permutation_Forall; [apply Permutation_sym, insert_perm|].
      constructor; [|assumption].
      unfold le, good in *.
      revert Hlt Hx Hgy. clear. generalize (rank x), (rank y). num_crush.
Qed.

Lemma insert_filter (v : number) (x : A) (s : list A) :
  good x -> Forall good s -> StronglySorted le s ->
  filter (has v) (Array.insert comparefn x s)
  = filter (has v) s ++ filter (has v) [x].
Proof.
  intros Hx Hg Hs. induction Hs as [|y s Hs IH Hy]; cbn.
  - reflexivity.
  - inversion Hg as [|? ? Hgy Hgs]; subst.
    rewrite (sign_is_rank x y Hx Hgy).
    destruct (Num.ltb (rank x) (rank y)) eqn:Hlt.
    + cbn. destruct (has v x) eqn:Hvx.
      * (* nothing of rank [v] from [y] on *)
        assert (Hnone : filter (has v) (y :: s) = []).
        { apply filter_none. intros z Hz.
          assert (Hyz : Num.ltb (rank x) (rank z) = true).
          { destruct Hz as [->|Hz]; [assumption|].
            rewrite Forall_forall in Hy. specialize (Hy z Hz).
            unfold le in Hy. revert Hlt Hy. clear.
            generalize (rank x), (rank y), (rank z). num_crush. }
          unfold has in *. apply Num_eqb_eq in Hvx. subst v.
          revert Hyz. clear. generalize (rank x), (rank z).
          intros a c H. destruct (Num_eqb c a) eqn:E; [|reflexivity].
          apply Num_eqb_eq in E. subst. revert H. clear. num_crush. }
        cbn in Hnone. rewrite Hnone. reflexivity.
      * rewrite app_nil_r. reflexivity.
    + cbn. destruct (has v y); cbn; rewrite IH by assumption; reflexivity.
Qed.

Lemma sort_from_sorted (l acc : list A) :
  Forall good l -> Forall good acc -> StronglySorted le acc ->
  StronglySorted le (fold_left ins l acc)
  /\ forall v, filter (has v) (fold_left ins l acc)
  = filter (has v) acc ++ filter (has v) l.
Proof.
  revert acc. induction l as [|x l IH]; intros acc Hl Ha Hs; cbn.
  - split; [assumption|]. intros v. rewrite app_nil_r. reflexivity.
  - inversion Hl as [|? ? Hx Hl']; subst.
    destruct (IH (ins acc x) Hl' (insert_good x acc Hx Ha)
      (insert_sorted x acc Hx Ha Hs)) as [H1 H2].
    split; [assumption|]. intros v. rewrite H2. unfold ins at 1.
    rewrite insert_filter by assumption.
    rewrite <- app_assoc. cbn. destruct (has v x); reflexivity.
Qed.

Lemma sort_sorted (l : list A) :
  Forall good l -> StronglySorted le (Array.sort comparefn l).
Proof.
  intros Hl. apply (sort_from_sorted l []); auto. constructor.
Qed.

Lemma sort_stable (l : list A) (v : number) :
  Forall good l ->
  filter (has v) (Array.sort comparefn l) = filter (has v) l.
Proof.
  intros Hl. apply (sort_from_sorted l []); auto. constructor.
Qed.

End SortFacts.

(* ===================================================================== *)
(** * Facts about the evaluator *)

Lemma at2_PSTS_bound (t : PieceSymbol) (row col : nat) :
  -50 <= at2 (PSTS t) row col <= 50.
Proof.
  unfold at2.
  destruct t; cbn [PSTS];
    do 8 (destruct row as [|row]; [do 8 (destruct col as [|col]; [cbn; lia|]);
                                   cbn; destruct col; lia|]);
    cbn; destruct row; destruct col; cbn; lia.
Qed.

Lemma PIECE_VALUES_bound (t : PieceSymbol) : 100 <= PIECE_VALUES t <= 20000.
Proof. destruct t; cbn; lia. Qed.

Lemma evaluateSquare_contribution (board : Board) (total : Z) (row col : nat) :
  evaluateSquare board total row col = total + contribution board row col.
Proof.
  unfold contribution, evaluateSquare.
  destruct (squareAt board row col) as [pc|]; [|lia].
  destruct (Color_eqb (color pc) White); lia.
Qed.

Lemma contribution_bound (board : Board) (row col : nat) :
  -20050 <= contribution board row col <= 20050.
Proof.
  unfold contribution, evaluateSquare.
  destruct (squareAt board row col) as [pc|]; [|lia].
  pose proof (PIECE_VALUES_bound (type pc)).
  pose proof (at2_PSTS_bound (type pc) row col).
  pose proof (at2_PSTS_bound (type pc) (7 - row) col).
  destruct (Color_eqb (color pc) White); lia.
Qed.

(** The running total after any number of squares. *)
Lemma evaluateFrom_bound (board : Board) (sqs : list (nat * nat)) (total : Z) :
  total - 20050 * Z.of_nat (length sqs)
  <= evaluateFrom board total sqs
  <= total + 20050 * Z.of_nat (length sqs).
Proof.
  unfold evaluateFrom. revert total.
  induction sqs as [|sq sqs IH]; intros total; cbn [fold_left length].
  - lia.
  - specialize (IH (evaluateSquare board total (fst sq) (snd sq))).
    rewrite evaluateSquare_contribution in *.
    pose proof (contribution_bound board (fst sq) (snd sq)).
    lia.
Qed.

Lemma evaluateBoardArray_bound (board : Board) :
  -1283200 <= evaluateBoardArray board <= 1283200.
Proof.
  unfold evaluateBoardArray.
  pose proof (evaluateFrom_bound board squares 0) as H.
  change (length squares) with 64%nat in H. lia.
Qed.

(** ** The mirrored colour flip *)

Lemma squareAt_mirrorFlip (board : Board) (row col : nat) :
  length board = 8%nat -> (row < 8)%nat ->
  squareAt (mirrorFlip board) row col
  = option_map flipPiece (squareAt board (7 - row) col).
Proof.
  intros Hlen Hrow. unfold squareAt, mirrorFlip, colorFlip.
  rewrite rev_nth by (rewrite length_map; lia).
  rewrite length_map, Hlen.
  replace (8 - S row)%nat with (7 - row)%nat by lia.
  change (@nil (option Piece)) with (map (option_map flipPiece) []) at 1.
  rewrite map_nth.
  change (@None Piece) with (option_map flipPiece None) at 1.
  rewrite map_nth. reflexivity.
Qed.

Lemma contribution_mirrorFlip (board : Board) (row col : nat) :
  length board = 8%nat -> (row < 8)%nat ->
  contribution (mirrorFlip board) row col = - contribution board (7 - row) col.
Proof.
  intros Hlen Hrow. unfold contribution, evaluateSquare.
  rewrite squareAt_mirrorFlip by assumption.
  destruct (squareAt board (7 - row) col) as [pc|]; cbn [option_map]; [|reflexivity].
  replace (7 - (7 - row))%nat with row by lia.
  destruct pc as [t c]; destruct c; cbn; lia.
Qed.

Lemma evaluateFrom_app (board : Board) (total : Z) (l1 l2 : list (nat * nat)) :
  evaluateFrom board total (l1 ++ l2)
  = evaluateFrom board (evaluateFrom board total l1) l2.
Proof. unfold evaluateFrom. apply fold_left_app. Qed.

Lemma evaluateFrom_shift (board : Board) (total : Z) (sqs : list (nat * nat)) :
  evaluateFrom board total sqs = total + evaluateFrom board 0 sqs.
Proof.
  unfold evaluateFrom. revert total.
  induction sqs as [|sq sqs IH]; intros total; cbn [fold_left]; [lia|].
  rewrite IH, (IH (evaluateSquare board 0 _ _)).
  rewrite (evaluateSquare_contribution board total),
          (evaluateSquare_contribution board 0). lia.
Qed.

Lemma evaluateFrom_cons (board : Board) (total : Z) (sq : nat * nat)
    (sqs : list (nat * nat)) :
  evaluateFrom board total (sq :: sqs)
  = evaluateFrom board (evaluateSquare board total (fst sq) (snd sq)) sqs.
Proof. reflexivity. Qed.


Lemma evaluateFrom_row_mirrorFlip (board : Board) (row : nat) (cols : list nat) :
  length board = 8%nat -> (row < 8)%nat ->
  evaluateFrom (mirrorFlip board) 0 (map (fun col => (row, col)) cols)
  = - evaluateFrom board 0 (map (fun col => ((7 - row)%nat, col)) cols).
Proof.
  intros Hlen Hrow. induction cols as [|c cols IH]; [reflexivity|].
  cbn [map]. rewrite !evaluateFrom_cons. cbn [fst snd].
  rewrite (evaluateFrom_shift (mirrorFlip board)), (evaluateFrom_shift board).
  rewrite IH.
  rewrite !evaluateSquare_contribution, contribution_mirrorFlip by assumption.
  lia.
Qed.

Lemma evaluateBoardArray_rows (board : Board) :
  evaluateBoardArray board
  = evaluateFrom board 0 (rowSquares 0) + evaluateFrom board 0 (rowSquares 1)
    + evaluateFrom board 0 (rowSquares 2) + evaluateFrom board 0 (rowSquares 3)
    + evaluateFrom board 0 (rowSquares 4) + evaluateFrom board 0 (rowSquares 5)
    + evaluateFrom board 0 (rowSquares 6) + evaluateFrom board 0 (rowSquares 7).
Proof.
  unfold evaluateBoardArray.
  change squares with (rowSquares 0 ++ rowSquares 1 ++ rowSquares 2 ++ rowSquares 3
                       ++ rowSquares 4 ++ rowSquares 5 ++ rowSquares 6
                       ++ rowSquares 7).
  rewrite !evaluateFrom_app.
  repeat match goal with
         | |- context [evaluateFrom board (evaluateFrom board ?t ?l) ?l'] =>
             rewrite (evaluateFrom_shift board (evaluateFrom board t l) l')
         end.
  lia.
Qed.

Lemma evaluateBoardArray_mirrorFlip (board : Board) :
  length board = 8%nat ->
  evaluateBoardArray (mirrorFlip board) = - evaluateBoardArray board.
Proof.
  intros Hlen.
  rewrite (evaluateBoardArray_rows (mirrorFlip board)), (evaluateBoardArray_rows board).
  unfold rowSquares.
  rewrite !evaluateFrom_row_mirrorFlip by (assumption || lia).
  cbn [Nat.sub]. lia.
Qed.

(* ===================================================================== *)
(** * Facts about maxima and minima of lists *)

Lemma fold_max_not_nan (l : list number) (x : number) :
  Num.isNaN x = false -> Forall (fun y => Num.isNaN y = false) l ->
  Num.isNaN (fold_left Num.max l x) = false.
Proof.
  revert x. induction l as [|y l IH]; intros x Hx Hl; cbn; [assumption|].
  inversion Hl; subst. apply IH; auto using max_not_nan.
Qed.

Lemma fold_min_not_nan (l : list number) (x : number) :
  Num.isNaN x = false -> Forall (fun y => Num.isNaN y = false) l ->
  Num.isNaN (fold_left Num.min l x) = false.
Proof.
  revert x. induction l as [|y l IH]; intros x Hx Hl; cbn; [assumption|].
  inversion Hl; subst. apply IH; auto using min_not_nan.
Qed.

Lemma fold_max_ge (l : list number) (x : number) :
  Num.isNaN x = false -> Forall (fun y => Num.isNaN y = false) l ->
  Num.leb x (fold_left Num.max l x) = true.
Proof.
  revert x. induction l as [|y l IH]; intros x Hx Hl; cbn.
  - apply leb_refl; assumption.
  - inversion Hl as [|? ? Hy Hl']; subst.
    apply leb_trans with (Num.max x y).
    + revert Hx Hy. clear. num_crush.
    + apply IH; auto using max_not_nan.
Qed.

Lemma fold_min_le (l : list number) (x : number) :
  Num.isNaN x = false -> Forall (fun y => Num.isNaN y = false) l ->
  Num.leb (fold_left Num.min l x) x = true.
Proof.
  revert x. induction l as [|y l IH]; intros x Hx Hl; cbn.
  - apply leb_refl; assumption.
  - inversion Hl as [|? ? Hy Hl']; subst.
    apply leb_trans with (Num.min x y).
    + apply IH; auto using min_not_nan.
    + revert Hx Hy. clear. num_crush.
Qed.

Lemma fold_max_perm (l l' : list number) :
  Permutation l l' -> forall x, fold_left Num.max l x = fold_left Num.max l' x.
Proof.
  induction 1; intros x0; cbn.
  - reflexivity.
  - apply IHPermutation.
  - f_equal. rewrite !max_assoc. f_equal. apply max_comm.
  - rewrite IHPermutation1. apply IHPermutation2.
Qed.

Lemma fold_min_perm (l l' : list number) :
  Permutation l l' -> forall x, fold_left Num.min l x = fold_left Num.min l' x.
Proof.
  induction 1; intros x0; cbn.
  - reflexivity.
  - apply IHPermutation.
  - f_equal. rewrite !min_assoc. f_equal. apply min_comm.
  - rewrite IHPermutation1. apply IHPermutation2.
Qed.

(* ===================================================================== *)
(** * Facts about the search *)

Section SearchFacts.
Context {E : RulesEngine}.

Lemma depth_step (n : nat) : Z.of_nat (S n) - 1 = Z.of_nat n.
Proof. lia. Qed.

Lemma depth_not_zero (n : nat) : (Z.of_nat (S n) =? 0) = false.
Proof. apply Z.eqb_neq. lia. Qed.

(** ** More fuel does not change a result *)

Lemma maxLoop_mono (rec1 rec2 : Chess -> number -> number -> option number)
    (game : Chess) :
  (forall c a b' v, rec1 c a b' = Some v -> rec2 c a b' = Some v) ->
  forall ms maxEval alpha beta v,
    maxLoop rec1 game ms maxEval alpha beta = Some v ->
    maxLoop rec2 game ms maxEval alpha beta = Some v.
Proof.
  intros Hrec. induction ms as [|m ms IH]; intros maxEval alpha beta v; cbn.
  - auto.
  - destruct (rec1 (gameCopyAfter game m) alpha beta) as [ev|] eqn:H1;
      [|discriminate].
    rewrite (Hrec _ _ _ _ H1).
    destruct (Num.leb beta (Num.max alpha ev)); auto.
Qed.

Lemma minLoop_mono (rec1 rec2 : Chess -> number -> number -> option number)
    (game : Chess) :
  (forall c a b' v, rec1 c a b' = Some v -> rec2 c a b' = Some v) ->
  forall ms minEval alpha beta v,
    minLoop rec1 game ms minEval alpha beta = Some v ->
    minLoop rec2 game ms minEval alpha beta = Some v.
Proof.
  intros Hrec. induction ms as [|m ms IH]; intros minEval alpha beta v; cbn.
  - auto.
  - destruct (rec1 (gameCopyAfter game m) alpha beta) as [ev|] eqn:H1;
      [|discriminate].
    rewrite (Hrec _ _ _ _ H1).
    destruct (Num.leb (Num.min beta ev) alpha); auto.
Qed.

Lemma minimax_S (fuel : nat) (game : Chess) (depth : Z) (alpha beta : number)
    (isMax : bool) :
  minimax (S fuel) game depth alpha beta isMax
  = if (if depth =? 0 then true else isGameOver game)
    then Some (evaluateBoard game)
    else
      if isMax then
        maxLoop (fun gameCopy alpha beta =>
                   minimax fuel gameCopy (depth - 1) alpha beta false)
                game (Array.sort capturesFirst (moves game)) NegInfinity alpha beta
      else
        minLoop (fun gameCopy alpha beta =>
                   minimax fuel gameCopy (depth - 1) alpha beta true)
                game (Array.sort capturesFirst (moves game)) Infinity alpha beta.
Proof. reflexivity. Qed.

Lemma minimax_fuel_S (fuel : nat) :
  forall game depth alpha beta isMax v,
    minimax fuel game depth alpha beta isMax = Some v ->
    minimax (S fuel) game depth alpha beta isMax = Some v.
Proof.
  induction fuel as [|fuel IH]; intros game depth alpha beta isMax v H.
  - discriminate.
  - rewrite minimax_S in H. rewrite minimax_S.
    destruct (if depth =? 0 then true else isGameOver game); [assumption|].
    destruct isMax.
    + eapply maxLoop_mono; [|exact H]. intros; apply IH; assumption.
    + eapply minLoop_mono; [|exact H]. intros; apply IH; assumption.
Qed.

Lemma minimax_fuel_mono (fuel fuel' : nat) :
  (fuel <= fuel')%nat ->
  forall game depth alpha beta isMax v,
    minimax fuel game depth alpha beta isMax = Some v ->
    minimax fuel' game depth alpha beta isMax = Some v.
Proof.
  induction 1; intros; auto using minimax_fuel_S.
Qed.

(** ** A search of depth [n] returns within [n + 1] nested calls *)

Lemma maxLoop_returns (recurse : Chess -> number -> number -> option number)
    (game : Chess) :
  (forall c a b', exists v, recurse c a b' = Some v) ->
  forall ms maxEval alpha beta,
    exists v, maxLoop recurse game ms maxEval alpha beta = Some v.
Proof.
  intros Hrec. induction ms as [|m ms IH]; intros maxEval alpha beta; cbn.
  - eauto.
  - destruct (Hrec (gameCopyAfter game m) alpha beta) as [ev ->].
    destruct (Num.leb beta (Num.max alpha ev)); eauto.
Qed.

Lemma minLoop_returns (recurse : Chess -> number -> number -> option number)
    (game : Chess) :
  (forall c a b', exists v, recurse c a b' = Some v) ->
  forall ms minEval alpha beta,
    exists v, minLoop recurse game ms minEval alpha beta = Some v.
Proof.
  intros Hrec. induction ms as [|m ms IH]; intros minEval alpha beta; cbn.
  - eauto.
  - destruct (Hrec (gameCopyAfter game m) alpha beta) as [ev ->].
    destruct (Num.leb (Num.min beta ev) alpha); eauto.
Qed.

Lemma minimax_returns (n : nat) :
  forall fuel game alpha beta isMax,
    (n < fuel)%nat ->
    exists v, minimax fuel game (Z.of_nat n) alpha beta isMax = Some v.
Proof.
  induction n as [|n IH]; intros fuel game alpha beta isMax Hf;
    (destruct fuel as [|fuel]; [lia|]); rewrite minimax_S.
  - cbn. eauto.
  - rewrite depth_not_zero, depth_step.
    destruct (isGameOver game); [eauto|].
    destruct isMax.
    + apply maxLoop_returns. intros. apply IH. lia.
    + apply minLoop_returns. intros. apply IH. lia.
Qed.

(** ** No result is [NaN] *)

Lemma maxLoop_not_nan (recurse : Chess -> number -> number -> option number)
    (game : Chess) :
  (forall c a b' v, recurse c a b' = Some v -> Num.isNaN v = false) ->
  forall ms maxEval alpha beta v,
    Num.isNaN maxEval = false ->
    maxLoop recurse game ms maxEval alpha beta = Some v ->
    Num.isNaN v = false.
Proof.
  intros Hrec. induction ms as [|m ms IH]; intros maxEval alpha beta v Hm; cbn.
  - congruence.
  - destruct (recurse (gameCopyAfter game m) alpha beta) as [ev|] eqn:H1;
      [|discriminate].
    pose proof (max_not_nan _ _ Hm (Hrec _ _ _ _ H1)).
    destruct (Num.leb beta (Num.max alpha ev)); [congruence|eauto].
Qed.

Lemma minLoop_not_nan (recurse : Chess -> number -> number -> option number)
    (game : Chess) :
  (forall c a b' v, recurse c a b' = Some v -> Num.isNaN v = false) ->
  forall ms minEval alpha beta v,
    Num.isNaN minEval = false ->
    minLoop recurse game ms minEval alpha beta = Some v ->
    Num.isNaN v = false.
Proof.
  intros Hrec. induction ms as [|m ms IH]; intros minEval alpha beta v Hm; cbn.
  - congruence.
  - destruct (recurse (gameCopyAfter game m) alpha beta) as [ev|] eqn:H1;
      [|discriminate].
    pose proof (min_not_nan _ _ Hm (Hrec _ _ _ _ H1)).
    destruct (Num.leb (Num.min beta ev) alpha); [congruence|eauto].
Qed.

Lemma minimax_not_nan (fuel : nat) :
  forall game depth alpha beta isMax v,
    minimax fuel game depth alpha beta isMax = Some v -> Num.isNaN v = false.
Proof.
  induction fuel as [|fuel IH]; intros game depth alpha beta isMax v H.
  - discriminate.
  - rewrite minimax_S in H.
    destruct (if depth =? 0 then true else isGameOver game).
    + injection H as <-. reflexivity.
    + destruct isMax.
      * eapply maxLoop_not_nan in H; eauto.
      * eapply minLoop_not_nan in H; eauto.
Qed.

Lemma fullMinimax_not_nan (n : nat) :
  forall game isMax, Num.isNaN (fullMinimax n game isMax) = false.
Proof.
  induction n as [|n IH]; intros game isMax; cbn [fullMinimax].
  - reflexivity.
  - destruct (isGameOver game); [reflexivity|].
    destruct isMax; [apply fold_max_not_nan | apply fold_min_not_nan];
      try reflexivity; apply Forall_map, Forall_forall; intros; apply IH.
Qed.

End SearchFacts.

(** ** Alpha-beta returns a value within its window *)

Section AlphaBeta.
Context {E : RulesEngine}.

Lemma maxLoop_within (recurse : Chess -> number -> number -> option number)
    (game : Chess) (exact : Move -> number) (a0 beta : number) :
  (forall m, Num.isNaN (exact m) = false) ->
  (forall m a v, Num.isNaN a = false -> Num.ltb a beta = true ->
      recurse (gameCopyAfter game m) a beta = Some v ->
      within a beta (exact m) v) ->
  forall ms maxEval done v,
    maxInv a0 beta maxEval done ->
    maxLoop recurse game ms maxEval (Num.max a0 maxEval) beta = Some v ->
    within a0 beta (fold_left Num.max (map exact ms) done) v.
Proof.
  intros Hex Hrec. induction ms as [|m ms IH]; intros maxEval done v Hinv; cbn.
  - intros [= <-]. apply maxInv_done; assumption.
  - destruct (recurse (gameCopyAfter game m) (Num.max a0 maxEval) beta)
      as [ev|] eqn:Hev; [|discriminate].
    assert (Hw : within (Num.max a0 maxEval) beta (exact m) ev).
    { destruct Hinv as (H1 & H2 & H3 & H4 & H5 & _).
      apply Hrec; auto using max_not_nan. }
    destruct (Num.leb beta (Num.max (Num.max a0 maxEval) ev)) eqn:Hcut.
    + intros [= <-].
      eapply maxInv_cut; eauto.
      destruct Hinv as (H1 & H2 & H3 & H4 & _).
      apply fold_max_ge; auto using max_not_nan.
      apply Forall_map, Forall_forall; auto.
    + rewrite max_assoc. apply IH.
      eapply maxInv_step; eauto.
Qed.

Lemma minLoop_within (recurse : Chess -> number -> number -> option number)
    (game : Chess) (exact : Move -> number) (alpha b0 : number) :
  (forall m, Num.isNaN (exact m) = false) ->
  (forall m b' v, Num.isNaN b' = false -> Num.ltb alpha b' = true ->
      recurse (gameCopyAfter game m) alpha b' = Some v ->
      within alpha b' (exact m) v) ->
  forall ms minEval done v,
    minInv alpha b0 minEval done ->
    minLoop recurse game ms minEval alpha (Num.min b0 minEval) = Some v ->
    within alpha b0 (fold_left Num.min (map exact ms) done) v.
Proof.
  intros Hex Hrec. induction ms as [|m ms IH]; intros minEval done v Hinv; cbn.
  - intros [= <-]. apply minInv_done; assumption.
  - destruct (recurse (gameCopyAfter game m) alpha (Num.min b0 minEval))
      as [ev|] eqn:Hev; [|discriminate].
    assert (Hw : within alpha (Num.min b0 minEval) (exact m) ev).
    { destruct Hinv as (H1 & H2 & H3 & H4 & H5 & _).
      apply Hrec; auto using min_not_nan. }
    destruct (Num.leb (Num.min (Num.min b0 minEval) ev) alpha) eqn:Hcut.
    + intros [= <-].
      eapply minInv_cut; eauto.
      destruct Hinv as (H1 & H2 & H3 & H4 & _).
      apply fold_min_le; auto using min_not_nan.
      apply Forall_map, Forall_forall; auto.
    + rewrite min_assoc. apply IH.
      eapply minInv_step; eauto.
Qed.

(** The pruned, ordered search of depth [n] returns, for a window
    [alpha < beta], a value within the window of the plain minimax value
    of the node. *)
Lemma minimax_within (n : nat) :
  forall fuel game alpha beta isMax v,
    Num.isNaN alpha = false -> Num.isNaN beta = false ->
    Num.ltb alpha beta = true ->
    minimax fuel game (Z.of_nat n) alpha beta isMax = Some v ->
    within alpha beta (fullMinimax n game isMax) v.
Proof.
  induction n as [|n IH]; intros fuel game alpha beta isMax v Ha Hb Hab H;
    (destruct fuel as [|fuel]; [discriminate|]); rewrite minimax_S in H.
  - cbn in H. injection H as <-. apply within_exact. reflexivity.
  - rewrite depth_not_zero, depth_step in H. cbn [fullMinimax].
    destruct (isGameOver game).
    + injection H as <-. apply within_exact. reflexivity.
    + destruct isMax; cbn [negb].
      * unfold maximum.
        rewrite (fold_max_perm _ _
          (Permutation_map _ (Permutation_sym
          (sort_perm capturesFirst (moves game))))).
        destruct (maxInv_init alpha beta Ha Hb Hab) as [Hinv Hal].
        rewrite <- Hal in H.
        eapply maxLoop_within; [| |exact Hinv|exact H].
        -- intros. apply fullMinimax_not_nan.
        -- intros m a v' Hna Hlt Hv'.
           exact (IH fuel _ a beta false v' Hna Hb Hlt Hv').
      * unfold minimum.
        rewrite (fold_min_perm _ _
          (Permutation_map _ (Permutation_sym
          (sort_perm capturesFirst (moves game))))).
        destruct (minInv_init alpha beta Ha Hb Hab) as [Hinv Hbe].
        rewrite <- Hbe in H.
        eapply minLoop_within; [| |exact Hinv|exact H].
        -- intros. apply fullMinimax_not_nan.
        -- intros m b' v' Hnb Hlt Hv'.
           exact (IH fuel _ alpha b' true v' Ha Hnb Hlt Hv').
Qed.

(** With the full window the pruned search returns the plain minimax
    value. *)
Lemma minimax_full_window (n fuel : nat) (game : Chess) (isMax : bool) :
  (n < fuel)%nat ->
  minimax fuel game (Z.of_nat n) NegInfinity Infinity isMax
  = Some (fullMinimax n game isMax).
Proof.
  intros Hf.
  destruct (minimax_returns n fuel game NegInfinity Infinity isMax Hf) as [v Hv].
  rewrite Hv. f_equal.
  apply within_full_window; [apply fullMinimax_not_nan|].
  eapply minimax_within; eauto.
Qed.

End AlphaBeta.

(* ===================================================================== *)
(** * Facts about the order of the moves *)

Section CaptureOrder.
Context {E : RulesEngine}.

Lemma capturesFirst_sign (x y : Move) :
  Num.ltb (capturesFirst x y) (Int 0) = isCapture x && negb (isCapture y).
Proof.
  unfold capturesFirst, isCapture.
  destruct (truthy (captured x)), (truthy (captured y)); reflexivity.
Qed.

Lemma rootCapturesFirst_sign (x y : Move) :
  Num.ltb (rootCapturesFirst x y) (Int 0) = isCapture x && negb (isCapture y).
Proof.
  unfold rootCapturesFirst, isCapture.
  destruct (truthy (captured x)), (truthy (captured y)); reflexivity.
Qed.

Variable comparefn : Move -> Move -> number.
Hypothesis sign :
  forall x y, Num.ltb (comparefn x y) (Int 0) = isCapture x && negb (isCapture y).

Lemma insert_others (x : Move) (others : list Move) :
  Forall (fun m => isCapture m = false) others ->
  Array.insert comparefn x others
  = if isCapture x then x :: others else others ++ [x].
Proof.
  induction 1 as [|y others Hy Ho IH]; cbn.
  - destruct (isCapture x); reflexivity.
  - rewrite sign, Hy. destruct (isCapture x) eqn:Hx; cbn.
    + reflexivity.
    + rewrite IH. reflexivity.
Qed.

Lemma insert_captures (x : Move) (caps others : list Move) :
  Forall (fun m => isCapture m = true) caps ->
  Forall (fun m => isCapture m = false) others ->
  Array.insert comparefn x (caps ++ others)
  = if isCapture x then caps ++ x :: others else caps ++ others ++ [x].
Proof.
  intros Hc Ho. induction Hc as [|y caps Hy Hc IH]; cbn.
  - apply insert_others; assumption.
  - rewrite sign, Hy, andb_false_r, IH.
    destruct (isCapture x); reflexivity.
Qed.

Lemma sort_from_captures (l caps others : list Move) :
  Forall (fun m => isCapture m = true) caps ->
  Forall (fun m => isCapture m = false) others ->
  fold_left (fun sorted x => Array.insert comparefn x sorted) l (caps ++ others)
  = (caps ++ filter isCapture l)
  ++ (others ++ filter (fun m => negb (isCapture m)) l).
Proof.
  revert caps others. induction l as [|x l IH]; intros caps others Hc Ho; cbn.
  - rewrite !app_nil_r. reflexivity.
  - rewrite insert_captures by assumption.
    destruct (isCapture x) eqn:Hx; cbn.
    + change (caps ++ x :: others) with (caps ++ [x] ++ others).
      rewrite app_assoc, IH.
      * rewrite <- !app_assoc. reflexivity.
      * apply Forall_app; split; [assumption|]. repeat constructor. assumption.
      * assumption.
    + rewrite IH.
      * rewrite <- !app_assoc. reflexivity.
      * assumption.
      * apply Forall_app; split; [assumption|]. repeat constructor. assumption.
Qed.

Lemma sort_captures_first (l : list Move) :
  Array.sort comparefn l = capturesFirstOrder l.
Proof.
  unfold Array.sort, capturesFirstOrder.
  apply (sort_from_captures l [] []); constructor.
Qed.

End CaptureOrder.

(** In [minimax] and in [findBestMove] alike the sorted array holds the
    captures first, and each group keeps the order of [game.moves()]. *)
Lemma sort_capturesFirst {E : RulesEngine} (l : list Move) :
  Array.sort capturesFirst l = capturesFirstOrder l.
Proof. apply sort_captures_first, capturesFirst_sign. Qed.

Lemma sort_rootCapturesFirst {E : RulesEngine} (l : list Move) :
  Array.sort rootCapturesFirst l = capturesFirstOrder l.
Proof. apply sort_captures_first, rootCapturesFirst_sign. Qed.

(* ===================================================================== *)
(** * Facts about the root loop of [findBestMove] *)

Lemma better_worst (isMax : bool) (v : number) :
  Num.isNaN v = false -> better isMax v (worst isMax) = false -> v = worst isMax.
Proof. destruct isMax; unfold better, worst, Num.gtb; num_crush. Qed.

Lemma better_trans (isMax : bool) (x y z : number) :
  better isMax x y = true -> better isMax y z = true -> better isMax x z = true.
Proof. destruct isMax; unfold better, Num.gtb; num_crush. Qed.

Lemma better_notWorse_trans (isMax : bool) (x y z : number) :
  better isMax x y = true -> notWorse isMax y z = true -> better isMax x z = true.
Proof. destruct isMax; unfold better, notWorse, Num.gtb; num_crush. Qed.

Lemma not_better_notWorse (isMax : bool) (x y : number) :
  Num.isNaN x = false -> Num.isNaN y = false ->
  better isMax x y = false -> notWorse isMax y x = true.
Proof. destruct isMax; unfold better, notWorse, Num.gtb; num_crush. Qed.

Lemma notWorse_refl (isMax : bool) (x : number) :
  Num.isNaN x = false -> notWorse isMax x x = true.
Proof. destruct isMax; unfold notWorse; num_crush. Qed.

Lemma better_notWorse (isMax : bool) (x y : number) :
  better isMax x y = true -> notWorse isMax x y = true.
Proof. destruct isMax; unfold better, notWorse, Num.gtb; num_crush. Qed.

Lemma worst_not_nan (isMax : bool) : Num.isNaN (worst isMax) = false.
Proof. destruct isMax; reflexivity. Qed.

(** Keeping the strictly better of two values is taking their maximum
    (their minimum for the minimizing side). *)
Lemma better_pick (isMax : bool) (v best : number) :
  Num.isNaN v = false -> Num.isNaN best = false ->
  (if better isMax v best then v else best)
  = if isMax then Num.max best v else Num.min best v.
Proof.
  destruct isMax; unfold better, Num.gtb; intros;
    [destruct (Num.ltb best v) eqn:Hlt | destruct (Num.ltb v best) eqn:Hlt];
    revert H H0 Hlt; clear; num_crush.
Qed.

Section RootLoop.
Context {E : RulesEngine}.
Variables (fuel : nat) (game : Chess) (depth : Z) (isMax : bool).


Lemma bestLoop_cons (m : Move) (rest : list Move) (bm : option Move)
    (bv : number) :
  bestLoop fuel game depth isMax (m :: rest) bm bv
  = match rootValue fuel game depth isMax m with
  | None => None
  | Some v =>
  if better isMax v bv
  then bestLoop fuel game depth isMax rest (Some m) v
  else bestLoop fuel game depth isMax rest bm bv
  end.
Proof.
  unfold rootValue, better. cbn [bestLoop].
  destruct (minimax fuel (gameCopyAfter game m) (depth - 1)
    NegInfinity Infinity (negb isMax)); [|reflexivity].
  destruct isMax; reflexivity.
Qed.

Variable value : Move -> number.
Hypothesis value_not_nan : forall m, Num.isNaN (value m) = false.

(** The value retained by the loop. *)
Lemma bestLoop_value (ms : list Move) :
  (forall m, In m ms -> rootValue fuel game depth isMax m = Some (value m)) ->
  forall bm bv, Num.isNaN bv = false ->
  exists bm',
    bestLoop fuel game depth isMax ms bm bv
    = Some (mkBestMove bm'
        (if isMax then fold_left Num.max (map value ms) bv
            else fold_left Num.min (map value ms) bv)).
Proof.
  induction ms as [|m ms IH]; intros Hval bm bv Hbv.
  - exists bm. cbn. destruct isMax; reflexivity.
  - rewrite bestLoop_cons, (Hval m (or_introl eq_refl)).
    assert (Hms : forall m', In m' ms -> rootValue fuel game depth isMax m' = Some (value m'))
      by (intros; apply Hval; right; assumption).
    pose proof (better_pick isMax (value m) bv (value_not_nan m) Hbv) as Hp.
    cbn [map fold_left].
    destruct (better isMax (value m) bv).
    + destruct (IH Hms (Some m) (value m) (value_not_nan m)) as [bm' ->].
      exists bm'. destruct isMax; rewrite <- Hp; reflexivity.
    + destruct (IH Hms bm bv Hbv) as [bm' ->].
      exists bm'. destruct isMax; rewrite <- Hp; reflexivity.
Qed.

(** The move retained by the loop: the first of the best. *)
Variable order : list Move.


Lemma bestLoop_first (rest : list Move) :
  (forall m, In m rest -> rootValue fuel game depth isMax m = Some (value m)) ->
  forall pre bm bv,
    order = pre ++ rest -> order <> [] ->
    loopState isMax value order pre bm bv ->
    exists m v before after,
      bestLoop fuel game depth isMax rest bm bv = Some (mkBestMove (Some m) v)
      /\ order = before ++ m :: after
      /\ firstBest isMax value m v before after.
Proof.
  induction rest as [|m rest IH]; intros Hval pre bm bv Hord Hne Hst.
  - rewrite app_nil_r in Hord. subst pre. cbn [bestLoop].
    destruct Hst as [(Hbv & Hbm & Hall) | (before & m & after & Hpre & Hbm & Hfb)].
    + destruct order as [|m0 tl]; [congruence|].
      exists m0, bv, [], tl. cbn in Hbm. subst bm.
      repeat split.
      * rewrite Hbv. apply Hall. left; reflexivity.
      * intros x [].
      * intros x Hx. rewrite (Hall x (or_intror Hx)), Hbv.
        apply notWorse_refl, worst_not_nan.
    + exists m, bv, before, after. subst bm. auto.
  - rewrite bestLoop_cons, (Hval m (or_introl eq_refl)).
    assert (Hms : forall m', In m' rest -> rootValue fuel game depth isMax m' = Some (value m'))
      by (intros; apply Hval; right; assumption).
    assert (Hord' : order = (pre ++ [m]) ++ rest)
      by (rewrite <- app_assoc; exact Hord).
    destruct (better isMax (value m) bv) eqn:Hb.
    + apply (IH Hms (pre ++ [m]) (Some m) (value m) Hord' Hne).
      right. exists pre, m, []. repeat split.
      * intros x Hx.
        destruct Hst as [(Hbv & _ & Hall) | (before & m0 & after & Hpre & _ & Hfb)].
        -- rewrite (Hall x Hx), <- Hbv. assumption.
        -- destruct Hfb as (Hv0 & Hbef & Haft). subst pre.
           apply in_app_or in Hx. destruct Hx as [Hx|[<-|Hx]].
           ++ eapply better_trans; eauto.
           ++ rewrite Hv0. assumption.
           ++ eapply better_notWorse_trans; eauto.
      * intros x [].
    + apply (IH Hms (pre ++ [m]) bm bv Hord' Hne).
      destruct Hst as [(Hbv & Hbm & Hall) | (before & m0 & after & Hpre & Hbm & Hfb)].
      * left. repeat split; auto.
        intros x Hx. apply in_app_or in Hx. destruct Hx as [Hx|[<-|[]]]; auto.
        subst bv. apply better_worst; auto.
      * right. exists before, m0, (after ++ [m]).
        destruct Hfb as (Hv0 & Hbef & Haft).
        repeat split; auto.
        -- subst pre. rewrite <- app_assoc. reflexivity.
        -- intros x Hx. apply in_app_or in Hx. destruct Hx as [Hx|[<-|[]]]; auto.
           apply not_better_notWorse; auto.
           rewrite <- Hv0. apply value_not_nan.
Qed.

End RootLoop.

(* ===================================================================== *)
(** * The best-move API *)

Section BestMoveFacts.
Context {E : RulesEngine}.

Lemma findBestMove_no_moves (fuel : nat) (game : Chess) (depth : Z) :
  moves game = [] ->
  findBestMove fuel game depth = Some (mkBestMove None (evaluateBoard game)).
Proof. unfold findBestMove. intros ->. reflexivity. Qed.

Lemma findBestMove_some_moves (fuel : nat) (game : Chess) (depth : Z) :
  moves game <> [] ->
  findBestMove fuel game depth
  = bestLoop fuel game depth (Color_eqb (turn game) White)
  (capturesFirstOrder (moves game))
  (nth_error (capturesFirstOrder (moves game)) 0)
  (worst (Color_eqb (turn game) White)).
Proof.
  unfold findBestMove. intros Hne.
  destruct (moves game) as [|m ms] eqn:Hm; [congruence|].
  cbn [length Nat.eqb]. rewrite sort_rootCapturesFirst. reflexivity.
Qed.

Lemma capturesFirstOrder_perm (ms : list Move) :
  Permutation (capturesFirstOrder ms) ms.
Proof.
  rewrite <- (sort_capturesFirst ms). apply sort_perm.
Qed.

(** The value of a root move is the plain minimax value of the position
    after it. *)
Lemma rootValue_exact (fuel : nat) (game : Chess) (depth : Z) (isMax : bool)
    (m : Move) :
  1 <= depth <= Z.of_nat fuel ->
  rootValue fuel game depth isMax m
  = Some (fullMinimax (Z.to_nat depth - 1) (gameCopyAfter game m) (negb isMax)).
Proof.
  intros Hd. unfold rootValue.
  replace (depth - 1) with (Z.of_nat (Z.to_nat depth - 1)) by lia.
  apply minimax_full_window. lia.
Qed.

Lemma fullRootValue_bestOf (depth : nat) (game : Chess) :
  moves game <> [] ->
  fullRootValue depth game
  = bestOf (Color_eqb (turn game) White)
  (map (fun m => fullMinimax (depth - 1) (gameCopyAfter game m)
          (negb (Color_eqb (turn game) White))) (moves game)).
Proof.
  unfold fullRootValue, bestOf, maximum, minimum.
  destruct (moves game); [congruence|reflexivity].
Qed.

(** When the root is not a finished game, the root value is the plain
    minimax value of the root. *)
Lemma fullRootValue_fullMinimax (depth : nat) (game : Chess) :
  (1 <= depth)%nat -> isGameOver game = false -> moves game <> [] ->
  fullRootValue depth game
  = fullMinimax depth game (Color_eqb (turn game) White).
Proof.
  intros Hd Hover Hne. rewrite fullRootValue_bestOf by assumption.
  destruct depth as [|n]; [lia|]. cbn [fullMinimax]. rewrite Hover.
  replace (S n - 1)%nat with n by lia. reflexivity.
Qed.

Lemma findBestMove_value (fuel : nat) (game : Chess) (depth : Z) :
  1 <= depth <= Z.of_nat fuel ->
  exists best,
    findBestMove fuel game depth = Some best
    /\ bm_evaluation best = fullRootValue (Z.to_nat depth) game.
Proof.
  intros Hd.
  assert (Hcases : moves game = [] \/ moves game <> [])
    by (destruct (moves game); [left; reflexivity | right; discriminate]).
  destruct Hcases as [Hm|Hne].
  - rewrite findBestMove_no_moves by assumption.
    eexists; split; [reflexivity|]. unfold fullRootValue. rewrite Hm. reflexivity.
  - rewrite findBestMove_some_moves, fullRootValue_bestOf by assumption.
    set (isMax := Color_eqb (turn game) White).
    set (value := fun m => fullMinimax (Z.to_nat depth - 1) (gameCopyAfter game m)
      (negb isMax)).
    destruct (bestLoop_value fuel game depth isMax value
      (fun m => fullMinimax_not_nan _ _ _)
      (capturesFirstOrder (moves game))
      (fun m _ => rootValue_exact fuel game depth isMax m Hd)
      (nth_error (capturesFirstOrder (moves game)) 0)
      (worst isMax) (worst_not_nan isMax)) as [bm' Hbm].
    rewrite Hbm. eexists; split; [reflexivity|]. cbn [bm_evaluation].
    pose proof (Permutation_map value (capturesFirstOrder_perm (moves game))) as Hp.
    unfold bestOf, worst. destruct isMax.
    + apply fold_max_perm; assumption.
    + apply fold_min_perm; assumption.
Qed.

End BestMoveFacts.

(** C1.  For every position and every depth from 1 to 4, [findBestMove]
    returns (given the call depth the search needs) the value that plain
    minimax, with no cutoff and no move ordering, gives to the root of the
    same tree.  When the root is not a finished game this is the plain
    minimax value of the root itself. *)
Theorem C1_pruning_keeps_root_value {E : RulesEngine}
    (fuel : nat) (game : Chess) (depth : Z) :
  1 <= depth <= 4 ->
  depth <= Z.of_nat fuel ->
  exists best,
    findBestMove fuel game depth = Some best
    /\ bm_evaluation best = fullRootValue (Z.to_nat depth) game
    /\ (isGameOver game = false -> moves game <> [] ->
        bm_evaluation best
        = fullMinimax (Z.to_nat depth) game (Color_eqb (turn game) White)).
Proof.
  intros Hd Hf.
  destruct (findBestMove_value fuel game depth) as (best & Hb & Hv); [lia|].
  exists best. repeat split; auto.
  intros Hover Hne. rewrite Hv. apply fullRootValue_fullMinimax; auto. lia.
Qed.

Lemma C1_witness :
  (1 <= 2 <= 4) /\ (2 <= Z.of_nat 2) /\
  exists best,
    findBestMove (E := chessJs) 2 ChessJs.start 2 = Some best
    /\ bm_evaluation best = fullRootValue 2 ChessJs.start
    /\ (isGameOver ChessJs.start = false -> moves ChessJs.start <> [] ->
        bm_evaluation best = fullMinimax 2 ChessJs.start true).
Proof.
  split; [lia|]. split; [lia|].
  apply (C1_pruning_keeps_root_value (E := chessJs) 2 ChessJs.start 2); lia.
Defined.

(** The move and the value [findBestMove] returns. *)
Lemma findBestMove_first_best {E : RulesEngine}
    (fuel : nat) (game : Chess) (depth : Z) :
  moves game <> [] ->
  1 <= depth ->
  depth <= Z.of_nat fuel ->
  let isMax := Color_eqb (turn game) White in
  exists m v before after,
    findBestMove fuel game depth = Some (mkBestMove (Some m) v)
    /\ In m (moves game)
    /\ rootValue fuel game depth isMax m = Some v
    /\ (forall x, In x (moves game) ->
          exists vx, rootValue fuel game depth isMax x = Some vx
                     /\ notWorse isMax v vx = true)
    /\ capturesFirstOrder (moves game) = before ++ m :: after
    /\ (forall x, In x before ->
          exists vx, rootValue fuel game depth isMax x = Some vx
                     /\ better isMax v vx = true).
Proof.
  intros Hne Hd Hf isMax.
  set (value := fun x => fullMinimax (Z.to_nat depth - 1) (gameCopyAfter game x)
                           (negb isMax)).
  assert (Hval : forall x, rootValue fuel game depth isMax x = Some (value x))
    by (intros; apply rootValue_exact; lia).
  assert (Hnan : forall x, Num.isNaN (value x) = false)
    by (intros; apply fullMinimax_not_nan).
  assert (Hord : capturesFirstOrder (moves game) <> []).
  { intros Hnil. apply Hne. apply Permutation_nil. rewrite <- Hnil.
    apply capturesFirstOrder_perm. }
  destruct (bestLoop_first fuel game depth isMax value Hnan
              (capturesFirstOrder (moves game)) (capturesFirstOrder (moves game))
              (fun x _ => Hval x) [] (nth_error (capturesFirstOrder (moves game)) 0)
              (worst isMax) eq_refl Hord)
    as (m & v & before & after & Hres & Heq & Hvm & Hbef & Haft).
  { left. repeat split. intros x []. }
  exists m, v, before, after.
  assert (Hin : forall x, In x (moves game) <->
                          In x before \/ x = m \/ In x after).
  { intros x. split; intros H.
    - apply (Permutation_in _ (Permutation_sym (capturesFirstOrder_perm _))) in H.
      rewrite Heq in H. apply in_app_or in H. destruct H as [H|[H|H]]; auto.
    - apply (Permutation_in _ (capturesFirstOrder_perm _)).
      rewrite Heq. apply in_or_app. destruct H as [H|[H|H]]; subst; cbn; auto. }
  rewrite findBestMove_some_moves by assumption. fold isMax.
  repeat split.
  - assumption.
  - apply Hin. auto.
  - rewrite Hval, Hvm. reflexivity.
  - intros x Hx. exists (value x). split; [apply Hval|].
    apply Hin in Hx. destruct Hx as [Hx|[->|Hx]].
    + apply better_notWorse; auto.
    + rewrite Hvm. apply notWorse_refl. rewrite <- Hvm. apply Hnan.
    + auto.
  - assumption.
  - intros x Hx. exists (value x). split; [apply Hval|auto].
Qed.

(** C2.  On a position with a legal move, at a depth of at least 1,
    [findBestMove] returns a legal move [m] and a value [v] such that [v]
    is the value of [m] at the root (minimax of the position after [m], one
    ply less deep, with the full window), no root move has a better value
    for the side to move (so [v] is the maximum for White and the minimum
    for Black), and [m] is the first move with that value in the order
    captures first: every move before it is strictly worse. *)
Theorem C2_best_move_is_first_best {E : RulesEngine}
    (fuel : nat) (game : Chess) (depth : Z) :
  moves game <> [] ->
  1 <= depth ->
  depth <= Z.of_nat fuel ->
  let isMax := Color_eqb (turn game) White in
  exists m v before after,
    findBestMove fuel game depth = Some (mkBestMove (Some m) v)
    /\ In m (moves game)
    /\ rootValue fuel game depth isMax m = Some v
    /\ (forall x, In x (moves game) ->
          exists vx, rootValue fuel game depth isMax x = Some vx
                     /\ notWorse isMax v vx = true)
    /\ capturesFirstOrder (moves game) = before ++ m :: after
    /\ (forall x, In x before ->
          exists vx, rootValue fuel game depth isMax x = Some vx
                     /\ better isMax v vx = true).
Proof. apply findBestMove_first_best. Qed.

Lemma C2_witness :
  moves ChessJs.start <> [] /\ 1 <= 2 /\ 2 <= Z.of_nat 2 /\
  exists m v before after,
    findBestMove (E := chessJs) 2 ChessJs.start 2 = Some (mkBestMove (Some m) v)
    /\ In m (moves ChessJs.start)
    /\ rootValue 2 ChessJs.start 2 true m = Some v
    /\ (forall x, In x (moves ChessJs.start) ->
          exists vx, rootValue 2 ChessJs.start 2 true x = Some vx
                     /\ notWorse true v vx = true)
    /\ capturesFirstOrder (moves ChessJs.start) = before ++ m :: after
    /\ (forall x, In x before ->
          exists vx, rootValue 2 ChessJs.start 2 true x = Some vx
                     /\ better true v vx = true).
Proof.
  assert (Hne : moves ChessJs.start <> []) by (vm_compute; discriminate).
  split; [exact Hne|]. split; [lia|]. split; [lia|].
  apply (C2_best_move_is_first_best (E := chessJs) 2 ChessJs.start 2 Hne); lia.
Defined.

(** C5.  On a position with no legal move, [findBestMove] returns no move
    and the static evaluation, and [findTopMoves] returns the empty list,
    whatever the depth and the count (and whatever the call depth allowed):
    both return a result. *)
Theorem C5_no_legal_move {E : RulesEngine}
    (fuel : nat) (game : Chess) (depth count : Z) :
  moves game = [] ->
  findBestMove fuel game depth = Some (mkBestMove None (evaluateBoard game))
  /\ findTopMoves fuel game depth count = Some [].
Proof.
  intros Hm. split.
  - apply findBestMove_no_moves; assumption.
  - unfold findTopMoves. rewrite Hm. reflexivity.
Qed.

Lemma C5_witness :
  moves stalemated = [] /\
  findBestMove (E := chessJs) 0 stalemated 3
  = Some (mkBestMove None (evaluateBoard stalemated))
  /\ findTopMoves (E := chessJs) 0 stalemated 3 5 = Some [].
Proof.
  assert (Hm : moves stalemated = []) by (vm_compute; reflexivity).
  split; [exact Hm|].
  apply (C5_no_legal_move (E := chessJs) 0 stalemated 3 5 Hm).
Defined.

(** C6, as stated, fails: a white pawn on a7 (with the two kings on e1 and
    e8) is worth 150, and the same board with the colours exchanged is
    worth -105, not -150. *)
Lemma C6_counterexample :
  evaluateBoardArray pawnOnSeventh = 150
  /\ evaluateBoardArray (colorFlip pawnOnSeventh) = -105
  /\ evaluateBoardArray (colorFlip pawnOnSeventh)
     <> - evaluateBoardArray pawnOnSeventh.
Proof. repeat split; vm_compute; congruence. Qed.

(** C6, amended.  Exchanging the colours and mirroring the ranks (the
    piece of row [r] goes to row [7 - r] of the same file) negates the
    evaluation of every board of eight rows. *)
Theorem C6_mirrored_color_symmetry (board : Board) :
  length board = 8%nat ->
  evaluateBoardArray (mirrorFlip board) = - evaluateBoardArray board.
Proof. apply evaluateBoardArray_mirrorFlip. Qed.

Lemma C6_witness :
  length pawnOnSeventh = 8%nat /\
  evaluateBoardArray (mirrorFlip pawnOnSeventh) = - evaluateBoardArray pawnOnSeventh.
Proof.
  split; [reflexivity|].
  apply (C6_mirrored_color_symmetry pawnOnSeventh). reflexivity.
Defined.

(** C9.  The evaluation of any position is an integer of absolute value at
    most 64 * 20050, hence strictly inside (-10^9, 10^9) and strictly
    between the two infinities the search starts from; every running total
    of the evaluator's loops, and every piece score it adds or subtracts,
    is inside the signed 32-bit range. *)
Theorem C9_evaluation_bounded {E : RulesEngine} (game : Chess) :
  exists z,
    evaluateBoard game = Int z
    /\ -1000000000 < z < 1000000000
    /\ Num.ltb NegInfinity (evaluateBoard game) = true
    /\ Num.ltb (evaluateBoard game) Infinity = true
    /\ (forall k, -2147483648
                  <= evaluateFrom (board game) 0 (firstn k squares)
                  <= 2147483647)
    /\ (forall row col, -2147483648
                        <= contribution (board game) row col
                        <= 2147483647).
Proof.
  exists (evaluateBoardArray (board game)).
  pose proof (evaluateBoardArray_bound (board game)).
  repeat split; try reflexivity; try lia.
  - pose proof (evaluateFrom_bound (board game) (firstn k squares) 0) as Hk.
    pose proof (length_firstn k squares) as Hl.
    change (length squares) with 64%nat in Hl. lia.
  - pose proof (evaluateFrom_bound (board game) (firstn k squares) 0) as Hk.
    pose proof (length_firstn k squares) as Hl.
    change (length squares) with 64%nat in Hl. lia.
  - pose proof (contribution_bound (board game) row col); lia.
  - pose proof (contribution_bound (board game) row col); lia.
Qed.

(* ===================================================================== *)
(** * Finite evaluations *)

Section Finite.
Context {E : RulesEngine}.

(** The precondition on the rules engine: a position with no legal move
    is a finished game. *)
Hypothesis no_moves_game_over : forall g : Chess, moves g = [] -> isGameOver g = true.

Lemma maxLoop_finite (recurse : Chess -> number -> number -> option number)
    (game : Chess) :
  (forall c a b' v, recurse c a b' = Some v -> Num.isFinite v = true) ->
  forall ms maxEval alpha beta v,
    maxEval = NegInfinity \/ Num.isFinite maxEval = true ->
    maxLoop recurse game ms maxEval alpha beta = Some v ->
    (ms = [] /\ v = maxEval) \/ Num.isFinite v = true.
Proof.
  intros Hrec. induction ms as [|m ms IH]; intros maxEval alpha beta v Hm; cbn.
  - intros [= <-]. left. auto.
  - destruct (recurse (gameCopyAfter game m) alpha beta) as [ev|] eqn:H1;
      [|discriminate].
    pose proof (Hrec _ _ _ _ H1) as Hev.
    assert (Hfin : Num.isFinite (Num.max maxEval ev) = true).
    { destruct Hm as [->|Hm]; revert Hev; [|revert Hm]; clear; num_crush. }
    destruct (Num.leb beta (Num.max alpha ev)).
    + intros [= <-]. right. assumption.
    + intros H. right.
      destruct (IH _ _ _ _ (or_intror Hfin) H) as [[_ ->]|Hv]; assumption.
Qed.

Lemma minLoop_finite (recurse : Chess -> number -> number -> option number)
    (game : Chess) :
  (forall c a b' v, recurse c a b' = Some v -> Num.isFinite v = true) ->
  forall ms minEval alpha beta v,
    minEval = Infinity \/ Num.isFinite minEval = true ->
    minLoop recurse game ms minEval alpha beta = Some v ->
    (ms = [] /\ v = minEval) \/ Num.isFinite v = true.
Proof.
  intros Hrec. induction ms as [|m ms IH]; intros minEval alpha beta v Hm; cbn.
  - intros [= <-]. left. auto.
  - destruct (recurse (gameCopyAfter game m) alpha beta) as [ev|] eqn:H1;
      [|discriminate].
    pose proof (Hrec _ _ _ _ H1) as Hev.
    assert (Hfin : Num.isFinite (Num.min minEval ev) = true).
    { destruct Hm as [->|Hm]; revert Hev; [|revert Hm]; clear; num_crush. }
    destruct (Num.leb (Num.min beta ev) alpha).
    + intros [= <-]. right. assumption.
    + intros H. right.
      destruct (IH _ _ _ _ (or_intror Hfin) H) as [[_ ->]|Hv]; assumption.
Qed.

(** Whatever the depth, the window and the call depth allowed, a value
    that [minimax] returns is finite. *)
Lemma minimax_finite (fuel : nat) :
  forall game depth alpha beta isMax v,
    minimax fuel game depth alpha beta isMax = Some v -> Num.isFinite v = true.
Proof.
  induction fuel as [|fuel IH]; intros game depth alpha beta isMax v H.
  - discriminate.
  - rewrite minimax_S in H.
    destruct (if depth =? 0 then true else isGameOver game) eqn:Hstop.
    + injection H as <-. reflexivity.
    + assert (Hne : Array.sort capturesFirst (moves game) <> []).
      { intros Hnil. apply sort_nil_iff in Hnil.
        apply no_moves_game_over in Hnil.
        destruct (depth =? 0); congruence. }
      destruct isMax.
      * eapply maxLoop_finite in H; eauto.
        destruct H as [[Hnil _]|Hv]; [contradiction|assumption].
      * eapply minLoop_finite in H; eauto.
        destruct H as [[Hnil _]|Hv]; [contradiction|assumption].
Qed.

Lemma finite_is_Int (v : number) : Num.isFinite v = true -> exists z, v = Int z.
Proof. destruct v; try discriminate. eauto. Qed.

End Finite.

(** C10.  Over a rules engine for which a position with no legal move is a
    finished game: a value returned by [minimax] is finite, whatever the
    depth and the window; for a depth [d >= 0], [minimax] does return (in
    [d + 1] nested calls) and returns an integer; and on a position with a
    legal move [findBestMove], at a depth of at least 1, replaces its
    infinite initial [bestValue] by the finite value of the first root move
    and returns a move with a finite evaluation. *)
Theorem C10_no_infinite_evaluation {E : RulesEngine}
    (fuel : nat) (game : Chess) (depth : Z) (alpha beta : number) (isMax : bool)
    (rootDepth : Z) :
  (forall g : Chess, moves g = [] -> isGameOver g = true) ->
  0 <= depth < Z.of_nat fuel ->
  1 <= rootDepth <= Z.of_nat fuel ->
  (forall fuel' depth' v,
      minimax fuel' game depth' alpha beta isMax = Some v ->
      v <> Infinity /\ v <> NegInfinity /\ Num.isFinite v = true)
  /\ (exists z, minimax fuel game depth alpha beta isMax = Some (Int z))
  /\ (moves game <> [] ->
      exists first rest z1 m z,
        Array.sort rootCapturesFirst (moves game) = first :: rest
        /\ rootValue fuel game rootDepth (Color_eqb (turn game) White) first
           = Some (Int z1)
        /\ findBestMove fuel game rootDepth
           = bestLoop fuel game rootDepth (Color_eqb (turn game) White)
               rest (Some first) (Int z1)
        /\ findBestMove fuel game rootDepth = Some (mkBestMove (Some m) (Int z))).
Proof.
  intros Hover Hd Hrd. split; [|split].
  - intros fuel' depth' v Hv.
    pose proof (minimax_finite Hover _ _ _ _ _ _ _ Hv) as Hfin.
    destruct v; try discriminate. repeat split; discriminate.
  - destruct (minimax_returns (Z.to_nat depth) fuel game alpha beta isMax)
      as [v Hv]; [lia|].
    rewrite Z2Nat.id in Hv by lia.
    destruct (finite_is_Int v (minimax_finite Hover _ _ _ _ _ _ _ Hv)) as [z ->].
    eauto.
  - intros Hne.
    set (isMax0 := Color_eqb (turn game) White).
    destruct (findBestMove_first_best fuel game rootDepth Hne)
      as (m & v & before & after & Hres & _ & Hv & _); [lia|lia|].
    fold isMax0 in Hv.
    destruct (Array.sort rootCapturesFirst (moves game)) as [|first rest] eqn:Hs.
    { apply sort_nil_iff in Hs. contradiction. }
    pose proof (rootValue_exact fuel game rootDepth isMax0 first Hrd) as Hv1.
    destruct (finite_is_Int _ (minimax_finite Hover _ _ _ _ _ _ _ Hv1)) as [z1 Hz1].
    rewrite Hz1 in Hv1.
    destruct (finite_is_Int v (minimax_finite Hover _ _ _ _ _ _ _ Hv)) as [z ->].
    exists first, rest, z1, m, z. repeat split; auto.
    unfold findBestMove.
    destruct (moves game) as [|m0 ms0] eqn:Hm; [congruence|].
    cbn [length Nat.eqb]. rewrite Hs. fold isMax0.
    rewrite bestLoop_cons, Hv1. cbn [nth_error].
    unfold better, Num.gtb. destruct isMax0; reflexivity.
Qed.

(** chess.js reports a position with no legal move as checkmate or as
    stalemate. *)
Lemma chessJs_no_moves_game_over (g : ChessJs.Chess) :
  moves (RulesEngine := chessJs) g = [] -> isGameOver (RulesEngine := chessJs) g = true.
Proof.
  cbn. intros Hm.
  unfold ChessJs.isGameOver, ChessJs.isCheckmate, ChessJs.isStalemate, ChessJs.noMoves.
  rewrite Hm. destruct (ChessJs.isCheck (ChessJs.position g)); reflexivity.
Qed.

Lemma C10_witness :
  (forall g : Chess, moves (RulesEngine := chessJs) g = [] -> isGameOver g = true)
  /\ 0 <= 1 < Z.of_nat 2
  /\ 1 <= 2 <= Z.of_nat 2
  /\ (forall fuel' depth' v,
         minimax (E := chessJs) fuel' ChessJs.start depth' (Int 7) (Int (-3)) true
         = Some v ->
         v <> Infinity /\ v <> NegInfinity /\ Num.isFinite v = true)
  /\ (exists z, minimax (E := chessJs) 2 ChessJs.start 1 (Int 7) (Int (-3)) true
                = Some (Int z))
  /\ (moves ChessJs.start <> [] ->
      exists first rest z1 m z,
        Array.sort rootCapturesFirst (moves ChessJs.start) = first :: rest
        /\ rootValue 2 ChessJs.start 2 true first = Some (Int z1)
        /\ findBestMove 2 ChessJs.start 2
           = bestLoop 2 ChessJs.start 2 true rest (Some first) (Int z1)
        /\ findBestMove 2 ChessJs.start 2 = Some (mkBestMove (Some m) (Int z))).
Proof.
  split; [exact chessJs_no_moves_game_over|]. split; [lia|]. split; [lia|].
  apply (C10_no_infinite_evaluation (E := chessJs) 2 ChessJs.start 1
           (Int 7) (Int (-3)) true 2 chessJs_no_moves_game_over); lia.
Defined.

(* ===================================================================== *)
(** * The results do not depend on the call depth allowed *)

Section FuelFacts.
Context {E : RulesEngine}.

Lemma bestLoop_fuel_mono (fuel fuel' : nat) (game : Chess) (depth : Z)
    (isMax : bool) :
  (fuel <= fuel')%nat ->
  forall ms bm bv best,
    bestLoop fuel game depth isMax ms bm bv = Some best ->
    bestLoop fuel' game depth isMax ms bm bv = Some best.
Proof.
  intros Hf. induction ms as [|m ms IH]; intros bm bv best; cbn [bestLoop].
  - auto.
  - destruct (minimax fuel (gameCopyAfter game m) (depth - 1) NegInfinity Infinity
      (negb isMax)) as [v|] eqn:Hv; [|discriminate].
    rewrite (minimax_fuel_mono fuel fuel' Hf _ _ _ _ _ _ Hv).
    destruct isMax;
      [destruct (Num.gtb v bv) | destruct (Num.ltb v bv)]; apply IH.
Qed.

Lemma findBestMove_fuel_mono (fuel fuel' : nat) (game : Chess) (depth : Z)
    (best : BestMove Move) :
  (fuel <= fuel')%nat ->
  findBestMove fuel game depth = Some best ->
  findBestMove fuel' game depth = Some best.
Proof.
  unfold findBestMove. intros Hf.
  destruct (length (moves game) =? 0)%nat; [auto|].
  apply bestLoop_fuel_mono; assumption.
Qed.

Lemma evaluateMoves_fuel_mono (fuel fuel' : nat) (game : Chess) (depth : Z)
    (isMax : bool) :
  (fuel <= fuel')%nat ->
  forall ms entries,
    evaluateMoves fuel game depth isMax ms = Some entries ->
    evaluateMoves fuel' game depth isMax ms = Some entries.
Proof.
  intros Hf. induction ms as [|m ms IH]; intros entries; cbn [evaluateMoves].
  - auto.
  - destruct (minimax fuel (gameCopyAfter game m) (depth - 1) NegInfinity Infinity
      (negb isMax)) as [v|] eqn:Hv; [|discriminate].
    rewrite (minimax_fuel_mono fuel fuel' Hf _ _ _ _ _ _ Hv).
    destruct (evaluateMoves fuel game depth isMax ms) as [es|]; [|discriminate].
    rewrite (IH es eq_refl). auto.
Qed.

Lemma findTopMoves_fuel_mono (fuel fuel' : nat) (game : Chess) (depth count : Z)
    (result : list (MoveEvaluation Move)) :
  (fuel <= fuel')%nat ->
  findTopMoves fuel game depth count = Some result ->
  findTopMoves fuel' game depth count = Some result.
Proof.
  unfold findTopMoves. intros Hf.
  destruct (length (moves game) =? 0)%nat; [auto|].
  destruct (evaluateMoves fuel game depth _ (moves game)) as [es|] eqn:Hes;
    [|discriminate].
  rewrite (evaluateMoves_fuel_mono fuel fuel' _ _ _ Hf _ _ Hes). auto.
Qed.

End FuelFacts.

(** C7.  On the starting position, at depth 2, [findBestMove] returns the
    evaluation 0 and a move, 1. Nc3, that is one of the 20 legal moves of
    the position. *)
Theorem C7_starting_position_depth_2 (fuel : nat) :
  (2 <= fuel)%nat ->
  findBestMove (E := chessJs) fuel ChessJs.start 2
  = Some (mkBestMove (Some Nb1c3) (Int 0))
  /\ In Nb1c3 (moves ChessJs.start)
  /\ length (moves ChessJs.start) = 20%nat.
Proof.
  intros Hf. split; [|split].
  - apply (findBestMove_fuel_mono (E := chessJs) 2 fuel ChessJs.start 2 _ Hf).
    vm_compute. reflexivity.
  - vm_compute. tauto.
  - vm_compute. reflexivity.
Qed.

Lemma C7_witness :
  (2 <= 5)%nat /\
  findBestMove (E := chessJs) 5 ChessJs.start 2
  = Some (mkBestMove (Some Nb1c3) (Int 0))
  /\ In Nb1c3 (moves ChessJs.start)
  /\ length (moves ChessJs.start) = 20%nat.
Proof.
  split; [lia|]. apply (C7_starting_position_depth_2 5). lia.
Defined.

(* ===================================================================== *)
(** * The ranking API *)

Lemma StronglySorted_app_inv {A : Type} (R : A -> A -> Prop) (l1 l2 : list A) :
  StronglySorted R (l1 ++ l2) ->
  StronglySorted R l1 /\ StronglySorted R l2
  /\ forall x y, In x l1 -> In y l2 -> R x y.
Proof.
  induction l1 as [|a l1 IH]; cbn; intros H.
  - repeat split; [constructor | assumption | intros x y []].
  - inversion H as [|? ? Hs Hall]; subst.
    destruct (IH Hs) as (H1 & H2 & H3).
    rewrite Forall_app in Hall. destruct Hall as [Ha1 Ha2].
    repeat split; auto.
    + constructor; assumption.
    + intros x y [<-|Hx] Hy; auto.
      rewrite Forall_forall in Ha2. auto.
Qed.

Lemma filter_firstn_skipn {A : Type} (f : A -> bool) (k : nat) (l : list A) :
  filter f l = filter f (firstn k l) ++ filter f (skipn k l).
Proof. rewrite <- filter_app, firstn_skipn. reflexivity. Qed.

Lemma byEvaluation_sign {E : RulesEngine} (isMax : bool)
    (x y : MoveEvaluation Move) :
  Num.isNaN (evaluationRank isMax x) = false ->
  Num.isNaN (evaluationRank isMax y) = false ->
  Num.ltb (byEvaluation isMax x y) (Int 0)
  = Num.ltb (evaluationRank isMax x) (evaluationRank isMax y).
Proof.
  unfold byEvaluation, evaluationRank.
  generalize (evaluation x), (evaluation y). clear.
  destruct isMax; intros a c Ha Hc; revert Ha Hc; num_cases;
    intros; destruct (_ <? _) eqn:H1; symmetry; z_bool; lia.
Qed.

Lemma rank_not_nan {M : Type} (isMax : bool) (e : MoveEvaluation M) :
  Num.isNaN (evaluation e) = false -> Num.isNaN (evaluationRank isMax e) = false.
Proof. unfold evaluationRank. destruct isMax, (evaluation e); auto. Qed.

Lemma rank_le_notWorse {M : Type} (isMax : bool) (x y : MoveEvaluation M) :
  Num.leb (evaluationRank isMax x) (evaluationRank isMax y) = true ->
  notWorse isMax (evaluation x) (evaluation y) = true.
Proof.
  unfold evaluationRank, notWorse.
  generalize (evaluation x), (evaluation y). clear.
  destruct isMax; num_crush.
Qed.

Lemma rank_eqb {M : Type} (isMax : bool) (v : number) (e : MoveEvaluation M) :
  Num_eqb (evaluationRank isMax e) (if isMax then Num.neg v else v)
  = Num_eqb (evaluation e) v.
Proof.
  unfold evaluationRank. generalize (evaluation e). clear.
  destruct isMax; intros a; num_cases.
  destruct (z =? z0) eqn:H1; destruct (- z =? - z0) eqn:H2; z_bool; try reflexivity; lia.
Qed.

Section TopMoves.
Context {E : RulesEngine}.

Lemma evaluateMoves_values (fuel : nat) (game : Chess) (depth : Z) (isMax : bool)
    (value : Move -> number) (ms : list Move) :
  (forall m, In m ms -> rootValue fuel game depth isMax m = Some (value m)) ->
  evaluateMoves fuel game depth isMax ms
  = Some (map (fun m => mkMoveEvaluation m (value m)) ms).
Proof.
  induction ms as [|m ms IH]; intros Hval; cbn [evaluateMoves map].
  - reflexivity.
  - pose proof (Hval m (or_introl eq_refl)) as Hm. unfold rootValue in Hm.
    rewrite Hm, IH; [reflexivity|].
    intros; apply Hval; right; assumption.
Qed.

Lemma findTopMoves_sorted_slice (fuel : nat) (game : Chess) (depth count : Z)
    (entries : list (MoveEvaluation Move)) :
  evaluateMoves fuel game depth (Color_eqb (turn game) White) (moves game)
  = Some entries ->
  findTopMoves fuel game depth count
  = Some (Array.slice0
      (Array.sort (byEvaluation (Color_eqb (turn game) White)) entries)
      count).
Proof.
  unfold findTopMoves. intros Hes.
  destruct (moves game) as [|m ms] eqn:Hm.
  - cbn in Hes. injection Hes as <-. cbn [length Nat.eqb].
    unfold Array.slice0, Array.sort. cbn [fold_left]. rewrite firstn_nil.
    reflexivity.
  - cbn [length Nat.eqb]. rewrite Hes. reflexivity.
Qed.

(** The sorted entries: a stable sort, best first. *)
Lemma sort_byEvaluation (isMax : bool) (entries : list (MoveEvaluation Move)) :
  Forall (fun e => Num.isNaN (evaluation e) = false) entries ->
  Permutation (Array.sort (byEvaluation isMax) entries) entries
  /\ bestFirst isMax (Array.sort (byEvaluation isMax) entries)
  /\ forall v, withEvaluation v (Array.sort (byEvaluation isMax) entries)
  = withEvaluation v entries.
Proof.
  intros Hok.
  assert (Hgood : Forall (fun e => Num.isNaN (evaluationRank isMax e) = false) entries).
  { eapply Forall_impl; [|exact Hok]. intros e. apply rank_not_nan. }
  split; [apply sort_perm|]. split.
  - unfold bestFirst.
    pose proof (sort_sorted (byEvaluation isMax) (evaluationRank isMax)
      (byEvaluation_sign isMax) entries Hgood) as Hs.
    revert Hs. generalize (Array.sort (byEvaluation isMax) entries).
    induction 1 as [|x l Hs IH Hall]; constructor; auto.
    eapply Forall_impl; [|exact Hall]. intros y. apply rank_le_notWorse.
  - intros v. unfold withEvaluation.
    pose proof (sort_stable (byEvaluation isMax) (evaluationRank isMax)
      (byEvaluation_sign isMax) entries
      (if isMax then Num.neg v else v) Hgood) as Hst.
    erewrite (filter_ext _ (fun x => Num_eqb (evaluationRank isMax x)
      (if isMax then Num.neg v else v)));
      [|intros; symmetry; apply rank_eqb].
    rewrite Hst. apply filter_ext. intros; apply rank_eqb.
Qed.

Lemma findTopMoves_ranking (fuel : nat) (game : Chess) (depth count : Z) :
  1 <= depth ->
  depth <= Z.of_nat fuel ->
  0 <= count ->
  let isMax := Color_eqb (turn game) White in
  exists entries result dropped,
    evaluateMoves fuel game depth isMax (moves game) = Some entries
    /\ map me_move entries = moves game
    /\ (forall e, In e entries ->
        rootValue fuel game depth isMax (me_move e) = Some (evaluation e))
    /\ findTopMoves fuel game depth count = Some result
    /\ Z.of_nat (length result) <= count
    /\ bestFirst isMax result
    /\ Permutation (result ++ dropped) entries
    /\ (forall e d, In e result -> In d dropped ->
        notWorse isMax (evaluation e) (evaluation d) = true)
    /\ (forall v, exists later,
        withEvaluation v entries = withEvaluation v result ++ later)
    /\ (Z.of_nat (length (moves game)) <= count ->
        dropped = []
        /\ Permutation (map me_move result) (moves game)
        /\ forall v, withEvaluation v result = withEvaluation v entries).
Proof.
  intros Hd Hf Hc isMax.
  set (value := fun x => fullMinimax (Z.to_nat depth - 1) (gameCopyAfter game x)
    (negb isMax)).
  set (entries := map (fun m => mkMoveEvaluation m (value m)) (moves game)).
  assert (Hes : evaluateMoves fuel game depth isMax (moves game) = Some entries).
  { apply evaluateMoves_values. intros; apply rootValue_exact; lia. }
  assert (Hok : Forall (fun e => Num.isNaN (evaluation e) = false) entries).
  { apply Forall_map, Forall_forall. intros; apply fullMinimax_not_nan. }
  destruct (sort_byEvaluation isMax entries Hok) as (Hperm & Hsorted & Hstable).
  set (sorted := Array.sort (byEvaluation isMax) entries) in *.
  set (k := Z.to_nat (Z.min count (Z.of_nat (length sorted)))).
  assert (Hslice : Array.slice0 sorted count = firstn k sorted).
  { unfold Array.slice0. destruct (count <? 0) eqn:Hneg; [z_bool; lia|reflexivity]. }
  assert (Hlen : length sorted = length (moves game)).
  { rewrite (Permutation_length Hperm). unfold entries. apply length_map. }
  destruct (StronglySorted_app_inv
    (fun x y => notWorse isMax (evaluation x) (evaluation y) = true)
    (firstn k sorted) (skipn k sorted))
    as (Hs1 & _ & Hs3).
  { rewrite firstn_skipn. exact Hsorted. }
  exists entries, (firstn k sorted), (skipn k sorted).
  repeat split.
  - assumption.
  - unfold entries. rewrite map_map. cbn. apply map_id.
  - intros e He. unfold entries in He. apply in_map_iff in He.
    destruct He as (m & <- & _). cbn. apply rootValue_exact; lia.
  - rewrite (findTopMoves_sorted_slice fuel game depth count entries Hes).
    fold isMax. fold sorted. rewrite Hslice. reflexivity.
  - rewrite length_firstn. unfold k. lia.
  - exact Hs1.
  - rewrite firstn_skipn. exact Hperm.
  - exact Hs3.
  - intros v. exists (withEvaluation v (skipn k sorted)).
    rewrite <- Hstable. apply filter_firstn_skipn.
  - apply skipn_all2. unfold k. lia.
  - rewrite firstn_all2 by (unfold k; lia).
    eapply Permutation_trans; [apply Permutation_map, Hperm|].
    unfold entries. rewrite map_map. cbn. rewrite map_id. apply Permutation_refl.
  - intros v. rewrite firstn_all2 by (unfold k; lia). apply Hstable.
Qed.

End TopMoves.

(** C3.  For a depth of at least 1 and a count of at least 0,
    [findTopMoves] returns at most [count] entries, sorted best first for
    the side to move (descending for White, ascending for Black); they are
    the first entries of the stable sort of the evaluated legal moves: no
    entry left out is better than an entry returned, and the entries of
    one evaluation are, in the order of [game.moves()], the first moves of
    that evaluation.  When [count] is at least the number of legal moves
    nothing is left out: every legal move appears exactly once. *)
Theorem C3_top_moves_ranking {E : RulesEngine}
    (fuel : nat) (game : Chess) (depth count : Z) :
  1 <= depth ->
  depth <= Z.of_nat fuel ->
  0 <= count ->
  let isMax := Color_eqb (turn game) White in
  exists entries result dropped,
    evaluateMoves fuel game depth isMax (moves game) = Some entries
    /\ map me_move entries = moves game
    /\ (forall e, In e entries ->
          rootValue fuel game depth isMax (me_move e) = Some (evaluation e))
    /\ findTopMoves fuel game depth count = Some result
    /\ Z.of_nat (length result) <= count
    /\ bestFirst isMax result
    /\ Permutation (result ++ dropped) entries
    /\ (forall e d, In e result -> In d dropped ->
          notWorse isMax (evaluation e) (evaluation d) = true)
    /\ (forall v, exists later,
          withEvaluation v entries = withEvaluation v result ++ later)
    /\ (Z.of_nat (length (moves game)) <= count ->
        dropped = []
        /\ Permutation (map me_move result) (moves game)
        /\ forall v, withEvaluation v result = withEvaluation v entries).
Proof. apply findTopMoves_ranking. Qed.

Lemma C3_witness :
  1 <= 2 /\ 2 <= Z.of_nat 2 /\ 0 <= 5 /\
  exists entries result dropped,
    evaluateMoves (E := chessJs) 2 ChessJs.start 2 true (moves ChessJs.start)
    = Some entries
    /\ map me_move entries = moves ChessJs.start
    /\ (forall e, In e entries ->
          rootValue 2 ChessJs.start 2 true (me_move e) = Some (evaluation e))
    /\ findTopMoves 2 ChessJs.start 2 5 = Some result
    /\ Z.of_nat (length result) <= 5
    /\ bestFirst true result
    /\ Permutation (result ++ dropped) entries
    /\ (forall e d, In e result -> In d dropped ->
          notWorse true (evaluation e) (evaluation d) = true)
    /\ (forall v, exists later,
          withEvaluation v entries = withEvaluation v result ++ later)
    /\ (Z.of_nat (length (moves ChessJs.start)) <= 5 ->
        dropped = []
        /\ Permutation (map me_move result) (moves ChessJs.start)
        /\ forall v, withEvaluation v result = withEvaluation v entries).
Proof.
  split; [lia|]. split; [lia|]. split; [lia|].
  apply (C3_top_moves_ranking (E := chessJs) 2 ChessJs.start 2 5); lia.
Defined.

(* ===================================================================== *)
(** * The search on objects computes the search on values *)

Section HeapFacts.
Context {E : RulesEngine}.

Lemma grows_refl (w : Heap.World) : grows w w.
Proof.
  exists [], []. rewrite !app_nil_r. repeat split. constructor.
Qed.

Lemma movesOld_mono (n n' : nat) (c : Heap.Call) :
  (n <= n')%nat -> movesOld n' c = false -> movesOld n c = false.
Proof.
  intros Hn. destruct c; cbn; auto.
  intros H. apply Nat.ltb_ge in H. apply Nat.ltb_ge. lia.
Qed.

Lemma grows_trans (w1 w2 w3 : Heap.World) :
  grows w1 w2 -> grows w2 w3 -> grows w1 w3.
Proof.
  intros (o1 & c1 & Ho1 & Hc1 & Hf1) (o2 & c2 & Ho2 & Hc2 & Hf2).
  exists (o1 ++ o2), (c1 ++ c2). repeat split.
  - rewrite Ho2, Ho1, app_assoc. reflexivity.
  - rewrite Hc2, Hc1, app_assoc. reflexivity.
  - apply Forall_app. split; [assumption|].
    eapply Forall_impl; [|exact Hf2]. intros c. apply movesOld_mono.
    rewrite Ho1, length_app. lia.
Qed.

(** An object found by a run is still there, unchanged, afterwards. *)
Lemma grows_lookup (w w' : Heap.World) (r : Heap.ref) (g : Chess) :
  grows w w' ->
  nth_error (Heap.objects w) r = Some g ->
  nth_error (Heap.objects w') r = Some g.
Proof.
  intros (o & c & Ho & _) Hr. rewrite Ho.
  rewrite nth_error_app1; [assumption|].
  apply nth_error_Some. congruence.
Qed.

Lemma query_run {A : Type} (c : Heap.ref -> Heap.Call) (f : Chess -> A)
    (w : Heap.World) (r : Heap.ref) (g : Chess) :
  nth_error (Heap.objects w) r = Some g ->
  Heap.query c f r w
  = Some (f g, Heap.mkWorld (Heap.objects w) (Heap.calls w ++ [c r])).
Proof. unfold Heap.query. intros ->. reflexivity. Qed.

Lemma set_last {A : Type} (l : list A) (x y : A) :
  Array.set (length l) x (l ++ [y]) = l ++ [x].
Proof. induction l as [|a l IH]; cbn; [reflexivity|]. rewrite IH. reflexivity. Qed.

Lemma gameCopyAfter_run (w : Heap.World) (r : Heap.ref) (g : Chess) (m : Move) :
  nth_error (Heap.objects w) r = Some g ->
  Heap.gameCopyAfter r m w
  = Some (length (Heap.objects w),
      Heap.mkWorld (Heap.objects w ++ [gameCopyAfter g m])
      (Heap.calls w ++ [Heap.CallFen r;
              Heap.CallNew (length (Heap.objects w));
              Heap.CallMove (length (Heap.objects w)) m])).
Proof.
  intros Hr. unfold Heap.gameCopyAfter, Heap.bind.
  rewrite (query_run _ _ _ _ _ Hr). cbn.
  unfold Heap.doMove. cbn.
  rewrite nth_error_app2, Nat.sub_diag by lia. cbn.
  rewrite set_last, <- !app_assoc. reflexivity.
Qed.

Lemma gameCopyAfter_grows (w : Heap.World) (g : Chess) (m : Move) (r : Heap.ref) :
  grows w (Heap.mkWorld (Heap.objects w ++ [gameCopyAfter g m])
      (Heap.calls w ++ [Heap.CallFen r;
              Heap.CallNew (length (Heap.objects w));
              Heap.CallMove (length (Heap.objects w)) m])).
Proof.
  eexists _, _. repeat split. repeat constructor. cbn. apply Nat.ltb_irrefl.
Qed.

Lemma query_grows (w : Heap.World) (c : Heap.Call) :
  movesOld (length (Heap.objects w)) c = false ->
  grows w (Heap.mkWorld (Heap.objects w) (Heap.calls w ++ [c])).
Proof.
  intros Hc. exists [], [c]. rewrite app_nil_r. repeat split. repeat constructor.
  assumption.
Qed.

Lemma copy_lookup (w : Heap.World) (c : Chess) (cs : list Heap.Call) :
  nth_error (Heap.objects (Heap.mkWorld (Heap.objects w ++ [c]) cs))
  (length (Heap.objects w)) = Some c.
Proof. cbn. rewrite nth_error_app2, Nat.sub_diag by lia. reflexivity. Qed.

Lemma refines_ret {A : Type} (x : A) (w : Heap.World) :
  refines (Heap.ret x) w (Some x).
Proof. exists w. split; [reflexivity|apply grows_refl]. Qed.

(** Running [c] in a world grown from [w]. *)
Lemma refines_after {A : Type} (c : Heap.M A) (w w1 : Heap.World) (r : option A) :
  grows w w1 -> refines c w1 r ->
  match r with
  | Some x => exists w', c w1 = Some (x, w') /\ grows w w'
  | None => c w1 = None
  end.
Proof.
  intros Hg. destruct r as [x|]; cbn; [|auto].
  intros (w' & Hc & Hg'). exists w'. split; [assumption|].
  eapply grows_trans; eassumption.
Qed.

Lemma refines_bind {A B : Type} (c : Heap.M A) (f : A -> Heap.M B)
    (w w1 : Heap.World) (x : A) (r : option B) :
  c w = Some (x, w1) -> grows w w1 -> refines (f x) w1 r ->
  refines (Heap.bind c f) w r.
Proof.
  intros Hc Hg Hf. pose proof (refines_after _ _ _ _ Hg Hf) as H.
  unfold refines, Heap.bind. rewrite Hc. exact H.
Qed.

Lemma refines_bind_none {A B : Type} (c : Heap.M A) (f : A -> Heap.M B)
    (w : Heap.World) :
  c w = None -> refines (Heap.bind c f) w None.
Proof. intros Hc. unfold refines, Heap.bind. rewrite Hc. reflexivity. Qed.

Section Loops.
Variables (recH : Heap.ref -> number -> number -> Heap.M number)
    (rec : Chess -> number -> number -> option number).
Hypothesis rec_refines :
  forall c gc a b' w,
    nth_error (Heap.objects w) c = Some gc ->
    refines (recH c a b') w (rec gc a b').

Lemma maxLoop_refines (r : Heap.ref) (g : Chess) (ms : list Move) :
  forall maxEval alpha beta w,
    nth_error (Heap.objects w) r = Some g ->
    refines (Heap.maxLoop recH r ms maxEval alpha beta) w
    (maxLoop rec g ms maxEval alpha beta).
Proof.
  induction ms as [|m ms IH]; intros maxEval alpha beta w Hr;
    cbn [Heap.maxLoop maxLoop].
  - apply refines_ret.
  - eapply refines_bind;
      [apply (gameCopyAfter_run w r g m Hr) | apply gameCopyAfter_grows |].
    pose proof (gameCopyAfter_grows w g m r) as Hg1.
    set (w1 := Heap.mkWorld _ _) in *.
    pose proof (rec_refines (length (Heap.objects w)) (gameCopyAfter g m)
      alpha beta w1 (copy_lookup w _ _)) as Hrec.
    destruct (rec (gameCopyAfter g m) alpha beta) as [ev|]; cbn in Hrec.
    + destruct Hrec as (w2 & Hrun & Hg2).
      eapply refines_bind; [exact Hrun | exact Hg2 |].
      destruct (Num.leb beta (Num.max alpha ev)).
      * apply refines_ret.
      * apply IH. eapply grows_lookup; [|exact Hr].
        eapply grows_trans; eassumption.
    + apply refines_bind_none. exact Hrec.
Qed.

Lemma minLoop_refines (r : Heap.ref) (g : Chess) (ms : list Move) :
  forall minEval alpha beta w,
    nth_error (Heap.objects w) r = Some g ->
    refines (Heap.minLoop recH r ms minEval alpha beta) w
    (minLoop rec g ms minEval alpha beta).
Proof.
  induction ms as [|m ms IH]; intros minEval alpha beta w Hr;
    cbn [Heap.minLoop minLoop].
  - apply refines_ret.
  - eapply refines_bind;
      [apply (gameCopyAfter_run w r g m Hr) | apply gameCopyAfter_grows |].
    pose proof (gameCopyAfter_grows w g m r) as Hg1.
    set (w1 := Heap.mkWorld _ _) in *.
    pose proof (rec_refines (length (Heap.objects w)) (gameCopyAfter g m)
      alpha beta w1 (copy_lookup w _ _)) as Hrec.
    destruct (rec (gameCopyAfter g m) alpha beta) as [ev|]; cbn in Hrec.
    + destruct Hrec as (w2 & Hrun & Hg2).
      eapply refines_bind; [exact Hrun | exact Hg2 |].
      destruct (Num.leb (Num.min beta ev) alpha).
      * apply refines_ret.
      * apply IH. eapply grows_lookup; [|exact Hr].
        eapply grows_trans; eassumption.
    + apply refines_bind_none. exact Hrec.
Qed.

End Loops.

Lemma evaluateBoard_run (w : Heap.World) (r : Heap.ref) (g : Chess) :
  nth_error (Heap.objects w) r = Some g ->
  Heap.evaluateBoard r w
  = Some (evaluateBoard g,
      Heap.mkWorld (Heap.objects w) (Heap.calls w ++ [Heap.CallBoard r])).
Proof.
  intros Hr. unfold Heap.evaluateBoard, Heap.bind.
  rewrite (query_run _ _ _ _ _ Hr). reflexivity.
Qed.

Lemma minimax_refines (fuel : nat) :
  forall r g depth alpha beta isMax w,
    nth_error (Heap.objects w) r = Some g ->
    refines (Heap.minimax fuel r depth alpha beta isMax) w
    (minimax fuel g depth alpha beta isMax).
Proof.
  induction fuel as [|fuel IH]; intros r g depth alpha beta isMax w Hr.
  - reflexivity.
  - rewrite minimax_S. cbn [Heap.minimax].
    destruct (depth =? 0).
    + eapply refines_bind; [reflexivity | apply grows_refl |].
      exists (Heap.mkWorld (Heap.objects w) (Heap.calls w ++ [Heap.CallBoard r])).
      split; [apply evaluateBoard_run; exact Hr | apply query_grows; reflexivity].
    + eapply refines_bind;
        [apply (query_run _ _ _ _ _ Hr) | apply query_grows; reflexivity |].
      set (w1 := Heap.mkWorld _ _).
      assert (Hr1 : nth_error (Heap.objects w1) r = Some g) by exact Hr.
      destruct (isGameOver g).
      * exists (Heap.mkWorld (Heap.objects w1) (Heap.calls w1 ++ [Heap.CallBoard r])).
        split; [apply evaluateBoard_run; exact Hr1 | apply query_grows; reflexivity].
      * eapply refines_bind;
          [apply (query_run _ _ _ _ _ Hr1) | apply query_grows; reflexivity |].
        destruct isMax.
        -- apply maxLoop_refines; [|exact Hr]. intros; apply IH; assumption.
        -- apply minLoop_refines; [|exact Hr]. intros; apply IH; assumption.
Qed.

Lemma evaluateMoves_refines (fuel : nat) (r : Heap.ref) (g : Chess) (depth : Z)
    (isMax : bool) (ms : list Move) :
  forall w,
    nth_error (Heap.objects w) r = Some g ->
    refines (Heap.evaluateMoves fuel r depth isMax ms) w
    (evaluateMoves fuel g depth isMax ms).
Proof.
  induction ms as [|m ms IH]; intros w Hr;
    cbn [Heap.evaluateMoves evaluateMoves].
  - apply refines_ret.
  - eapply refines_bind;
      [apply (gameCopyAfter_run w r g m Hr) | apply gameCopyAfter_grows |].
    pose proof (gameCopyAfter_grows w g m r) as Hg1.
    set (w1 := Heap.mkWorld _ _) in *.
    pose proof (minimax_refines fuel (length (Heap.objects w)) (gameCopyAfter g m)
      (depth - 1) NegInfinity Infinity (negb isMax) w1
      (copy_lookup w _ _)) as Hrec.
    destruct (minimax fuel (gameCopyAfter g m) (depth - 1) NegInfinity Infinity
      (negb isMax)) as [ev|]; cbn in Hrec.
    + destruct Hrec as (w2 & Hrun & Hg2).
      eapply refines_bind; [exact Hrun | exact Hg2 |].
      assert (Hr2 : nth_error (Heap.objects w2) r = Some g).
      { eapply grows_lookup; [|exact Hr]. eapply grows_trans; eassumption. }
      specialize (IH w2 Hr2).
      destruct (evaluateMoves fuel g depth isMax ms) as [es|]; cbn in IH.
      * destruct IH as (w3 & Hrun3 & Hg3).
        eapply refines_bind; [exact Hrun3 | exact Hg3 |]. apply refines_ret.
      * apply refines_bind_none. exact IH.
    + apply refines_bind_none. exact Hrec.
Qed.

Lemma bestLoop_refines (fuel : nat) (r : Heap.ref) (g : Chess) (depth : Z)
    (isMax : bool) (ms : list Move) :
  forall bm bv w,
    nth_error (Heap.objects w) r = Some g ->
    refines (Heap.bestLoop fuel r depth isMax ms bm bv) w
    (bestLoop fuel g depth isMax ms bm bv).
Proof.
  induction ms as [|m ms IH]; intros bm bv w Hr;
    cbn [Heap.bestLoop bestLoop].
  - apply refines_ret.
  - eapply refines_bind;
      [apply (gameCopyAfter_run w r g m Hr) | apply gameCopyAfter_grows |].
    pose proof (gameCopyAfter_grows w g m r) as Hg1.
    set (w1 := Heap.mkWorld _ _) in *.
    pose proof (minimax_refines fuel (length (Heap.objects w)) (gameCopyAfter g m)
      (depth - 1) NegInfinity Infinity (negb isMax) w1
      (copy_lookup w _ _)) as Hrec.
    destruct (minimax fuel (gameCopyAfter g m) (depth - 1) NegInfinity Infinity
      (negb isMax)) as [ev|]; cbn in Hrec.
    + destruct Hrec as (w2 & Hrun & Hg2).
      eapply refines_bind; [exact Hrun | exact Hg2 |].
      assert (Hr2 : nth_error (Heap.objects w2) r = Some g).
      { eapply grows_lookup; [|exact Hr]. eapply grows_trans; eassumption. }
      destruct isMax;
        [destruct (Num.gtb ev bv) | destruct (Num.ltb ev bv)]; apply IH; exact Hr2.
    + apply refines_bind_none. exact Hrec.
Qed.

Lemma findTopMoves_refines (fuel : nat) (r : Heap.ref) (g : Chess)
    (depth count : Z) (w : Heap.World) :
  nth_error (Heap.objects w) r = Some g ->
  refines (Heap.findTopMoves fuel r depth count) w
  (findTopMoves fuel g depth count).
Proof.
  intros Hr. unfold Heap.findTopMoves, findTopMoves.
  eapply refines_bind;
    [apply (query_run _ _ _ _ _ Hr) | apply query_grows; reflexivity |].
  set (w1 := Heap.mkWorld _ _).
  assert (Hr1 : nth_error (Heap.objects w1) r = Some g) by exact Hr.
  destruct (length (moves g) =? 0)%nat.
  - apply refines_ret.
  - eapply refines_bind;
      [apply (query_run _ _ _ _ _ Hr1) | apply query_grows; reflexivity |].
    set (w2 := Heap.mkWorld _ _).
    assert (Hr2 : nth_error (Heap.objects w2) r = Some g) by exact Hr.
    pose proof (evaluateMoves_refines fuel r g depth (Color_eqb (turn g) White)
      (moves g) w2 Hr2) as Hes.
    destruct (evaluateMoves fuel g depth (Color_eqb (turn g) White) (moves g))
      as [es|]; cbn in Hes.
    + destruct Hes as (w3 & Hrun & Hg3).
      eapply refines_bind; [exact Hrun | exact Hg3 |]. apply refines_ret.
    + apply refines_bind_none. exact Hes.
Qed.

Lemma findBestMove_refines (fuel : nat) (r : Heap.ref) (g : Chess)
    (depth : Z) (w : Heap.World) :
  nth_error (Heap.objects w) r = Some g ->
  refines (Heap.findBestMove fuel r depth) w (findBestMove fuel g depth).
Proof.
  intros Hr. unfold Heap.findBestMove, findBestMove.
  eapply refines_bind;
    [apply (query_run _ _ _ _ _ Hr) | apply query_grows; reflexivity |].
  set (w1 := Heap.mkWorld _ _).
  assert (Hr1 : nth_error (Heap.objects w1) r = Some g) by exact Hr.
  destruct (length (moves g) =? 0)%nat.
  - eapply refines_bind;
      [apply (evaluateBoard_run _ _ _ Hr1) | apply query_grows; reflexivity |].
    apply refines_ret.
  - eapply refines_bind;
      [apply (query_run _ _ _ _ _ Hr1) | apply query_grows; reflexivity |].
    apply bestLoop_refines. exact Hr.
Qed.

(** What [refines] gives: the result, the caller's object and the calls. *)
Lemma refines_frame {A : Type} (c : Heap.M A) (w : Heap.World) (res : option A)
    (r : Heap.ref) (g : Chess) :
  nth_error (Heap.objects w) r = Some g ->
  refines c w res ->
  option_map fst (c w) = res
  /\ forall x w', c w = Some (x, w') ->
  nth_error (Heap.objects w') r = Some g
  /\ grows w w'.
Proof.
  intros Hr Href. destruct res as [x|]; cbn in Href.
  - destruct Href as (w' & Hrun & Hg). rewrite Hrun. split; [reflexivity|].
    intros x' w'' [= <- <-]. split; [|assumption].
    eapply grows_lookup; eassumption.
  - rewrite Href. split; [reflexivity|]. intros x w' [=].
Qed.

End HeapFacts.

Lemma minimax_terminal {E : RulesEngine} (fuel : nat) (game : Chess) (depth : Z)
    (alpha beta : number) (isMax : bool) :
  depth = 0 \/ isGameOver game = true ->
  minimax (S fuel) game depth alpha beta isMax = Some (evaluateBoard game).
Proof.
  intros Hstop. rewrite minimax_S.
  destruct Hstop as [-> | ->]; [reflexivity|].
  destruct (depth =? 0); reflexivity.
Qed.

Lemma minimax_terminal_run {E : RulesEngine} (fuel : nat) (game : Chess)
    (depth : Z) (alpha beta : number) (isMax : bool)
    (w : Heap.World) (r : Heap.ref) :
  depth = 0 \/ isGameOver game = true ->
  nth_error (Heap.objects w) r = Some game ->
  Heap.minimax (S fuel) r depth alpha beta isMax w
  = Some (evaluateBoard game,
          Heap.mkWorld (Heap.objects w)
            (Heap.calls w ++ (if depth =? 0 then [Heap.CallBoard r]
                              else [Heap.CallIsGameOver r; Heap.CallBoard r]))).
Proof.
  intros Hstop Hr. cbn [Heap.minimax]. unfold Heap.bind at 1.
  destruct (depth =? 0) eqn:Hd.
  - cbn. apply evaluateBoard_run. exact Hr.
  - rewrite (query_run _ _ _ _ _ Hr).
    destruct Hstop as [-> | ->]; [discriminate|].
    rewrite (evaluateBoard_run (Heap.mkWorld _ _) r game Hr). cbn.
    rewrite <- app_assoc. reflexivity.
Qed.

(** C4.  At depth 0, and at any depth on a position the rules engine
    reports as finished, [minimax] returns the static evaluation, whatever
    the window and the side, in a single call: run on an object, it
    creates no object and calls [board()] (after [isGameOver()] when the
    depth is not 0), never [moves()]. *)
Theorem C4_terminal_returns_evaluation {E : RulesEngine}
    (fuel : nat) (game : Chess) (depth : Z) (alpha beta : number) (isMax : bool) :
  depth = 0 \/ isGameOver game = true ->
  minimax (S fuel) game 0 alpha beta isMax = Some (evaluateBoard game)
  /\ minimax (S fuel) game depth alpha beta isMax = Some (evaluateBoard game)
  /\ forall (w : Heap.World) (r : Heap.ref),
       nth_error (Heap.objects w) r = Some game ->
       exists cs,
         Heap.minimax (S fuel) r depth alpha beta isMax w
         = Some (evaluateBoard game, Heap.mkWorld (Heap.objects w) (Heap.calls w ++ cs))
         /\ Forall (fun c => Heap.isCallMoves c = false) cs.
Proof.
  intros Hstop. split; [|split].
  - apply minimax_terminal. left; reflexivity.
  - apply minimax_terminal. exact Hstop.
  - intros w r Hr. eexists. split.
    + apply minimax_terminal_run; eassumption.
    + destruct (depth =? 0); repeat constructor.
Qed.

Lemma C4_witness :
  (5 = 0 \/ isGameOver stalemated = true)
  /\ minimax (E := chessJs) 1 stalemated 0 (Int 3) NaN false
     = Some (evaluateBoard stalemated)
  /\ minimax (E := chessJs) 1 stalemated 5 (Int 3) NaN false
     = Some (evaluateBoard stalemated)
  /\ forall (w : Heap.World) (r : Heap.ref),
       nth_error (Heap.objects w) r = Some stalemated ->
       exists cs,
         Heap.minimax 1 r 5 (Int 3) NaN false w
         = Some (evaluateBoard stalemated,
                 Heap.mkWorld (Heap.objects w) (Heap.calls w ++ cs))
         /\ Forall (fun c => Heap.isCallMoves c = false) cs.
Proof.
  assert (H : 5 = 0 \/ isGameOver stalemated = true)
    by (right; vm_compute; reflexivity).
  split; [exact H|].
  apply (C4_terminal_returns_evaluation (E := chessJs) 0 stalemated 5 (Int 3) NaN
           false H).
Defined.

(** C8.  Run on the caller's object, [evaluateBoard], [findTopMoves] and
    [findBestMove] return what they compute from the position the object
    holds, and from nothing else: the same in any world and for any object
    that holds the same position.  A run leaves the caller's object, and
    every object it found, as it was: it only adds objects to the store,
    and every [move] it makes is on an object it created.  From depth 1
    on, the two searches return. *)
Theorem C8_caller_position_unchanged {E : RulesEngine}
    (fuel : nat) (depth count : Z) (w : Heap.World) (game : Heap.ref) (P : Chess) :
  nth_error (Heap.objects w) game = Some P ->
  (option_map fst (Heap.evaluateBoard game w) = Some (evaluateBoard P)
   /\ option_map fst (Heap.findTopMoves fuel game depth count w)
      = findTopMoves fuel P depth count
   /\ option_map fst (Heap.findBestMove fuel game depth w)
      = findBestMove fuel P depth)
  /\ (forall x w', Heap.evaluateBoard game w = Some (x, w') ->
        nth_error (Heap.objects w') game = Some P /\ grows w w')
  /\ (forall x w', Heap.findTopMoves fuel game depth count w = Some (x, w') ->
        nth_error (Heap.objects w') game = Some P /\ grows w w')
  /\ (forall x w', Heap.findBestMove fuel game depth w = Some (x, w') ->
        nth_error (Heap.objects w') game = Some P /\ grows w w')
  /\ (forall w2 game2,
        nth_error (Heap.objects w2) game2 = Some P ->
        option_map fst (Heap.evaluateBoard game2 w2)
        = option_map fst (Heap.evaluateBoard game w)
        /\ option_map fst (Heap.findTopMoves fuel game2 depth count w2)
           = option_map fst (Heap.findTopMoves fuel game depth count w)
        /\ option_map fst (Heap.findBestMove fuel game2 depth w2)
           = option_map fst (Heap.findBestMove fuel game depth w))
  /\ (1 <= depth <= Z.of_nat fuel ->
      exists tops best w1 w2,
        Heap.findTopMoves fuel game depth count w = Some (tops, w1)
        /\ Heap.findBestMove fuel game depth w = Some (best, w2)).
Proof.
  intros Hr.
  assert (He : forall w0 r0, nth_error (Heap.objects w0) r0 = Some P ->
                 refines (Heap.evaluateBoard r0) w0 (Some (evaluateBoard P))).
  { intros w0 r0 H0. eexists. split; [apply evaluateBoard_run; exact H0|].
    apply query_grows. reflexivity. }
  destruct (refines_frame _ w _ game P Hr (He w game Hr)) as [E1 F1].
  destruct (refines_frame _ w _ game P Hr
              (findTopMoves_refines fuel game P depth count w Hr)) as [E2 F2].
  destruct (refines_frame _ w _ game P Hr
              (findBestMove_refines fuel game P depth w Hr)) as [E3 F3].
  split; [exact (conj E1 (conj E2 E3))|].
  split; [exact F1|]. split; [exact F2|]. split; [exact F3|].
  split.
  - intros w2 game2 H. rewrite E1, E2, E3. split; [|split].
    + apply (refines_frame _ w2 _ game2 P H (He w2 game2 H)).
    + apply (refines_frame _ w2 _ game2 P H
               (findTopMoves_refines fuel game2 P depth count w2 H)).
    + apply (refines_frame _ w2 _ game2 P H
               (findBestMove_refines fuel game2 P depth w2 H)).
  - intros Hd.
    destruct (findBestMove_value fuel P depth Hd) as (best & Hb & _).
    assert (Ht : exists tops, findTopMoves fuel P depth count = Some tops).
    { eexists. apply findTopMoves_sorted_slice.
      apply (evaluateMoves_values fuel P depth _
               (fun x => fullMinimax (Z.to_nat depth - 1) (gameCopyAfter P x)
                           (negb (Color_eqb (turn P) White)))).
      intros; apply rootValue_exact; lia. }
    destruct Ht as [tops Ht].
    rewrite Ht in E2. rewrite Hb in E3.
    destruct (Heap.findTopMoves fuel game depth count w) as [[t w1]|];
      [|discriminate].
    destruct (Heap.findBestMove fuel game depth w) as [[b' w2]|];
      [|discriminate].
    exists t, b', w1, w2. split; reflexivity.
Qed.

Lemma C8_witness :
  nth_error (Heap.objects newGameWorld) 0 = Some ChessJs.start
  /\ (option_map fst (Heap.evaluateBoard 0%nat newGameWorld)
      = Some (evaluateBoard ChessJs.start)
      /\ option_map fst (Heap.findTopMoves 2 0%nat 2 3 newGameWorld)
         = findTopMoves 2 ChessJs.start 2 3
      /\ option_map fst (Heap.findBestMove 2 0%nat 2 newGameWorld)
         = findBestMove 2 ChessJs.start 2)
  /\ (forall x w', Heap.evaluateBoard 0%nat newGameWorld = Some (x, w') ->
        nth_error (Heap.objects w') 0 = Some ChessJs.start /\ grows newGameWorld w')
  /\ (forall x w', Heap.findTopMoves 2 0%nat 2 3 newGameWorld = Some (x, w') ->
        nth_error (Heap.objects w') 0 = Some ChessJs.start /\ grows newGameWorld w')
  /\ (forall x w', Heap.findBestMove 2 0%nat 2 newGameWorld = Some (x, w') ->
        nth_error (Heap.objects w') 0 = Some ChessJs.start /\ grows newGameWorld w')
  /\ (forall w2 game2,
        nth_error (Heap.objects w2) game2 = Some ChessJs.start ->
        option_map fst (Heap.evaluateBoard game2 w2)
        = option_map fst (Heap.evaluateBoard 0%nat newGameWorld)
        /\ option_map fst (Heap.findTopMoves 2 game2 2 3 w2)
           = option_map fst (Heap.findTopMoves 2 0%nat 2 3 newGameWorld)
        /\ option_map fst (Heap.findBestMove 2 game2 2 w2)
           = option_map fst (Heap.findBestMove 2 0%nat 2 newGameWorld))
  /\ (1 <= 2 <= Z.of_nat 2 ->
      exists tops best w1 w2,
        Heap.findTopMoves 2 0%nat 2 3 newGameWorld = Some (tops, w1)
        /\ Heap.findBestMove 2 0%nat 2 newGameWorld = Some (best, w2)).
Proof.
  split; [reflexivity|].
  apply (C8_caller_position_unchanged (E := chessJs) 2 2 3 newGameWorld 0%nat
           ChessJs.start eq_refl).
Defined.

(* ===================================================================== *)
(** * More about the search *)

(** X1.  What [minimax] returns for a window that is not the full one:
    for a depth [n >= 0] and [alpha < beta] the call returns (within
    [n + 1] nested calls), and its value [v] compares with the plain
    minimax value of the node as follows.  When that value lies strictly
    inside the window, [v] is that value; when it is at most [alpha], [v]
    is an upper bound of it that is at most [alpha]; when it is at least
    [beta], [v] is a lower bound of it that is at least [beta]. *)
Theorem X1_minimax_window_bound {E : RulesEngine}
    (n fuel : nat) (game : Chess) (alpha beta : number) (isMax : bool) :
  Num.isNaN alpha = false -> Num.isNaN beta = false ->
  Num.ltb alpha beta = true ->
  (n < fuel)%nat ->
  exists v,
    minimax fuel game (Z.of_nat n) alpha beta isMax = Some v
    /\ (Num.ltb alpha (fullMinimax n game isMax) = true ->
        Num.ltb (fullMinimax n game isMax) beta = true ->
        v = fullMinimax n game isMax)
    /\ (Num.leb (fullMinimax n game isMax) alpha = true ->
        Num.leb (fullMinimax n game isMax) v = true /\ Num.leb v alpha = true)
    /\ (Num.leb beta (fullMinimax n game isMax) = true ->
        Num.leb beta v = true /\ Num.leb v (fullMinimax n game isMax) = true).
Proof.
  intros Ha Hb Hab Hf.
  destruct (minimax_returns n fuel game alpha beta isMax Hf) as [v Hv].
  exists v. split; [exact Hv|].
  destruct (minimax_within n fuel game alpha beta isMax v Ha Hb Hab Hv)
    as (_ & Hlow & Hin & Hhigh).
  auto.
Qed.

Lemma X1_witness :
  Num.isNaN (Int (-50)) = false /\ Num.isNaN (Int 50) = false
  /\ Num.ltb (Int (-50)) (Int 50) = true /\ (2 < 3)%nat
  /\ exists v,
    minimax (E := chessJs) 3 ChessJs.start (Z.of_nat 2) (Int (-50)) (Int 50) true
    = Some v
    /\ (Num.ltb (Int (-50)) (fullMinimax 2 ChessJs.start true) = true ->
        Num.ltb (fullMinimax 2 ChessJs.start true) (Int 50) = true ->
        v = fullMinimax 2 ChessJs.start true)
    /\ (Num.leb (fullMinimax 2 ChessJs.start true) (Int (-50)) = true ->
        Num.leb (fullMinimax 2 ChessJs.start true) v = true
        /\ Num.leb v (Int (-50)) = true)
    /\ (Num.leb (Int 50) (fullMinimax 2 ChessJs.start true) = true ->
        Num.leb (Int 50) v = true
        /\ Num.leb v (fullMinimax 2 ChessJs.start true) = true).
Proof.
  split; [reflexivity|]. split; [reflexivity|]. split; [reflexivity|].
  split; [lia|].
  apply (X1_minimax_window_bound (E := chessJs) 2 3 ChessJs.start
           (Int (-50)) (Int 50) true); [reflexivity|reflexivity|reflexivity|lia].
Defined.




Lemma notWorse_antisym (isMax : bool) (x y : number) :
  notWorse isMax x y = true -> notWorse isMax y x = true -> x = y.
Proof. destruct isMax; unfold notWorse; num_crush. Qed.

(** X2.  The sort at the head of [minimax] rearranges the legal moves
    without losing or repeating any: the captures come first, then the
    other moves, and inside each group the moves keep the order in which
    [game.moves()] listed them; so no move that is not a capture is
    searched before a capture. *)
Theorem X2_minimax_searches_captures_first {E : RulesEngine} (ms : list Move) :
  Permutation (Array.sort capturesFirst ms) ms
  /\ Array.sort capturesFirst ms
     = filter isCapture ms ++ filter (fun m => negb (isCapture m)) ms
  /\ (forall before m after,
        Array.sort capturesFirst ms = before ++ m :: after ->
        isCapture m = true ->
        Forall (fun x => isCapture x = true) before).
Proof.
  split; [apply sort_perm|]. split; [apply sort_capturesFirst|].
  intros before m after Heq Hm. rewrite sort_capturesFirst in Heq.
  unfold capturesFirstOrder in Heq.
  apply Forall_forall. intros x Hx.
  destruct (isCapture x) eqn:Hcx; [reflexivity|exfalso].
  assert (Hcaps : Forall (fun y => isCapture y = true) (filter isCapture ms))
    by (apply Forall_forall; intros y Hy; apply filter_In in Hy; tauto).
  assert (Hoth : Forall (fun y => isCapture y = false)
                   (filter (fun y => negb (isCapture y)) ms)).
  { apply Forall_forall. intros y Hy. apply filter_In in Hy.
    destruct Hy as [_ Hy]. apply negb_true_iff in Hy. exact Hy. }
  revert Heq Hcaps Hx.
  generalize (filter isCapture ms) as caps. intros caps. revert before.
  induction caps as [|c caps IH]; intros before Heq Hcaps Hx.
  - cbn in Heq. rewrite Heq in Hoth. apply Forall_app in Hoth.
    destruct Hoth as [_ Hoth]. inversion Hoth; congruence.
  - destruct before as [|b before]; [destruct Hx|].
    cbn in Heq. injection Heq as <- Heq. inversion Hcaps; subst.
    destruct Hx as [<-|Hx]; [congruence|]. eauto.
Qed.

(** X3.  The two entry points agree on the value of a position: on a
    position with a legal move, for a depth of at least 1 and a count of
    at least 1, the first entry of [findTopMoves] has the evaluation that
    [findBestMove] returns.  (The two moves can differ when several moves
    share that value: [findBestMove] looks at the captures first.)  When
    the count covers every legal move, the move of [findBestMove] is among
    the entries, with that evaluation. *)
Theorem X3_top_move_has_best_value {E : RulesEngine}
    (fuel : nat) (game : Chess) (depth count : Z) :
  moves game <> [] ->
  1 <= depth ->
  depth <= Z.of_nat fuel ->
  1 <= count ->
  exists m v top rest,
    findBestMove fuel game depth = Some (mkBestMove (Some m) v)
    /\ findTopMoves fuel game depth count = Some (top :: rest)
    /\ evaluation top = v
    /\ (Z.of_nat (length (moves game)) <= count ->
        In (mkMoveEvaluation m v) (top :: rest)).
Proof.
  intros Hne Hd Hf Hc.
  destruct (findBestMove_first_best fuel game depth Hne Hd Hf)
    as (m & v & _ & _ & Hbest & Hin & Hvm & Hall & _).
  destruct (findTopMoves_ranking fuel game depth count Hd Hf)
    as (entries & result & dropped & Hes & Hmoves & Hvals & Hres & _ & Hsorted
        & Hperm & Hdrop & _ & Hfull); [lia|].
  set (isMax := Color_eqb (turn game) White) in *.
  (* the result is not empty *)
  assert (Hresult : result = Array.slice0 (Array.sort (byEvaluation isMax) entries) count).
  { rewrite (findTopMoves_sorted_slice fuel game depth count entries Hes) in Hres.
    injection Hres as <-. reflexivity. }
  assert (Hsome : exists top rest, result = top :: rest).
  { pose proof (sort_perm (byEvaluation isMax) entries) as Hp.
    destruct (Array.sort (byEvaluation isMax) entries) as [|top sorted] eqn:Hs.
    - apply Permutation_nil in Hp. subst entries. cbn in Hmoves. congruence.
    - rewrite Hresult. unfold Array.slice0.
      destruct (count <? 0) eqn:Hneg; [z_bool; lia|].
      cbn [length]. destruct (Z.to_nat _) eqn:Hk; [lia|].
      cbn. eauto. }
  destruct Hsome as (top & rest & ->).
  (* the entry of the best move *)
  assert (Hentry : In (mkMoveEvaluation m v) entries).
  { rewrite <- Hmoves in Hin. apply in_map_iff in Hin.
    destruct Hin as (e & He & Hine).
    pose proof (Hvals e Hine) as Hv. rewrite He, Hvm in Hv.
    destruct e as [em ev]. cbn in *. congruence. }
  assert (Htop : notWorse isMax (evaluation top) v = true).
  { apply (Permutation_in _ (Permutation_sym Hperm)) in Hentry.
    apply in_app_or in Hentry. destruct Hentry as [[Htop|Hr]|Hdr].
    - rewrite Htop. cbn. apply notWorse_refl. unfold rootValue in Hvm.
      eapply minimax_not_nan; exact Hvm.
    - inversion Hsorted as [|? ? _ Hhd]; subst.
      rewrite Forall_forall in Hhd. apply (Hhd _ Hr).
    - apply (Hdrop top _ (or_introl eq_refl) Hdr). }
  assert (Hv : notWorse isMax v (evaluation top) = true).
  { assert (Hint : In top entries)
      by (apply (Permutation_in _ Hperm); left; reflexivity).
    destruct (Hall (me_move top)) as (vx & Hvx & Hnw).
    - rewrite <- Hmoves. apply in_map. exact Hint.
    - rewrite (Hvals top Hint) in Hvx. congruence. }
  exists m, v, top, rest. repeat split.
  - exact Hbest.
  - exact Hres.
  - apply notWorse_antisym with isMax; assumption.
  - intros Hn. destruct (Hfull Hn) as (-> & _). rewrite app_nil_r in Hperm.
    apply (Permutation_in _ (Permutation_sym Hperm)). exact Hentry.
Qed.

Lemma X3_witness :
  moves ChessJs.start <> [] /\ 1 <= 2 /\ 2 <= Z.of_nat 2 /\ 1 <= 3 /\
  exists m v top rest,
    findBestMove (E := chessJs) 2 ChessJs.start 2 = Some (mkBestMove (Some m) v)
    /\ findTopMoves 2 ChessJs.start 2 3 = Some (top :: rest)
    /\ evaluation top = v
    /\ (Z.of_nat (length (moves ChessJs.start)) <= 3 ->
        In (mkMoveEvaluation m v) (top :: rest)).
Proof.
  assert (Hne : moves ChessJs.start <> []) by (vm_compute; discriminate).
  split; [exact Hne|]. split; [lia|]. split; [lia|]. split; [lia|].
  apply (X3_top_move_has_best_value (E := chessJs) 2 ChessJs.start 2 3 Hne); lia.
Defined.

(** X4.  A negative [count] does not give an empty answer: [slice(0,
    count)] then counts from the end, and [findTopMoves] returns the
    ranking of all the legal moves without its last [-count] entries (none
    when there are no more than that). *)
Theorem X4_negative_count_drops_the_last {E : RulesEngine}
    (fuel : nat) (game : Chess) (depth count : Z) :
  1 <= depth ->
  depth <= Z.of_nat fuel ->
  count < 0 ->
  exists ranking,
    findTopMoves fuel game depth (Z.of_nat (length (moves game))) = Some ranking
    /\ length ranking = length (moves game)
    /\ findTopMoves fuel game depth count
       = Some (firstn (length ranking - Z.to_nat (- count)) ranking).
Proof.
  intros Hd Hf Hc.
  set (isMax := Color_eqb (turn game) White).
  set (value := fun x => fullMinimax (Z.to_nat depth - 1) (gameCopyAfter game x)
    (negb isMax)).
  set (entries := map (fun m => mkMoveEvaluation m (value m)) (moves game)).
  assert (Hes : evaluateMoves fuel game depth isMax (moves game) = Some entries).
  { apply evaluateMoves_values. intros; apply rootValue_exact; lia. }
  set (sorted := Array.sort (byEvaluation isMax) entries).
  assert (Hlen : length sorted = length (moves game)).
  { unfold sorted. rewrite (Permutation_length (sort_perm _ entries)).
    unfold entries. apply length_map. }
  exists sorted.
  rewrite !(findTopMoves_sorted_slice fuel game depth _ entries Hes).
  fold isMax. fold sorted. unfold Array.slice0. rewrite Hlen.
  split; [|split].
  - destruct (_ <? 0) eqn:Hneg; [z_bool; lia|].
    rewrite Z.min_id, Nat2Z.id, firstn_all2 by lia. reflexivity.
  - reflexivity.
  - destruct (count <? 0) eqn:Hneg; [|z_bool; lia].
    do 2 f_equal. lia.
Qed.

Lemma X4_witness :
  1 <= 1 /\ 1 <= Z.of_nat 1 /\ -2 < 0 /\
  exists ranking,
    findTopMoves (E := chessJs) 1 twoKings 1 (Z.of_nat (length (moves twoKings)))
    = Some ranking
    /\ length ranking = length (moves twoKings)
    /\ findTopMoves 1 twoKings 1 (-2)
       = Some (firstn (length ranking - Z.to_nat (- -2)) ranking).
Proof.
  split; [lia|]. split; [lia|]. split; [lia|].
  apply (X4_negative_count_drops_the_last (E := chessJs) 1 twoKings 1 (-2)); lia.
Defined.

(** The loops of [minimax] only use the recursive call through its
    results. *)
Lemma maxLoop_ext {E : RulesEngine}
    (rec1 rec2 : Chess -> number -> number -> option number) (game : Chess) :
  (forall c a b', rec1 c a b' = rec2 c a b') ->
  forall ms maxEval alpha beta,
    maxLoop rec1 game ms maxEval alpha beta
    = maxLoop rec2 game ms maxEval alpha beta.
Proof.
  intros Hrec. induction ms as [|m ms IH]; intros maxEval alpha beta; cbn.
  - reflexivity.
  - rewrite Hrec. destruct (rec2 (gameCopyAfter game m) alpha beta); [|reflexivity].
    destruct (Num.leb beta _); [reflexivity|apply IH].
Qed.

Lemma minLoop_ext {E : RulesEngine}
    (rec1 rec2 : Chess -> number -> number -> option number) (game : Chess) :
  (forall c a b', rec1 c a b' = rec2 c a b') ->
  forall ms minEval alpha beta,
    minLoop rec1 game ms minEval alpha beta
    = minLoop rec2 game ms minEval alpha beta.
Proof.
  intros Hrec. induction ms as [|m ms IH]; intros minEval alpha beta; cbn.
  - reflexivity.
  - rewrite Hrec. destruct (rec2 (gameCopyAfter game m) alpha beta); [|reflexivity].
    destruct (Num.leb _ alpha); [reflexivity|apply IH].
Qed.

(** Below zero the depth is never looked at again. *)
Lemma minimax_negative_depth {E : RulesEngine} (fuel : nat) :
  forall game depth depth' alpha beta isMax,
    depth < 0 -> depth' < 0 ->
    minimax fuel game depth alpha beta isMax
    = minimax fuel game depth' alpha beta isMax.
Proof.
  induction fuel as [|fuel IH]; intros game depth depth' alpha beta isMax Hd Hd'.
  - reflexivity.
  - rewrite !minimax_S.
    replace (depth =? 0) with false by (symmetry; apply Z.eqb_neq; lia).
    replace (depth' =? 0) with false by (symmetry; apply Z.eqb_neq; lia).
    destruct (isGameOver game); [reflexivity|].
    destruct isMax.
    + apply maxLoop_ext. intros. apply IH; lia.
    + apply minLoop_ext. intros. apply IH; lia.
Qed.

Lemma minimax_negative_returns {E : RulesEngine} (fuel : nat) :
  forall game depth alpha beta isMax v,
    depth < 0 ->
    minimax (S fuel) game depth alpha beta isMax = Some v ->
    firstLineEnds fuel game = true.
Proof.
  induction fuel as [|fuel IH]; intros game depth alpha beta isMax v Hd H;
    rewrite minimax_S in H;
    replace (depth =? 0) with false in H by (symmetry; apply Z.eqb_neq; lia);
    cbn [firstLineEnds];
    (destruct (isGameOver game); [reflexivity|]);
    (destruct (Array.sort capturesFirst (moves game)) as [|m ms]; [reflexivity|]).
  - destruct isMax; cbn in H; discriminate.
  - destruct isMax; cbn [maxLoop minLoop] in H;
      destruct (minimax (S fuel) (gameCopyAfter game m) (depth - 1) alpha beta _)
        as [ev|] eqn:Hev; try discriminate;
      apply (IH _ _ _ _ _ _ (ltac:(lia) : depth - 1 < 0) Hev).
Qed.

(** The root loop searches every move it is given. *)
Lemma bestLoop_searches_all {E : RulesEngine} (fuel : nat) (game : Chess)
    (depth : Z) (isMax : bool) (ms : list Move) :
  forall bm bv r,
    bestLoop fuel game depth isMax ms bm bv = Some r ->
    forall m, In m ms -> exists v, rootValue fuel game depth isMax m = Some v.
Proof.
  induction ms as [|m0 ms IH]; intros bm bv r H m Hin; [destruct Hin|].
  rewrite bestLoop_cons in H.
  destruct (rootValue fuel game depth isMax m0) as [v0|] eqn:Hv0; [|discriminate].
  destruct Hin as [<-|Hin]; [eauto|].
  destruct (better isMax v0 bv); eapply IH; eauto.
Qed.

Lemma bestLoop_depth_ext {E : RulesEngine} (fuel : nat) (game : Chess)
    (depth depth' : Z) (isMax : bool) (ms : list Move) :
  (forall m, rootValue fuel game depth isMax m = rootValue fuel game depth' isMax m) ->
  forall bm bv,
    bestLoop fuel game depth isMax ms bm bv
    = bestLoop fuel game depth' isMax ms bm bv.
Proof.
  intros Hv. induction ms as [|m ms IH]; intros bm bv; [reflexivity|].
  rewrite !bestLoop_cons, Hv.
  destruct (rootValue fuel game depth' isMax m) as [v|]; [|reflexivity].
  destruct (better isMax v bv); apply IH.
Qed.

(** X5.  A depth below 1 is not a shallower search but an unbounded one.
    [findBestMove] passes [depth - 1] to [minimax], which stops at depth 0
    exactly; called with a depth of 0 or less it therefore never meets its
    depth test.  If such a call returns, then below every legal move the
    line of first moves has come to a finished game or to a position with
    no move, however many moves that takes; and the call returns the same
    for every depth below 1. *)
Theorem X5_depth_below_one_searches_to_the_end {E : RulesEngine}
    (fuel : nat) (game : Chess) (depth : Z) (r : BestMove Move) (m : Move) :
  depth <= 0 ->
  findBestMove (S fuel) game depth = Some r ->
  In m (moves game) ->
  firstLineEnds fuel (gameCopyAfter game m) = true
  /\ forall depth', depth' <= 0 -> findBestMove (S fuel) game depth' = Some r.
Proof.
  intros Hd Hr Hin.
  assert (Hne : moves game <> []) by (intros Hnil; rewrite Hnil in Hin; destruct Hin).
  split.
  - rewrite findBestMove_some_moves in Hr by assumption.
    destruct (bestLoop_searches_all _ _ _ _ _ _ _ _ Hr m) as [v Hv].
    + apply (Permutation_in _ (Permutation_sym (capturesFirstOrder_perm _))).
      exact Hin.
    + unfold rootValue in Hv.
      eapply minimax_negative_returns; [|exact Hv]. lia.
  - intros depth' Hd'. rewrite <- Hr.
    rewrite !findBestMove_some_moves by assumption.
    apply bestLoop_depth_ext. intros x. unfold rootValue.
    apply minimax_negative_depth; lia.
Qed.

Lemma X5_witness :
  0 <= 0
  /\ findBestMove (E := chessJs) 1 twoKings 0
     = Some (mkBestMove
               (Some (ChessJs.mkMove White (7, 4) (7, 5) King None None
                        ChessJs.NORMAL))
               (Int 10))
  /\ In Ke1d2 (moves twoKings)
  /\ firstLineEnds 0 (gameCopyAfter twoKings Ke1d2) = true
  /\ forall depth', depth' <= 0 ->
       findBestMove (E := chessJs) 1 twoKings depth'
       = Some (mkBestMove
                 (Some (ChessJs.mkMove White (7, 4) (7, 5) King None None
                          ChessJs.NORMAL))
                 (Int 10)).
Proof.
  assert (H0 : 0 <= 0) by lia.
  assert (Hr : findBestMove (E := chessJs) 1 twoKings 0
               = Some (mkBestMove
                         (Some (ChessJs.mkMove White (7, 4) (7, 5) King None None
                                  ChessJs.NORMAL))
                         (Int 10))) by (vm_compute; reflexivity).
  assert (Hin : In Ke1d2 (moves twoKings)) by (vm_compute; auto).
  split; [exact H0|]. split; [exact Hr|]. split; [exact Hin|].
  exact (X5_depth_below_one_searches_to_the_end (E := chessJs)
           0 twoKings 0 _ Ke1d2 H0 Hr Hin).
Defined.

(* ===================================================================== *)
(** * More about the evaluator *)

(** The score of one piece: its material value and the entry of its
    table. *)
Lemma pieceScore_bound (t : PieceSymbol) (row col : nat) :
  80 <= PIECE_VALUES t + at2 (PSTS t) row col <= 20030.
Proof.
  unfold at2.
  destruct t; cbn [PSTS PIECE_VALUES];
    do 8 (destruct row as [|row];
          [do 8 (destruct col as [|col]; [vm_compute; split; discriminate|]);
           destruct col; vm_compute; split; discriminate|]);
    destruct row; destruct col; vm_compute; split; discriminate.
Qed.

Lemma contribution_by_colour (board : Board) (sq : nat * nat) :
  match holdsColor board White sq, holdsColor board Black sq with
  | true, false => 80 <= contribution board (fst sq) (snd sq) <= 20030
  | false, true => -20030 <= contribution board (fst sq) (snd sq) <= -80
  | false, false => contribution board (fst sq) (snd sq) = 0
  | true, true => False
  end.
Proof.
  unfold holdsColor, contribution, evaluateSquare.
  destruct (squareAt board (fst sq) (snd sq)) as [pc|]; [|reflexivity].
  pose proof (pieceScore_bound (type pc) (fst sq) (snd sq)).
  pose proof (pieceScore_bound (type pc) (7 - fst sq) (snd sq)).
  destruct (color pc); cbn [Color_eqb]; lia.
Qed.

Lemma evaluateFrom_by_colour (board : Board) (sqs : list (nat * nat)) :
  80 * Z.of_nat (length (filter (holdsColor board White) sqs))
  - 20030 * Z.of_nat (length (filter (holdsColor board Black) sqs))
  <= evaluateFrom board 0 sqs
  <= 20030 * Z.of_nat (length (filter (holdsColor board White) sqs))
     - 80 * Z.of_nat (length (filter (holdsColor board Black) sqs)).
Proof.
  induction sqs as [|sq sqs IH].
  - cbn. lia.
  - rewrite evaluateFrom_cons, evaluateFrom_shift, evaluateSquare_contribution.
    pose proof (contribution_by_colour board sq) as Hc.
    cbn [filter].
    destruct (holdsColor board White sq), (holdsColor board Black sq);
      cbn [length]; rewrite ?Nat2Z.inj_succ; lia.
Qed.

(** X6.  Material decides the sign of the evaluation: every white piece
    on the board adds between 80 and 20030 to it and every black piece
    takes as much away, whatever their squares, so the evaluation lies
    between [80 W - 20030 B] and [20030 W - 80 B] for a board with [W]
    white and [B] black pieces.  A board with white pieces only and at
    least one of them is worth at least 80, one with black pieces only
    at most -80, and the empty board 0. *)
Theorem X6_evaluation_follows_material (b : Board) :
  80 * countPieces b White - 20030 * countPieces b Black
  <= evaluateBoardArray b
  <= 20030 * countPieces b White - 80 * countPieces b Black
  /\ (0 < countPieces b White -> countPieces b Black = 0 ->
      80 <= evaluateBoardArray b)
  /\ (0 < countPieces b Black -> countPieces b White = 0 ->
      evaluateBoardArray b <= -80)
  /\ (countPieces b White = 0 -> countPieces b Black = 0 ->
      evaluateBoardArray b = 0).
Proof.
  unfold countPieces, evaluateBoardArray.
  pose proof (evaluateFrom_by_colour b squares) as H.
  repeat split; intros; lia.
Qed.

(* ===================================================================== *)
(** * The positions the search visits *)

Lemma list_sum_perm (l l' : list nat) :
  Permutation l l' -> list_sum l = list_sum l'.
Proof. induction 1; cbn [list_sum fold_right] in *; unfold list_sum in *; lia. Qed.

Section Created.
Context {E : RulesEngine}.

Section Loops.
Variables (recH : Heap.ref -> number -> number -> Heap.M number)
    (size : Chess -> nat).
Hypothesis rec_created :
  forall c gc a b' w v w',
    nth_error (Heap.objects w) c = Some gc ->
    recH c a b' w = Some (v, w') ->
    exists created,
      Heap.objects w' = Heap.objects w ++ created
      /\ (S (length created) <= size gc)%nat.

Lemma maxLoop_created (r : Heap.ref) (g : Chess) (ms : list Move) :
  forall maxEval alpha beta w v w',
    nth_error (Heap.objects w) r = Some g ->
    Heap.maxLoop recH r ms maxEval alpha beta w = Some (v, w') ->
    exists created,
      Heap.objects w' = Heap.objects w ++ created
      /\ (length created
          <= list_sum (map (fun m => size (gameCopyAfter g m)) ms))%nat.
Proof.
  induction ms as [|m ms IH]; intros maxEval alpha beta w v w' Hr H;
    cbn [Heap.maxLoop] in H.
  - injection H as _ <-. exists []. rewrite app_nil_r. split; [reflexivity|].
    cbn. lia.
  - unfold Heap.bind at 1 in H. rewrite (gameCopyAfter_run w r g m Hr) in H.
    set (w1 := Heap.mkWorld _ _) in H.
    unfold Heap.bind at 1 in H.
    destruct (recH (length (Heap.objects w)) alpha beta w1) as [[ev w2]|] eqn:Hev;
      [|discriminate].
    destruct (rec_created _ _ _ _ _ _ _ (copy_lookup w _ _) Hev)
      as (cr1 & Ho1 & Hl1).
    cbn [Heap.objects w1] in Ho1. cbn [map].
    match goal with
    | |- context [list_sum (?a :: ?l)] =>
        change (list_sum (a :: l)) with (a + list_sum l)%nat
    end.
    destruct (Num.leb beta (Num.max alpha ev)).
    + injection H as _ <-. exists (gameCopyAfter g m :: cr1). split.
      * rewrite Ho1, <- app_assoc. reflexivity.
      * cbn [length]. lia.
    + apply IH in H.
      * destruct H as (cr2 & Ho2 & Hl2).
        exists ((gameCopyAfter g m :: cr1) ++ cr2). split.
        -- rewrite Ho2, Ho1, <- !app_assoc. reflexivity.
        -- rewrite length_app. cbn [length]. lia.
      * rewrite Ho1, <- app_assoc. rewrite nth_error_app1; [exact Hr|].
        apply nth_error_Some. congruence.
Qed.

Lemma minLoop_created (r : Heap.ref) (g : Chess) (ms : list Move) :
  forall minEval alpha beta w v w',
    nth_error (Heap.objects w) r = Some g ->
    Heap.minLoop recH r ms minEval alpha beta w = Some (v, w') ->
    exists created,
      Heap.objects w' = Heap.objects w ++ created
      /\ (length created
          <= list_sum (map (fun m => size (gameCopyAfter g m)) ms))%nat.
Proof.
  induction ms as [|m ms IH]; intros minEval alpha beta w v w' Hr H;
    cbn [Heap.minLoop] in H.
  - injection H as _ <-. exists []. rewrite app_nil_r. split; [reflexivity|].
    cbn. lia.
  - unfold Heap.bind at 1 in H. rewrite (gameCopyAfter_run w r g m Hr) in H.
    set (w1 := Heap.mkWorld _ _) in H.
    unfold Heap.bind at 1 in H.
    destruct (recH (length (Heap.objects w)) alpha beta w1) as [[ev w2]|] eqn:Hev;
      [|discriminate].
    destruct (rec_created _ _ _ _ _ _ _ (copy_lookup w _ _) Hev)
      as (cr1 & Ho1 & Hl1).
    cbn [Heap.objects w1] in Ho1. cbn [map].
    match goal with
    | |- context [list_sum (?a :: ?l)] =>
        change (list_sum (a :: l)) with (a + list_sum l)%nat
    end.
    destruct (Num.leb (Num.min beta ev) alpha).
    + injection H as _ <-. exists (gameCopyAfter g m :: cr1). split.
      * rewrite Ho1, <- app_assoc. reflexivity.
      * cbn [length]. lia.
    + apply IH in H.
      * destruct H as (cr2 & Ho2 & Hl2).
        exists ((gameCopyAfter g m :: cr1) ++ cr2). split.
        -- rewrite Ho2, Ho1, <- !app_assoc. reflexivity.
        -- rewrite length_app. cbn [length]. lia.
      * rewrite Ho1, <- app_assoc. rewrite nth_error_app1; [exact Hr|].
        apply nth_error_Some. congruence.
Qed.

End Loops.

Lemma fullTreeSize_sorted (n : nat) (g : Chess) :
  list_sum (map (fun m => fullTreeSize n (gameCopyAfter g m))
              (Array.sort capturesFirst (moves g)))
  = list_sum (map (fun m => fullTreeSize n (gameCopyAfter g m)) (moves g)).
Proof. apply list_sum_perm, Permutation_map, sort_perm. Qed.

Lemma minimax_created (n : nat) :
  forall fuel r g alpha beta isMax w v w',
    nth_error (Heap.objects w) r = Some g ->
    Heap.minimax fuel r (Z.of_nat n) alpha beta isMax w = Some (v, w') ->
    exists created,
      Heap.objects w' = Heap.objects w ++ created
      /\ (S (length created) <= fullTreeSize n g)%nat.
Proof.
  induction n as [|n IH]; intros fuel r g alpha beta isMax w v w' Hr H;
    (destruct fuel as [|fuel]; [discriminate|]); cbn [Heap.minimax] in H.
  - cbn [Z.of_nat Z.eqb] in H. unfold Heap.bind at 1 in H. cbn [Heap.ret] in H.
    rewrite (evaluateBoard_run w r g Hr) in H. injection H as _ <-.
    exists []. rewrite app_nil_r. split; [reflexivity|]. cbn. lia.
  - rewrite depth_not_zero, depth_step in H.
    unfold Heap.bind at 1 in H. rewrite (query_run _ _ _ _ _ Hr) in H.
    set (w1 := Heap.mkWorld _ _) in H.
    assert (Hr1 : nth_error (Heap.objects w1) r = Some g) by exact Hr.
    cbn [fullTreeSize].
    destruct (isGameOver g).
    + rewrite (evaluateBoard_run w1 r g Hr1) in H. injection H as _ <-.
      exists []. rewrite app_nil_r. split; [reflexivity|]. cbn. lia.
    + unfold Heap.bind at 1 in H. rewrite (query_run _ _ _ _ _ Hr1) in H.
      set (w2 := Heap.mkWorld _ _) in H.
      assert (Hr2 : nth_error (Heap.objects w2) r = Some g) by exact Hr.
      rewrite <- fullTreeSize_sorted.
      destruct isMax.
      * eapply maxLoop_created in H; [| |exact Hr2].
        -- destruct H as (created & Ho & Hl). exists created.
           split; [exact Ho|]. apply le_n_S. exact Hl.
        -- intros. eapply IH; eassumption.
      * eapply minLoop_created in H; [| |exact Hr2].
        -- destruct H as (created & Ho & Hl). exists created.
           split; [exact Ho|]. apply le_n_S. exact Hl.
        -- intros. eapply IH; eassumption.
Qed.

End Created.

(** X7.  The cutoffs only ever save work: run on an object, [minimax]
    of depth [n >= 0] creates one [Chess] object for each position it
    visits below the root and nothing else, and with the root these are
    never more than the positions of the tree that plain minimax searches
    to that depth, whatever the window and the order of the moves. *)
Theorem X7_pruning_visits_no_more_positions {E : RulesEngine}
    (n fuel : nat) (game : Heap.ref) (g : Chess) (alpha beta : number)
    (isMax : bool) (w : Heap.World) :
  nth_error (Heap.objects w) game = Some g ->
  (n < fuel)%nat ->
  exists v w' created,
    Heap.minimax fuel game (Z.of_nat n) alpha beta isMax w = Some (v, w')
    /\ minimax fuel g (Z.of_nat n) alpha beta isMax = Some v
    /\ Heap.objects w' = Heap.objects w ++ created
    /\ (S (length created) <= fullTreeSize n g)%nat.
Proof.
  intros Hr Hf.
  destruct (minimax_returns n fuel g alpha beta isMax Hf) as [v Hv].
  pose proof (minimax_refines fuel game g (Z.of_nat n) alpha beta isMax w Hr) as Href.
  rewrite Hv in Href. destruct Href as (w' & Hrun & _).
  destruct (minimax_created n fuel game g alpha beta isMax w v w' Hr Hrun)
    as (created & Ho & Hl).
  exists v, w', created. auto.
Qed.

Lemma X7_witness :
  nth_error (Heap.objects newGameWorld) 0%nat = Some ChessJs.start
  /\ (2 < 3)%nat
  /\ exists v w' created,
    Heap.minimax (E := chessJs) 3 0%nat (Z.of_nat 2) (Int (-50)) (Int 50) true
      newGameWorld = Some (v, w')
    /\ minimax 3 ChessJs.start (Z.of_nat 2) (Int (-50)) (Int 50) true = Some v
    /\ Heap.objects w' = Heap.objects newGameWorld ++ created
    /\ (S (length created) <= fullTreeSize 2 ChessJs.start)%nat.
Proof.
  split; [reflexivity|]. split; [lia|].
  apply (X7_pruning_visits_no_more_positions (E := chessJs) 2 3 0%nat
           ChessJs.start (Int (-50)) (Int 50) true newGameWorld);
    [reflexivity|lia].
Defined.

(* ===================================================================== *)
(** * The opponent's reply *)

(** X8.  The opponent always answers, and with a move of the search.
    When the player's move leaves a game that is not finished, with Black
    to move, and the rules engine reports every position without a legal
    move as finished (as chess does: checkmate or stalemate), then
    [executeMove] returns (the search of depth 3 needs three nested
    calls), the branch for a missing [bestMove] is never taken, and the
    move played is a legal move of the position, whose value at depth 3
    is the least (Black minimizes) of the values of the legal moves; the
    final game is the position after that move. *)
Theorem X8_opponent_replies_with_a_best_move {E : RulesEngine}
    (fuel : nat) (game : Chess) (m : Move) :
  (forall g, moves g = [] -> isGameOver g = true) ->
  (3 <= fuel)%nat ->
  In m (moves game) ->
  isGameOver (move (load (fen game)) m) = false ->
  isGameOver (load (fen (move (load (fen game)) m))) = false ->
  turn (load (fen (move (load (fen game)) m))) = Black ->
  exists reply v,
    executeMove fuel game m
    = Some (mkPlayed (move (load (fen game)) m) (Some reply)
              (move (load (fen (move (load (fen game)) m))) reply))
    /\ In reply (moves (load (fen (move (load (fen game)) m))))
    /\ rootValue fuel (load (fen (move (load (fen game)) m))) 3 false reply
       = Some v
    /\ (forall x, In x (moves (load (fen (move (load (fen game)) m)))) ->
        exists vx,
          rootValue fuel (load (fen (move (load (fen game)) m))) 3 false x
          = Some vx
          /\ Num.leb v vx = true).
Proof.
  intros Hrules Hf _ Hp Ho Ht.
  set (p := move (load (fen game)) m) in *.
  set (o := load (fen p)) in *.
  assert (Hne : moves o <> []).
  { intros Hnil. apply Hrules in Hnil. congruence. }
  destruct (findBestMove_first_best fuel o 3 Hne) as
    (reply & v & _ & _ & Hbest & Hin & Hv & Hall & _); [lia|lia|].
  rewrite Ht in Hv, Hall. cbn [Color_eqb] in Hv, Hall.
  exists reply, v. split; [|auto].
  unfold executeMove, opponentReply. fold p. rewrite Hp. cbn [negb].
  fold o. rewrite Ho, Ht. cbn [Color_eqb]. rewrite Hbest. reflexivity.
Qed.

Lemma X8_witness :
  (forall g : Chess, moves (RulesEngine := chessJs) g = [] -> isGameOver g = true)
  /\ (3 <= 3)%nat
  /\ In Nb1c3 (moves ChessJs.start)
  /\ isGameOver (move (load (fen ChessJs.start)) Nb1c3) = false
  /\ isGameOver (load (fen (move (load (fen ChessJs.start)) Nb1c3))) = false
  /\ turn (load (fen (move (load (fen ChessJs.start)) Nb1c3))) = Black
  /\ exists reply v,
    executeMove (E := chessJs) 3 ChessJs.start Nb1c3
    = Some (mkPlayed (move (load (fen ChessJs.start)) Nb1c3) (Some reply)
              (move (load (fen (move (load (fen ChessJs.start)) Nb1c3))) reply))
    /\ In reply (moves (load (fen (move (load (fen ChessJs.start)) Nb1c3))))
    /\ rootValue 3 (load (fen (move (load (fen ChessJs.start)) Nb1c3))) 3 false reply
       = Some v
    /\ (forall x, In x (moves (load (fen (move (load (fen ChessJs.start)) Nb1c3)))) ->
        exists vx,
          rootValue 3 (load (fen (move (load (fen ChessJs.start)) Nb1c3))) 3 false x
          = Some vx
          /\ Num.leb v vx = true).
Proof.
  assert (Hin : In Nb1c3 (moves ChessJs.start)) by (vm_compute; tauto).
  assert (Hp : isGameOver (move (load (fen ChessJs.start)) Nb1c3) = false)
    by (vm_compute; reflexivity).
  assert (Ho : isGameOver (load (fen (move (load (fen ChessJs.start)) Nb1c3))) = false)
    by (vm_compute; reflexivity).
  assert (Ht : turn (load (fen (move (load (fen ChessJs.start)) Nb1c3))) = Black)
    by (vm_compute; reflexivity).
  split; [exact chessJs_no_moves_game_over|]. split; [lia|].
  split; [exact Hin|]. split; [exact Hp|]. split; [exact Ho|]. split; [exact Ht|].
  exact (X8_opponent_replies_with_a_best_move (E := chessJs) 3 ChessJs.start Nb1c3
           chessJs_no_moves_game_over (le_n 3) Hin Hp Ho Ht).
Defined.


(* ===================================================================== *)
(** * The piece instances after a move *)

Lemma Square_eqb_eq (s t : ChessJs.Square) :
  ChessJs.Square_eqb s t = true <-> s = t.
Proof.
  unfold ChessJs.Square_eqb. destruct s as [r c], t as [r' c']. cbn.
  rewrite andb_true_iff, !Z.eqb_eq. split.
  - intros [-> ->]. reflexivity.
  - intros H. injection H as -> ->. auto.
Qed.

Lemma set_other {Info : Type} (key : ChessJs.Square)
    (value : Instances.Slot (Info := Info))
    (instances : Instances.PieceInstances) (k : ChessJs.Square) :
  k <> key -> Instances.set key value instances k = instances k.
Proof.
  intros Hk. unfold Instances.set.
  destruct (ChessJs.Square_eqb k key) eqn:He; [|reflexivity].
  apply Square_eqb_eq in He. contradiction.
Qed.

Lemma set_same {Info : Type} (key : ChessJs.Square)
    (value : Instances.Slot (Info := Info))
    (instances : Instances.PieceInstances) :
  Instances.set key value instances key = value.
Proof.
  unfold Instances.set.
  destruct (ChessJs.Square_eqb key key) eqn:He; [reflexivity|].
  assert (H : ChessJs.Square_eqb key key = true) by (apply Square_eqb_eq; reflexivity).
  congruence.
Qed.

Lemma keyed_set_null {Info : Type} (key : ChessJs.Square)
    (instances : Instances.PieceInstances (Info := Info)) :
  Instances.keyed instances ->
  Instances.keyed (Instances.set key Instances.Null instances).
Proof.
  intros Hk k i. unfold Instances.set.
  destruct (ChessJs.Square_eqb k key); [discriminate|apply Hk].
Qed.

Lemma keyed_set_instance {Info : Type} (key : ChessJs.Square)
    (instance : Instances.PieceInstance (Info := Info))
    (instances : Instances.PieceInstances) :
  Instances.keyed instances ->
  Instances.square instance = key ->
  Instances.keyed (Instances.set key (Instances.Instance instance) instances).
Proof.
  intros Hk Hs k i. unfold Instances.set.
  destruct (ChessJs.Square_eqb k key) eqn:He; [|apply Hk].
  apply Square_eqb_eq in He. intros H. injection H as <-. congruence.
Qed.

Lemma keyed_castleRook {Info : Type} (m : ChessJs.Move)
    (instances : Instances.PieceInstances (Info := Info)) :
  Instances.keyed instances ->
  Instances.keyed (Instances.castleRook m instances).
Proof.
  intros Hk. unfold Instances.castleRook.
  destruct (Instances.isCastling m); [|exact Hk].
  destruct (instances _) as [| |rook]; try exact Hk.
  apply keyed_set_null, keyed_set_instance; [exact Hk|reflexivity].
Qed.

Lemma castleRook_other {Info : Type} (m : ChessJs.Move)
    (instances : Instances.PieceInstances (Info := Info)) (k : ChessJs.Square) :
  (Instances.isCastling m = true ->
   k <> Instances.rookFrom
          (ChessJs.Flag_eqb (ChessJs.flags m) ChessJs.KSIDE_CASTLE)
          (ChessJs.mv_color m)
   /\ k <> Instances.rookTo
             (ChessJs.Flag_eqb (ChessJs.flags m) ChessJs.KSIDE_CASTLE)
             (ChessJs.mv_color m)) ->
  Instances.castleRook m instances k = instances k.
Proof.
  intros Hk. unfold Instances.castleRook.
  destruct (Instances.isCastling m); [|reflexivity].
  destruct (Hk eq_refl) as [Hfrom Hto].
  destruct (instances _) as [| |rook]; try reflexivity.
  rewrite !set_other by assumption. reflexivity.
Qed.

(** X9.  The update of the piece instances after the player's move, for
    a move whose promotion, if it is one, has left a piece on the
    destination: the update succeeds; the entry of the square the move
    left is [null]; no entry changes but those of the squares of the move
    and, in a castling move, of the rook, so that the instance of a pawn
    taken en passant stays where it was, on a square now empty; and if
    every instance was stored under its own square, this is still so. *)
Theorem X9_player_update_is_local (Info : Type)
    (promoted : Color -> PieceSymbol -> ChessJs.Square -> Info)
    (playerMoveGame : Board) (m : ChessJs.Move)
    (prevInstances : Instances.PieceInstances (Info := Info)) :
  (ChessJs.promotion m <> None ->
   ChessJs.pieceAt playerMoveGame (ChessJs.to m) <> None) ->
  exists newInstances,
    Instances.playerUpdate promoted playerMoveGame m prevInstances
    = Some newInstances
    /\ newInstances (ChessJs.from m) = Instances.Null
    /\ (forall k,
          k <> ChessJs.from m -> k <> ChessJs.to m ->
          (Instances.isCastling m = true ->
           k <> Instances.rookFrom
                  (ChessJs.Flag_eqb (ChessJs.flags m) ChessJs.KSIDE_CASTLE)
                  (ChessJs.mv_color m)
           /\ k <> Instances.rookTo
                     (ChessJs.Flag_eqb (ChessJs.flags m) ChessJs.KSIDE_CASTLE)
                     (ChessJs.mv_color m)) ->
          newInstances k = prevInstances k)
    /\ (Instances.keyed prevInstances -> Instances.keyed newInstances).
Proof.
  intros Hpromo. unfold Instances.playerUpdate.
  destruct (ChessJs.promotion m) as [t|].
  - destruct (ChessJs.pieceAt playerMoveGame (ChessJs.to m)) as [pc|] eqn:Hpc;
      [|exfalso; apply Hpromo; [discriminate|reflexivity]].
    eexists. split; [reflexivity|]. split; [apply set_same|]. split.
    + intros k Hfrom Hto Hrook.
      rewrite set_other, castleRook_other, set_other by assumption. reflexivity.
    + intros Hk. apply keyed_set_null, keyed_castleRook, keyed_set_instance;
        [exact Hk|reflexivity].
  - destruct (prevInstances (ChessJs.from m)) as [| |movedPiece] eqn:Hmoved;
      (eexists; split; [reflexivity|]; split; [apply set_same|]; split;
       [intros k Hfrom Hto Hrook;
        rewrite set_other, castleRook_other, ?set_other by assumption;
        reflexivity|]);
      intros Hk; apply keyed_set_null, keyed_castleRook;
      try exact Hk.
    apply keyed_set_instance; [exact Hk|reflexivity].
Qed.


Lemma X9_witness :
  (ChessJs.promotion a7a8Q <> None ->
   ChessJs.pieceAt pawnPromoted (ChessJs.to a7a8Q) <> None)
  /\ exists newInstances,
    Instances.playerUpdate (fun _ _ _ => 0) pawnPromoted a7a8Q threeInstances
    = Some newInstances
    /\ newInstances (ChessJs.from a7a8Q) = Instances.Null
    /\ (forall k,
          k <> ChessJs.from a7a8Q -> k <> ChessJs.to a7a8Q ->
          (Instances.isCastling a7a8Q = true ->
           k <> Instances.rookFrom
                  (ChessJs.Flag_eqb (ChessJs.flags a7a8Q) ChessJs.KSIDE_CASTLE)
                  (ChessJs.mv_color a7a8Q)
           /\ k <> Instances.rookTo
                     (ChessJs.Flag_eqb (ChessJs.flags a7a8Q) ChessJs.KSIDE_CASTLE)
                     (ChessJs.mv_color a7a8Q)) ->
          newInstances k = threeInstances k)
    /\ (Instances.keyed threeInstances -> Instances.keyed newInstances).
Proof.
  assert (H : ChessJs.promotion a7a8Q <> None ->
              ChessJs.pieceAt pawnPromoted (ChessJs.to a7a8Q) <> None)
    by (intros _; vm_compute; discriminate).
  split; [exact H|].
  exact (X9_player_update_is_local Z (fun _ _ _ => 0) pawnPromoted a7a8Q
           threeInstances H).
Defined.

(** X10.  The update after the opponent's move differs from the
    player's.  It is as local (only the squares of the move and of a
    castling rook change) and keeps every instance under its own square;
    but it has no case for a promotion: the instance of the pawn goes to
    the new square as it is, its [type] still that of a pawn; and when the
    moving piece has no instance nothing is written at all, so that the
    instance of a piece it takes stays on the square. *)
Theorem X10_opponent_update_ignores_promotion (Info : Type)
    (bestMove : ChessJs.Move)
    (prevInstances : Instances.PieceInstances (Info := Info)) :
  (forall k,
      k <> ChessJs.from bestMove -> k <> ChessJs.to bestMove ->
      (Instances.isCastling bestMove = true ->
       k <> Instances.rookFrom
              (ChessJs.Flag_eqb (ChessJs.flags bestMove) ChessJs.KSIDE_CASTLE)
              (ChessJs.mv_color bestMove)
       /\ k <> Instances.rookTo
                 (ChessJs.Flag_eqb (ChessJs.flags bestMove) ChessJs.KSIDE_CASTLE)
                 (ChessJs.mv_color bestMove)) ->
      Instances.opponentUpdate bestMove prevInstances k = prevInstances k)
  /\ (Instances.keyed prevInstances ->
      Instances.keyed (Instances.opponentUpdate bestMove prevInstances))
  /\ (forall movedPiece,
        prevInstances (ChessJs.from bestMove) = Instances.Instance movedPiece ->
        Instances.isCastling bestMove = false ->
        ChessJs.from bestMove <> ChessJs.to bestMove ->
        Instances.opponentUpdate bestMove prevInstances (ChessJs.from bestMove)
        = Instances.Null
        /\ Instances.opponentUpdate bestMove prevInstances (ChessJs.to bestMove)
           = Instances.Instance
               (Instances.mkPieceInstance (Instances.info movedPiece)
                  (Instances.pi_type movedPiece) (Instances.pi_color movedPiece)
                  (ChessJs.to bestMove)))
  /\ ((forall movedPiece,
         prevInstances (ChessJs.from bestMove) <> Instances.Instance movedPiece) ->
      Instances.isCastling bestMove = false ->
      forall k, Instances.opponentUpdate bestMove prevInstances k = prevInstances k).
Proof.
  unfold Instances.opponentUpdate. split; [|split; [|split]].
  - intros k Hfrom Hto Hrook. rewrite castleRook_other by assumption.
    destruct (prevInstances (ChessJs.from bestMove)); try reflexivity.
    rewrite !set_other by assumption. reflexivity.
  - intros Hk. apply keyed_castleRook.
    destruct (prevInstances (ChessJs.from bestMove)); try exact Hk.
    apply keyed_set_null, keyed_set_instance; [exact Hk|reflexivity].
  - intros movedPiece Hmoved Hcastle Hne. rewrite Hmoved.
    unfold Instances.castleRook. rewrite Hcastle. split.
    + apply set_same.
    + rewrite set_other by congruence. apply set_same.
  - intros Hnone Hcastle k. unfold Instances.castleRook. rewrite Hcastle.
    destruct (prevInstances (ChessJs.from bestMove)) as [| |movedPiece] eqn:Hm;
      try reflexivity.
    exfalso. apply (Hnone movedPiece). reflexivity.
Qed.


(* ===================================================================== *)
(** * Saving and loading a description *)

Lemma indexOfFrom_found (c : Z) (pre post : list Z) (i : Z) :
  ~ In c pre ->
  Str.indexOfFrom c (pre ++ c :: post) i = i + Z.of_nat (length pre).
Proof.
  revert i. induction pre as [|x pre IH]; intros i Hpre; cbn [app Str.indexOfFrom].
  - rewrite Z.eqb_refl. cbn. lia.
  - destruct (x =? c) eqn:Hx.
    + apply Z.eqb_eq in Hx. exfalso. apply Hpre. left. exact Hx.
    + rewrite IH by (intros H; apply Hpre; right; exact H).
      cbn [length]. lia.
Qed.

Lemma indexOfFrom_absent (c : Z) (s : list Z) (i : Z) :
  ~ In c s -> Str.indexOfFrom c s i = -1.
Proof.
  revert i. induction s as [|x s IH]; intros i Hs; cbn [Str.indexOfFrom].
  - reflexivity.
  - destruct (x =? c) eqn:Hx.
    + apply Z.eqb_eq in Hx. exfalso. apply Hs. left. exact Hx.
    + apply IH. intros H. apply Hs. right. exact H.
Qed.

Lemma substring_prefix (s : list Z) (n : nat) :
  (n <= length s)%nat -> Str.substring s 0 (Z.of_nat n) = firstn n s.
Proof.
  intros Hn. unfold Str.substring.
  replace (Z.min (Z.max 0 0) (Z.of_nat (length s))) with 0 by lia.
  replace (Z.min (Z.max (Z.of_nat n) 0) (Z.of_nat (length s)))
    with (Z.of_nat n) by lia.
  replace (Z.min 0 (Z.of_nat n)) with 0 by lia.
  replace (Z.max 0 (Z.of_nat n) - 0) with (Z.of_nat n) by lia.
  rewrite Nat2Z.id. reflexivity.
Qed.

Lemma substringFrom_suffix (s : list Z) (n : nat) :
  Str.substringFrom s (Z.of_nat n) = skipn n s.
Proof.
  unfold Str.substringFrom, Str.substring.
  set (len := Z.of_nat (length s)).
  replace (Z.min (Z.max len 0) len) with len by lia.
  replace (Z.max (Z.of_nat n) 0) with (Z.of_nat n) by lia.
  destruct (Nat.le_gt_cases n (length s)) as [Hn|Hn].
  - replace (Z.min (Z.of_nat n) len) with (Z.of_nat n) by lia.
    replace (Z.min (Z.of_nat n) len) with (Z.of_nat n) by lia.
    replace (Z.max (Z.of_nat n) len - Z.of_nat n) with (Z.of_nat (length s - n))
      by lia.
    rewrite !Nat2Z.id. apply firstn_all2. rewrite length_skipn. lia.
  - replace (Z.min (Z.of_nat n) len) with len by lia.
    replace (Z.min len len) with len by lia.
    replace (Z.max len len - len) with 0 by lia.
    rewrite (@skipn_all2 _ n s) by lia. reflexivity.
Qed.

(** The split of a text with a period. *)
Lemma splitDescription_at_period (pre post : list Z) :
  ~ In Str.period pre ->
  splitDescription (Some (pre ++ Str.period :: post))
  = (pre ++ [Str.period], Str.trim (skipn 1 post)).
Proof.
  intros Hpre. unfold splitDescription.
  unfold Str.indexOf.
  rewrite (indexOfFrom_found _ _ _ _ Hpre).
  replace (0 + Z.of_nat (length pre) =? -1) with false
    by (symmetry; apply Z.eqb_neq; lia).
  cbn [negb]. f_equal.
  - replace (0 + Z.of_nat (length pre) + 1) with (Z.of_nat (S (length pre))) by lia.
    rewrite substring_prefix by (rewrite length_app; cbn [length]; lia).
    change (pre ++ Str.period :: post) with (pre ++ [Str.period] ++ post).
    rewrite app_assoc.
    rewrite firstn_app, firstn_all2 by (rewrite length_app; cbn [length]; lia).
    rewrite length_app. cbn [length].
    replace (S (length pre) - (length pre + 1))%nat with 0%nat by lia.
    cbn. apply app_nil_r.
  - replace (0 + Z.of_nat (length pre) + 2) with (Z.of_nat (S (S (length pre))))
      by lia.
    rewrite substringFrom_suffix. f_equal.
    change (pre ++ Str.period :: post) with (pre ++ [Str.period] ++ post).
    rewrite app_assoc, skipn_app, length_app. cbn [length].
    rewrite skipn_all2 by (rewrite length_app; cbn [length]; lia).
    replace (S (S (length pre)) - (length pre + 1))%nat with 1%nat by lia.
    reflexivity.
Qed.

(** X11.  What a save followed by a load does to the texts of a piece.
    [initializeGame] takes as voice prompt the loaded text up to its first
    period and as description the rest, without the one character that
    follows the period (whatever it is) and trimmed.  So a voice prompt
    that ends with its only period comes back as it was saved, and the
    description comes back trimmed; but for a voice prompt without a
    period and a description without one either, nothing is split: the
    voice prompt comes back empty and the description is the saved text,
    the old voice prompt and a space in front. *)
Theorem X11_description_survives_save_and_load (body description post : list Z) :
  ~ In Str.period body ->
  splitDescription (Some (savedDescription (body ++ [Str.period]) description))
  = (body ++ [Str.period], Str.trim description)
  /\ splitDescription (Some (body ++ Str.period :: post))
     = (body ++ [Str.period], Str.trim (skipn 1 post))
  /\ (~ In Str.period description ->
      splitDescription (Some (savedDescription body description))
      = ([], body ++ [Str.space] ++ description)).
Proof.
  intros Hbody. split; [|split].
  - unfold savedDescription. rewrite <- app_assoc.
    change ([Str.period] ++ [Str.space] ++ description)
      with (Str.period :: Str.space :: description).
    rewrite splitDescription_at_period by assumption. reflexivity.
  - apply splitDescription_at_period. assumption.
  - intros Hdesc. unfold splitDescription, savedDescription.
    assert (Habsent : ~ In Str.period (body ++ [Str.space] ++ description)).
    { intros H. apply in_app_or in H. destruct H as [H|[H|H]]; auto.
      discriminate H. }
    unfold Str.indexOf.
    rewrite indexOfFrom_absent by assumption. reflexivity.
Qed.

Lemma X11_witness :
  ~ In Str.period [70; 97; 108; 101]
  /\ splitDescription
       (Some (savedDescription ([70; 97; 108; 101] ++ [Str.period]) [32; 83; 111; 117; 32]))
     = ([70; 97; 108; 101] ++ [Str.period], Str.trim [32; 83; 111; 117; 32])
  /\ splitDescription (Some ([70; 97; 108; 101] ++ Str.period :: [83; 111; 117]))
     = ([70; 97; 108; 101] ++ [Str.period], Str.trim (skipn 1 [83; 111; 117]))
  /\ (~ In Str.period [32; 83; 111; 117; 32] ->
      splitDescription (Some (savedDescription [70; 97; 108; 101] [32; 83; 111; 117; 32]))
      = ([], [70; 97; 108; 101] ++ [Str.space] ++ [32; 83; 111; 117; 32])).
Proof.
  assert (H : ~ In Str.period [70; 97; 108; 101])
    by (cbn; intros [H|[H|[H|[H|[]]]]]; discriminate H).
  split; [exact H|].
  exact (X11_description_survives_save_and_load [70; 97; 108; 101]
           [32; 83; 111; 117; 32] [83; 111; 117] H).
Defined.


(* ===================================================================== *)
(** * The audio samples *)

Lemma wrap_int16 (n : Z) :
  -32768 <= n <= 32767 ->
  (if 32768 <=? n mod 65536 then n mod 65536 - 65536 else n mod 65536) = n.
Proof.
  intros Hn. destruct (Z.neg_nonneg_cases n) as [Hneg|Hpos].
  - replace (n mod 65536) with (n + 65536)
      by (apply Z.mod_unique with (-1); lia).
    destruct (32768 <=? n + 65536) eqn:H; z_bool; lia.
  - rewrite Z.mod_small by lia.
    destruct (32768 <=? n) eqn:H; z_bool; lia.
Qed.

Lemma toInt16_integer (n : Z) :
  -32768 <= n <= 32767 -> Audio.toInt16 (Audio.Finite n 0) = n.
Proof.
  intros Hn. unfold Audio.toInt16, Audio.truncate. cbn [Z.leb Z.compare].
  rewrite Z.pow_0_r, Z.mul_1_r. apply wrap_int16. exact Hn.
Qed.

(** The integer part and the comparisons of the quotient [m / p]. *)
Lemma quot_clamp (m p : Z) :
  0 < p ->
  Z.max (-32768) (Z.min 32767 (Z.quot m p))
  = if m <? 32767 * p
    then if -32768 * p <? m then Z.quot m p else -32768
    else 32767.
Proof.
  intros Hp.
  pose proof (Z.quot_rem' m p) as Hqr.
  assert (Hr : (0 <= m -> 0 <= Z.rem m p < p) /\ (m <= 0 -> - p < Z.rem m p <= 0)).
  { split; intros Hm.
    - apply Z.rem_bound_pos; lia.
    - apply Z.rem_bound_pos_neg; assumption. }
  destruct Hr as [Hr1 Hr2].
  destruct (m <? 32767 * p) eqn:H1; [destruct (-32768 * p <? m) eqn:H2|];
    z_bool; destruct (Z.neg_nonneg_cases m) as [Hm|Hm];
    try specialize (Hr1 ltac:(lia)); try specialize (Hr2 ltac:(lia)); nia.
Qed.

(** The stored value of a finite sample. *)
Lemma int16Value_finite (m e : Z) :
  Audio.int16Value (Audio.Finite m e)
  = Z.max (-32768) (Z.min 32767 (Audio.truncate m (e + 15))).
Proof.
  unfold Audio.int16Value, Audio.times32768, Audio.min, Audio.max,
    Audio.ltZ, Audio.gtZ, Audio.truncate.
  destruct (0 <=? e + 15) eqn:He.
  - set (v := m * 2 ^ (e + 15)).
    destruct (v <? 32767) eqn:H1.
    + rewrite He. fold v. destruct (-32768 <? v) eqn:H2.
      * unfold Audio.toInt16, Audio.truncate. rewrite He. fold v.
        z_bool. rewrite wrap_int16 by lia. lia.
      * rewrite toInt16_integer by lia. z_bool. lia.
    + cbn. z_bool. lia.
  - assert (Hp : 0 < 2 ^ (- (e + 15))) by (apply Z.pow_pos_nonneg; z_bool; lia).
    rewrite (quot_clamp m _ Hp).
    destruct (m <? 32767 * 2 ^ (- (e + 15))) eqn:H1.
    + rewrite He. destruct (-32768 * 2 ^ (- (e + 15)) <? m) eqn:H2.
      * unfold Audio.toInt16, Audio.truncate. rewrite He.
        apply wrap_int16.
        pose proof (quot_clamp m _ Hp) as Hc. rewrite H1, H2 in Hc. lia.
      * apply toInt16_integer. lia.
    + cbn. reflexivity.
Qed.

Lemma int16Value_over32768 (n : Z) :
  -32768 <= n <= 32767 -> Audio.int16Value (Audio.over32768 n) = n.
Proof.
  intros Hn. unfold Audio.over32768. rewrite int16Value_finite.
  unfold Audio.truncate. cbn [Z.add Z.leb Z.compare Z.pos_sub Z.opp].
  cbn. rewrite Z.mul_1_r. lia.
Qed.

(** X13.  The value the recording worklet stores for a sample [x] is the
    integer part of [x * 32768] brought into the 16-bit range: the product
    is clamped to [-32768 .. 32767] before the conversion of the typed
    array, so a loud sample saturates and never wraps around to the
    other sign; an infinite sample saturates too, and [NaN] gives 0. *)
Theorem X13_samples_saturate (x : Audio.float) :
  -32768 <= Audio.int16Value x <= 32767
  /\ Audio.int16Value x
     = match x with
       | Audio.NaN => 0
       | Audio.NegInfinity => -32768
       | Audio.Infinity => 32767
       | Audio.Finite m e =>
           Z.max (-32768) (Z.min 32767 (Audio.truncate m (e + 15)))
       end.
Proof.
  destruct x as [| |m e|]; try (split; [cbn; lia|reflexivity]).
  rewrite int16Value_finite. split; [lia|reflexivity].
Qed.

Lemma length_set {A : Type} (i : nat) (x : A) (arr : list A) :
  length (Array.set i x arr) = length arr.
Proof.
  revert i. induction arr as [|a arr IH]; intros [|i]; cbn; auto.
Qed.

Lemma firstn_set {A : Type} (i : nat) (x : A) (arr : list A) :
  (i < length arr)%nat ->
  firstn (S i) (Array.set i x arr) = firstn i arr ++ [x].
Proof.
  revert i. induction arr as [|a arr IH]; intros [|i] Hi; cbn in Hi; try lia.
  - reflexivity.
  - change (a :: firstn (S i) (Array.set i x arr) = a :: (firstn i arr ++ [x])).
    f_equal. apply IH. lia.
Qed.

(** One sample: it joins the samples at hand, and these leave as one
    chunk when they fill the buffer. *)
Lemma processSample_step (w : Audio.AudioProcessingWorklet) (x : Audio.float) :
  (Audio.bufferWriteIndex w < length (Audio.buffer w))%nat ->
  let w' := Audio.processSample w x in
  length (Audio.buffer w') = length (Audio.buffer w)
  /\ (if (S (Audio.bufferWriteIndex w) <? length (Audio.buffer w))%nat
      then Audio.posted w' = Audio.posted w
           /\ Audio.bufferWriteIndex w' = S (Audio.bufferWriteIndex w)
           /\ Audio.pending w' = Audio.pending w ++ [Audio.int16Value x]
      else Audio.posted w'
           = Audio.posted w ++ [Audio.pending w ++ [Audio.int16Value x]]
           /\ Audio.bufferWriteIndex w' = 0%nat
           /\ Audio.pending w' = []).
Proof.
  intros Hi. unfold Audio.processSample. cbn [Audio.buffer Audio.bufferWriteIndex].
  rewrite length_set.
  destruct (S (Audio.bufferWriteIndex w) <? length (Audio.buffer w))%nat eqn:Hlt.
  - apply Nat.ltb_lt in Hlt.
    replace (length (Audio.buffer w) <=? S (Audio.bufferWriteIndex w))%nat
      with false by (symmetry; apply Nat.leb_gt; lia).
    cbn [Audio.buffer Audio.bufferWriteIndex Audio.posted].
    rewrite length_set. repeat split.
    unfold Audio.pending. cbn [Audio.buffer Audio.bufferWriteIndex].
    apply firstn_set. exact Hi.
  - apply Nat.ltb_ge in Hlt.
    replace (length (Audio.buffer w) <=? S (Audio.bufferWriteIndex w))%nat
      with true by (symmetry; apply Nat.leb_le; lia).
    unfold Audio.sendAndClearBuffer.
    cbn [Audio.buffer Audio.bufferWriteIndex Audio.posted Nat.ltb Nat.leb].
    rewrite length_set. repeat split.
    rewrite firstn_set by exact Hi. reflexivity.
Qed.

Lemma processChunk_chunks (samples : list Audio.float) :
  forall w size,
    length (Audio.buffer w) = size ->
    (Audio.bufferWriteIndex w < size)%nat ->
    let w' := Audio.processChunk w samples in
    length (Audio.buffer w') = size
    /\ (Audio.bufferWriteIndex w' < size)%nat
    /\ exists chunks,
         Audio.posted w' = Audio.posted w ++ chunks
         /\ Forall (fun chunk => length chunk = size) chunks
         /\ concat chunks ++ Audio.pending w'
            = Audio.pending w ++ map Audio.int16Value samples.
Proof.
  induction samples as [|x samples IH]; intros w size Hlen Hi.
  - cbn. repeat split; try assumption.
    exists []. rewrite !app_nil_r. repeat split. constructor.
  - unfold Audio.processChunk. cbn [fold_left].
    fold (Audio.processChunk (Audio.processSample w x) samples).
    assert (Hi' : (Audio.bufferWriteIndex w < length (Audio.buffer w))%nat) by lia.
    pose proof (processSample_step w x Hi') as (Hlen1 & Hstep).
    assert (Hpend : length (Audio.pending w) = Audio.bufferWriteIndex w).
    { unfold Audio.pending. rewrite length_firstn. lia. }
    destruct (S (Audio.bufferWriteIndex w) <? length (Audio.buffer w))%nat eqn:Hlt.
    + apply Nat.ltb_lt in Hlt. destruct Hstep as (Hposted & Hidx & Hpending).
      destruct (IH (Audio.processSample w x) size) as (Hl & Hb & chunks & Hp & Hall & Hcat);
        [lia|lia|].
      split; [exact Hl|]. split; [exact Hb|].
      exists chunks. rewrite Hp, Hposted, Hcat, Hpending.
      cbn [map]. rewrite <- app_assoc. auto.
    + apply Nat.ltb_ge in Hlt. destruct Hstep as (Hposted & Hidx & Hpending).
      destruct (IH (Audio.processSample w x) size) as (Hl & Hb & chunks & Hp & Hall & Hcat);
        [lia|lia|].
      split; [exact Hl|]. split; [exact Hb|].
      exists ((Audio.pending w ++ [Audio.int16Value x]) :: chunks).
      rewrite Hp, Hposted, <- app_assoc. split; [reflexivity|]. split.
      * constructor; [|exact Hall]. rewrite length_app, Hpend. cbn. lia.
      * cbn [concat map]. rewrite <- !app_assoc, Hcat, Hpending. reflexivity.
Qed.

(** X14.  The recording worklet loses no sample and sends only full
    chunks.  From a state with fewer than 2048 samples at hand in its
    buffer of 2048 (as the new processor is), [process] on any channel of
    samples ends in such a state; every chunk it sends holds exactly 2048
    samples; and the chunks sent, followed by the samples then at hand,
    are the samples that were at hand followed by the converted input, in
    order.  The samples at hand are never sent by a call that does not
    fill the buffer: nothing flushes them, and a call without a channel
    does nothing. *)
Theorem X14_worklet_sends_full_chunks
    (w : Audio.AudioProcessingWorklet) (float32Array : list Audio.float) :
  length (Audio.buffer w) = 2048%nat ->
  (Audio.bufferWriteIndex w < 2048)%nat ->
  length (Audio.buffer (Audio.process w (Some float32Array))) = 2048%nat
  /\ (Audio.bufferWriteIndex (Audio.process w (Some float32Array)) < 2048)%nat
  /\ (exists chunks,
       Audio.posted (Audio.process w (Some float32Array)) = Audio.posted w ++ chunks
       /\ Forall (fun chunk => length chunk = 2048%nat) chunks
       /\ concat chunks ++ Audio.pending (Audio.process w (Some float32Array))
          = Audio.pending w ++ map Audio.int16Value float32Array
       /\ length chunks
          = ((Audio.bufferWriteIndex w + length float32Array) / 2048)%nat
       /\ Audio.bufferWriteIndex (Audio.process w (Some float32Array))
          = ((Audio.bufferWriteIndex w + length float32Array) mod 2048)%nat)
  /\ Audio.process w None = w.
Proof.
  intros Hlen Hi.
  change (Audio.process w (Some float32Array))
    with (Audio.processChunk w float32Array).
  destruct (processChunk_chunks float32Array w 2048%nat Hlen Hi)
    as (Hl & Hb & chunks & Hp & Hall & Hcat).
  split; [exact Hl|]. split; [exact Hb|]. split; [|reflexivity].
  exists chunks. split; [exact Hp|]. split; [exact Hall|]. split; [exact Hcat|].
  assert (Hcount : (2048 * length chunks
                    + Audio.bufferWriteIndex (Audio.processChunk w float32Array)
                    = Audio.bufferWriteIndex w + length float32Array)%nat).
  { apply (f_equal (@length Z)) in Hcat.
    rewrite !length_app, length_map in Hcat.
    unfold Audio.pending in Hcat. rewrite !length_firstn in Hcat.
    assert (Hconcat : length (concat chunks) = (2048 * length chunks)%nat).
    { clear - Hall. induction Hall as [|c cs Hc Hcs IH]; [reflexivity|].
      cbn [concat length]. rewrite length_app, IH, Hc. lia. }
    lia. }
  split.
  - apply (Nat.div_unique _ _ _ _ Hb). lia.
  - apply (Nat.mod_unique _ _ (length chunks) _ Hb). lia.
Qed.

Lemma X14_witness :
  length (Audio.buffer Audio.newWorklet) = 2048%nat
  /\ (Audio.bufferWriteIndex Audio.newWorklet < 2048)%nat
  /\ length (Audio.buffer (Audio.process Audio.newWorklet
               (Some [Audio.Finite 1 (-1); Audio.NaN; Audio.Finite (-3) 0]))) = 2048%nat
  /\ (Audio.bufferWriteIndex (Audio.process Audio.newWorklet
        (Some [Audio.Finite 1 (-1); Audio.NaN; Audio.Finite (-3) 0])) < 2048)%nat
  /\ (exists chunks,
       Audio.posted (Audio.process Audio.newWorklet
         (Some [Audio.Finite 1 (-1); Audio.NaN; Audio.Finite (-3) 0]))
       = Audio.posted Audio.newWorklet ++ chunks
       /\ Forall (fun chunk => length chunk = 2048%nat) chunks
       /\ concat chunks ++ Audio.pending (Audio.process Audio.newWorklet
            (Some [Audio.Finite 1 (-1); Audio.NaN; Audio.Finite (-3) 0]))
          = Audio.pending Audio.newWorklet
            ++ map Audio.int16Value
                 [Audio.Finite 1 (-1); Audio.NaN; Audio.Finite (-3) 0]
       /\ length chunks
          = ((Audio.bufferWriteIndex Audio.newWorklet
              + length [Audio.Finite 1 (-1); Audio.NaN; Audio.Finite (-3) 0])
             / 2048)%nat
       /\ Audio.bufferWriteIndex (Audio.process Audio.newWorklet
            (Some [Audio.Finite 1 (-1); Audio.NaN; Audio.Finite (-3) 0]))
          = ((Audio.bufferWriteIndex Audio.newWorklet
              + length [Audio.Finite 1 (-1); Audio.NaN; Audio.Finite (-3) 0])
             mod 2048)%nat)
  /\ Audio.process Audio.newWorklet None = Audio.newWorklet.
Proof.
  assert (Hlen : length (Audio.buffer Audio.newWorklet) = 2048%nat)
    by (vm_compute; reflexivity).
  assert (Hi : (Audio.bufferWriteIndex Audio.newWorklet < 2048)%nat)
    by (cbn; lia).
  split; [exact Hlen|]. split; [exact Hi|].
  exact (X14_worklet_sends_full_chunks Audio.newWorklet
           [Audio.Finite 1 (-1); Audio.NaN; Audio.Finite (-3) 0] Hlen Hi).
Defined.

(** ** Decoding *)

Lemma int16Bytes_unsigned (n : Z) :
  n mod 256 + 256 * ((n / 256) mod 256) = n mod 65536.
Proof.
  change 65536 with (256 * 256). rewrite Z.rem_mul_r by lia. reflexivity.
Qed.

Lemma getInt16_encoded (pcm : list Z) :
  Forall (fun n => -32768 <= n <= 32767) pcm ->
  forall i n,
    nth_error pcm i = Some n ->
    Audio.getInt16 (flat_map Audio.int16Bytes pcm) (i * 2) = Some n.
Proof.
  induction 1 as [|x pcm Hx Hpcm IH]; intros [|i] n Hn; cbn in Hn; try discriminate.
  - injection Hn as <-. unfold Audio.getInt16. cbn [flat_map Audio.int16Bytes app
      Nat.mul nth_error].
    rewrite int16Bytes_unsigned, wrap_int16 by exact Hx. reflexivity.
  - specialize (IH i n Hn). unfold Audio.getInt16 in *.
    cbn [flat_map Audio.int16Bytes app Nat.mul Nat.add nth_error]. exact IH.
Qed.

Lemma set_middle {A : Type} (l1 l2 : list A) (x y : A) :
  Array.set (length l1) x (l1 ++ y :: l2) = l1 ++ x :: l2.
Proof. induction l1 as [|a l1 IH]; cbn; [reflexivity|]. rewrite IH. reflexivity. Qed.

Lemma firstn_next {A : Type} (l : list A) (i : nat) (x : A) :
  nth_error l i = Some x -> firstn (S i) l = firstn i l ++ [x].
Proof.
  revert i. induction l as [|a l IH]; intros [|i] Hx; cbn in Hx; try discriminate.
  - injection Hx as ->. reflexivity.
  - change (a :: firstn (S i) l = a :: (firstn i l ++ [x])).
    f_equal. apply IH. exact Hx.
Qed.

Lemma decodeLoop_encoded (pcm : list Z) :
  Forall (fun n => -32768 <= n <= 32767) pcm ->
  forall turns i,
    (i + turns = length pcm)%nat ->
    Audio.decodeLoop (flat_map Audio.int16Bytes pcm) turns i
      (map Audio.over32768 (firstn i pcm) ++ repeat (Audio.Finite 0 0) turns)
    = inr (map Audio.over32768 pcm).
Proof.
  intros Hpcm. induction turns as [|turns IH]; intros i Hi; cbn [Audio.decodeLoop].
  - cbn [repeat]. rewrite app_nil_r, firstn_all2 by lia. reflexivity.
  - destruct (nth_error pcm i) as [n|] eqn:Hn;
      [|apply nth_error_None in Hn; lia].
    rewrite (getInt16_encoded pcm Hpcm i n Hn). cbn [repeat].
    assert (Hlen : length (map Audio.over32768 (firstn i pcm)) = i)
      by (rewrite length_map, length_firstn; lia).
    rewrite <- Hlen at 2. rewrite set_middle.
    specialize (IH (S i) ltac:(lia)).
    rewrite (firstn_next pcm i n Hn), map_app, <- app_assoc in IH. exact IH.
Qed.

(** A read past the end of the buffer ends the loop with an error. *)
Lemma decodeLoop_past_end (buffer : list Z) (turns : nat) :
  forall i channelData,
    (0 < turns)%nat ->
    (length buffer < (i + turns) * 2)%nat ->
    Audio.decodeLoop buffer turns i channelData = inl Audio.RangeError.
Proof.
  induction turns as [|turns IH]; intros i channelData Hturns Hlen; [lia|].
  cbn [Audio.decodeLoop].
  destruct (Audio.getInt16 buffer (i * 2)) as [int16|] eqn:Hget; [|reflexivity].
  destruct turns as [|turns].
  - exfalso. unfold Audio.getInt16 in Hget.
    destruct (nth_error buffer (i * 2)); [|discriminate].
    destruct (nth_error buffer (S (i * 2))) eqn:Hhigh; [|discriminate].
    assert (S (i * 2) < length buffer)%nat
      by (apply nth_error_Some; congruence).
    lia.
  - apply IH; lia.
Qed.

(** X12.  [decodeAndBuffer] is exact on a chunk of whole samples and
    refuses the others.  For a chunk that holds the bytes, the low one
    first, of at least one 16-bit sample, the buffer returned has one float
    for each sample, its quotient by 32768, a number from -1 up to, but not
    including, 1; and the recording worklet would store that float as the
    sample it came from.  A chunk with an odd number of bytes over a
    buffer of its own gives no audio: the call throws. *)
Theorem X12_decode_is_exact (pcm : list Z) (chunk : list Z) :
  pcm <> [] ->
  Forall (fun n => -32768 <= n <= 32767) pcm ->
  Nat.odd (length chunk) = true ->
  Audio.decodeAndBuffer (Audio.pcm16 pcm) = inr (map Audio.over32768 pcm)
  /\ Forall (fun x => Audio.ltZ x (-1) = false /\ Audio.ltZ x 1 = true)
       (map Audio.over32768 pcm)
  /\ map Audio.int16Value (map Audio.over32768 pcm) = pcm
  /\ exists error,
       Audio.decodeAndBuffer (Audio.mkUint8Array chunk 0 (length chunk))
       = inl error.
Proof.
  intros Hne Hpcm Hodd. split; [|split; [|split]].
  - unfold Audio.decodeAndBuffer, Audio.pcm16.
    cbn [Audio.u8_length Audio.u8_buffer].
    replace ((2 * length pcm) / 2)%nat with (length pcm)
      by (symmetry; rewrite Nat.mul_comm; apply Nat.div_mul; lia).
    replace ((2 * length pcm + 1) / 2)%nat with (length pcm)
      by (apply (Nat.div_unique _ 2 _ 1); lia).
    destruct (length pcm =? 0)%nat eqn:Hzero.
    + apply Nat.eqb_eq in Hzero. destruct pcm; [congruence|discriminate].
    + apply (decodeLoop_encoded pcm Hpcm (length pcm) 0). reflexivity.
  - apply Forall_map. eapply Forall_impl; [|exact Hpcm].
    intros n Hn. cbv beta in Hn. unfold Audio.over32768, Audio.ltZ.
    change (0 <=? -15) with false. cbv iota.
    change (2 ^ (- -15)) with 32768.
    split; [apply Z.ltb_ge|apply Z.ltb_lt]; lia.
  - rewrite map_map. rewrite <- (map_id pcm) at 2.
    apply map_ext_in. intros n Hn. apply int16Value_over32768.
    rewrite Forall_forall in Hpcm. apply Hpcm. exact Hn.
  - unfold Audio.decodeAndBuffer. cbn [Audio.u8_length Audio.u8_buffer].
    destruct (length chunk / 2 =? 0)%nat; [eauto|].
    exists Audio.RangeError.
    rewrite Nat.odd_spec in Hodd. destruct Hodd as [k Hk].
    assert (Hturns : ((length chunk + 1) / 2 = S k)%nat)
      by (symmetry; apply (Nat.div_unique _ 2 _ 0); lia).
    rewrite Hturns. apply decodeLoop_past_end; lia.
Qed.

Lemma X12_witness :
  [1000; -2] <> []
  /\ Forall (fun n => -32768 <= n <= 32767) [1000; -2]
  /\ Nat.odd (length [232; 3; 254]) = true
  /\ Audio.decodeAndBuffer (Audio.pcm16 [1000; -2])
     = inr (map Audio.over32768 [1000; -2])
  /\ Forall (fun x => Audio.ltZ x (-1) = false /\ Audio.ltZ x 1 = true)
       (map Audio.over32768 [1000; -2])
  /\ map Audio.int16Value (map Audio.over32768 [1000; -2]) = [1000; -2]
  /\ exists error,
       Audio.decodeAndBuffer (Audio.mkUint8Array [232; 3; 254] 0 (length [232; 3; 254]))
       = inl error.
Proof.
  assert (Hne : [1000; -2] <> []) by discriminate.
  assert (Hpcm : Forall (fun n => -32768 <= n <= 32767) [1000; -2])
    by (repeat constructor; lia).
  assert (Hodd : Nat.odd (length [232; 3; 254]) = true) by reflexivity.
  split; [exact Hne|]. split; [exact Hpcm|]. split; [exact Hodd|].
  exact (X12_decode_is_exact [1000; -2] [232; 3; 254] Hne Hpcm Hodd).
Defined.


(* ===================================================================== *)
(** * The colour of a square *)

(** The remainder [x % 2] is 0 for the even numbers, of either sign. *)
Lemma rem2_even (x : Z) : (Z.rem x 2 =? 0) = Z.even x.
Proof.
  destruct (Z.even x) eqn:He.
  - apply Z.even_spec in He. destruct He as [k ->].
    rewrite Z.mul_comm, Z.rem_mul by lia. reflexivity.
  - apply Z.eqb_neq. intros Hr.
    pose proof (Z.quot_rem' x 2) as Hq. rewrite Hr, Z.add_0_r in Hq.
    rewrite Hq, Z.even_mul in He. discriminate He.
Qed.

Lemma getSquareColor_name (file rank : Z) :
  0 <= rank <= 7 ->
  getSquareColor (squareName file rank)
  = if Z.even (file + rank) then dark else light.
Proof.
  intros Hr. unfold getSquareColor, squareName.
  cbn [nth_error option_map parseIntChar].
  replace ((48 <=? 49 + rank) && (49 + rank <=? 57)) with true
    by (symmetry; apply andb_true_iff; split; apply Z.leb_le; lia).
  cbn [option_map].
  replace (97 + file - 97 + (49 + rank - 48 - 1)) with (file + rank) by lia.
  rewrite rem2_even. reflexivity.
Qed.

(** X15.  [getSquareColor] colours the board as a chessboard is: a1 is
    dark and h1 light, and two squares of the board have the same colour
    exactly when the sum of their distances in files and in ranks is
    even.  So the squares next to a square in its rank or its file have
    the other colour, and the squares of a diagonal have one colour: a
    bishop, named after the colour of its square, keeps that name as it
    moves. *)
Theorem X15_square_colours_alternate (file rank file' rank' : Z) :
  0 <= rank <= 7 ->
  0 <= rank' <= 7 ->
  (getSquareColor (squareName file rank) = getSquareColor (squareName file' rank')
   <-> Z.even ((file' - file) + (rank' - rank)) = true)
  /\ (Z.abs (file' - file) = Z.abs (rank' - rank) ->
      getSquareColor (squareName file rank)
      = getSquareColor (squareName file' rank'))
  /\ (Z.abs (file' - file) + Z.abs (rank' - rank) = 1 ->
      getSquareColor (squareName file rank)
      <> getSquareColor (squareName file' rank'))
  /\ getSquareColor (squareName 0 0) = dark
  /\ getSquareColor (squareName 7 0) = light.
Proof.
  intros Hr Hr'.
  assert (Hiff : getSquareColor (squareName file rank)
                 = getSquareColor (squareName file' rank')
                 <-> Z.even ((file' - file) + (rank' - rank)) = true).
  { rewrite !getSquareColor_name by assumption.
    replace (file' - file + (rank' - rank))
      with ((file' + rank') - (file + rank)) by lia.
    rewrite Z.even_sub.
    destruct (Z.even (file + rank)), (Z.even (file' + rank')); cbn;
      split; congruence. }
  split; [exact Hiff|]. split; [|split; [|split]].
  - intros Hdiag. apply Hiff.
    assert (Hcases : rank' - rank = file' - file \/ rank' - rank = - (file' - file))
      by lia.
    destruct Hcases as [-> | ->].
    + rewrite Z.add_diag, Z.even_mul. reflexivity.
    + rewrite Z.add_opp_diag_r. reflexivity.
  - intros Hstep Heq. apply Hiff in Heq.
    assert (Hcases : file' - file + (rank' - rank) = 1
                     \/ file' - file + (rank' - rank) = -1) by lia.
    destruct Hcases as [H1 | H1]; rewrite H1 in Heq; discriminate Heq.
  - reflexivity.
  - reflexivity.
Qed.

Lemma X15_witness :
  0 <= 0 <= 7 /\ 0 <= 3 <= 7
  /\ (getSquareColor (squareName 2 0) = getSquareColor (squareName 5 3)
      <-> Z.even ((5 - 2) + (3 - 0)) = true)
  /\ (Z.abs (5 - 2) = Z.abs (3 - 0) ->
      getSquareColor (squareName 2 0) = getSquareColor (squareName 5 3))
  /\ (Z.abs (5 - 2) + Z.abs (3 - 0) = 1 ->
      getSquareColor (squareName 2 0) <> getSquareColor (squareName 5 3))
  /\ getSquareColor (squareName 0 0) = dark
  /\ getSquareColor (squareName 7 0) = light.
Proof.
  split; [lia|]. split; [lia|].
  apply (X15_square_colours_alternate 2 0 5 3); lia.
Defined.

(* ===================================================================== *)
(** * The evaluator and the two wings of the board *)

(** All the tables but the queen's read the same from the left and from
    the right. *)
Lemma PSTS_file_symmetry (t : PieceSymbol) (row col : nat) :
  t <> Queen -> (col < 8)%nat ->
  at2 (PSTS t) row (7 - col) = at2 (PSTS t) row col.
Proof.
  intros Ht Hcol. unfold at2.
  destruct t; try congruence; cbn [PSTS];
    do 8 (destruct row as [|row];
          [do 8 (destruct col as [|col]; [reflexivity|]); lia|]);
    cbn [nth]; destruct row; destruct (7 - col)%nat, col; reflexivity.
Qed.

Lemma squareAt_fileMirror (board : Board) (row col : nat) :
  Forall (fun r => length r = 8%nat) board -> (col < 8)%nat ->
  squareAt (fileMirror board) row col = squareAt board row (7 - col).
Proof.
  intros Hrows Hcol. unfold squareAt, fileMirror.
  change (@nil (option Piece)) with (rev (@nil (option Piece))) at 1.
  rewrite map_nth.
  destruct (Nat.lt_ge_cases row (length board)) as [Hrow|Hrow].
  - assert (Hlen : length (nth row board []) = 8%nat).
    { rewrite Forall_forall in Hrows. apply Hrows. apply nth_In. exact Hrow. }
    rewrite rev_nth by lia. rewrite Hlen. reflexivity.
  - assert (Hnil : forall n, nth n (@nil (option Piece)) None = None)
      by (intros [|n]; reflexivity).
    rewrite (nth_overflow board) by exact Hrow. cbn [rev]. rewrite !Hnil.
    reflexivity.
Qed.

Lemma contribution_fileMirror (board : Board) (row col : nat) :
  Forall (fun r => length r = 8%nat) board -> noQueen board -> (col < 8)%nat ->
  contribution (fileMirror board) row col = contribution board row (7 - col).
Proof.
  intros Hrows Hq Hcol. unfold contribution, evaluateSquare.
  rewrite squareAt_fileMirror by assumption.
  destruct (squareAt board row (7 - col)) as [pc|] eqn:Hpc; [|reflexivity].
  pose proof (Hq _ _ _ Hpc) as Ht.
  rewrite !(PSTS_file_symmetry (type pc) _ col Ht Hcol). reflexivity.
Qed.

Lemma evaluateFrom_row_fileMirror (board : Board) (row : nat) :
  Forall (fun r => length r = 8%nat) board -> noQueen board ->
  evaluateFrom (fileMirror board) 0 (rowSquares row)
  = evaluateFrom board 0 (rowSquares row).
Proof.
  intros Hrows Hq. unfold rowSquares. cbn [seq map].
  rewrite !evaluateFrom_cons. cbn [fst snd].
  unfold evaluateFrom. cbn [fold_left].
  rewrite !evaluateSquare_contribution.
  rewrite !contribution_fileMirror by (assumption || lia).
  cbn [Nat.sub]. lia.
Qed.

(** X16.  The evaluator treats the two wings of the board alike, but for
    the queens.  On a board of eight rows of eight squares without a
    queen, exchanging the files a and h, b and g, c and f, d and e leaves
    the evaluation as it is: the values of the pieces do not depend on
    the square and every table but the queen's is the same read from
    either side.  The queen's table is not: a white queen alone is worth
    900 on a4 and 895 on h4. *)
Theorem X16_evaluation_mirrors_files (board : Board) :
  Forall (fun r => length r = 8%nat) board ->
  noQueen board ->
  evaluateBoardArray (fileMirror board) = evaluateBoardArray board
  /\ fileMirror (queenOn 0) = queenOn 7
  /\ evaluateBoardArray (queenOn 0) = 900
  /\ evaluateBoardArray (queenOn 7) = 895.
Proof.
  intros Hrows Hq. split; [|split; [|split]]; try reflexivity.
  rewrite (evaluateBoardArray_rows (fileMirror board)),
          (evaluateBoardArray_rows board).
  rewrite !evaluateFrom_row_fileMirror by assumption. reflexivity.
Qed.

Lemma X16_witness :
  Forall (fun r => length r = 8%nat) pawnOnSeventh
  /\ noQueen pawnOnSeventh
  /\ evaluateBoardArray (fileMirror pawnOnSeventh) = evaluateBoardArray pawnOnSeventh
  /\ fileMirror (queenOn 0) = queenOn 7
  /\ evaluateBoardArray (queenOn 0) = 900
  /\ evaluateBoardArray (queenOn 7) = 895.
Proof.
  assert (Hrows : Forall (fun r => length r = 8%nat) pawnOnSeventh)
    by (repeat constructor).
  assert (Hq : noQueen pawnOnSeventh).
  { intros row col piece.
    do 8 (destruct row as [|row];
          [do 8 (destruct col as [|col];
                 [cbn; intros H; try discriminate H;
                  injection H as <-; discriminate|]);
           destruct col; discriminate|]).
    destruct row; destruct col; discriminate. }
  split; [exact Hrows|]. split; [exact Hq|].
  exact (X16_evaluation_mirrors_files pawnOnSeventh Hrows Hq).
Defined.
